(** * nftableslib: table store, set store and L3 address compiler

    A shallow embedding of [nftables.go], [nfsets.go] and the L3 rule
    compiler of nftableslib, with the properties of its specification
    stated and settled against the embedded code.

    Conventions of the embedding:
    - Go's fixed-width unsigned integers are [Z] with the wrap-around
      written out ([uint32]); slice lengths are [nat].
    - A Go pointer or a slice that the code compares with [nil] is an
      [option]; byte slices are lists of [Z] in the range 0..255.
    - A Go [(T, error)] result is a [result T]; a plain [error] is an
      [option error].
    - The connection ([NetNS]) is external: every call on it is appended to
      a log, and what it answers is given by an oracle over that log.
    - A [sync.Mutex] is a boolean; [Lock] on a held mutex never returns,
      which the embedding records as the outcome [Blocked], together with
      the store and the log as they stand at that point. *)

From Stdlib Require Import ZArith Lia List Bool.
From stdpp Require Import base option list strings gmap pretty.

Local Open Scope Z_scope.

(** ** Go primitives *)

Definition error := string.

Inductive result (A : Type) : Type :=
| Ok (a : A)
| Err (e : error).
Arguments Ok {A} a.
Arguments Err {A} e.

Definition is_Ok {A} (r : result A) : bool :=
  match r with Ok _ => true | Err _ => false end.

Definition uint32 (z : Z) : Z := z mod 2 ^ 32.

Definition bytes := list Z.

(** [make([]byte, n)]: [n] zero bytes. *)
Definition make (n : nat) : bytes := repeat 0 n.

(** [copy(dst, src)]: overwrites the first [min (len dst) (len src)] bytes
    of [dst]; the embedding returns the new contents of [dst]. *)
Definition copy (dst src : bytes) : bytes :=
  take (length dst) src ++ drop (length src) dst.

(** [binaryutil.BigEndian.PutUint32] and [PutUint16]. *)
Definition PutUint32 (v : Z) : bytes :=
  [ Z.land (Z.shiftr v 24) 255; Z.land (Z.shiftr v 16) 255;
    Z.land (Z.shiftr v 8) 255; Z.land v 255 ].

Definition PutUint16 (v : Z) : bytes :=
  [ Z.land (Z.shiftr v 8) 255; Z.land v 255 ].

(** [len] of a slice that may be [nil]. *)
Definition len {A} (s : option (list A)) : nat :=
  match s with Some l => length l | None => O end.

(** [rand.Intn(n)] for [0 < n]: the generator's accepted draw [v] reduced
    modulo [n]; the draw is an input of the embedding. *)
Definition Intn (n v : Z) : Z := v mod n.

(** [fmt]'s verb [%d] on an unsigned integer, and its verb [%#02x] on a
    byte: [0x] followed by two hexadecimal digits. *)
Definition fmtDecimal (n : Z) : string := pretty n.

Definition hexDigit (d : Z) : string :=
  if d <? 10 then pretty d
  else if d =? 10 then "a" else if d =? 11 then "b" else if d =? 12 then "c"
  else if d =? 13 then "d" else if d =? 14 then "e" else "f".

Definition fmtHexByte (b : Z) : string :=
  "0x" +:+ hexDigit (b / 16) +:+ hexDigit (b mod 16).

(** ** The nftables library's data types *)

(** [nftables.TableFamily] is a byte. *)
Definition TableFamily := Z.
Definition TableFamilyUnspecified : TableFamily := 0.
Definition TableFamilyINet : TableFamily := 1.
Definition TableFamilyIPv4 : TableFamily := 2.
Definition TableFamilyARP : TableFamily := 3.
Definition TableFamilyNetdev : TableFamily := 5.
Definition TableFamilyBridge : TableFamily := 7.
Definition TableFamilyIPv6 : TableFamily := 10.

Record Table := mkTable {
  Family : TableFamily;
  TName : string
}.

#[global] Instance Table_eq_dec : EqDecision Table.
Proof. solve_decision. Defined.

Record SetDatatype := mkSetDatatype {
  Name : string;
  Bytes : Z;
  nftMagic : Z
}.

#[global] Instance SetDatatype_eq_dec : EqDecision SetDatatype.
Proof. solve_decision. Defined.

Definition GetNFTMagic (t : SetDatatype) : Z := nftMagic t.
Definition SetNFTMagic (t : SetDatatype) (m : Z) : SetDatatype :=
  {| Name := Name t; Bytes := Bytes t; nftMagic := m |}.

Definition SetConcatTypeBits : Z := 6.

Definition TypeInvalid : SetDatatype := mkSetDatatype "invalid" 0 0.
Definition TypeVerdict : SetDatatype := mkSetDatatype "verdict" 0 1.
Definition TypeInteger : SetDatatype := mkSetDatatype "integer" 4 4.
Definition TypeIPAddr : SetDatatype := mkSetDatatype "ipv4_addr" 4 7.
Definition TypeIP6Addr : SetDatatype := mkSetDatatype "ipv6_addr" 16 8.
Definition TypeEtherAddr : SetDatatype := mkSetDatatype "ether_addr" 6 9.
Definition TypeInetProto : SetDatatype := mkSetDatatype "inet_proto" 1 12.
Definition TypeInetService : SetDatatype := mkSetDatatype "inet_service" 2 13.
Definition TypeMark : SetDatatype := mkSetDatatype "mark" 4 19.

(** [expr.Verdict]. *)
Record Verdict := mkVerdict {
  Kind : Z;
  Chain : string
}.

Record SetElement := mkSetElement {
  Key : option bytes;
  Val : option bytes;
  IntervalEnd : bool;
  VerdictData : option Verdict
}.

Definition SetElement_zero : SetElement := mkSetElement None None false None.

Record NftSet := mkNftSet {
  STable : option Table;
  ID : Z;
  SName : string;
  Anonymous : bool;
  Constant : bool;
  Interval : bool;
  IsMap : bool;
  HasTimeout : bool;
  Timeout : Z;
  KeyType : SetDatatype;
  DataType : SetDatatype
}.

Definition SetDatatype_zero : SetDatatype := mkSetDatatype "" 0 0.

(** [net.IP.To4] and [net.IP.To16]. *)
Definition v4InV6Prefix : bytes := [0; 0; 0; 0; 0; 0; 0; 0; 0; 0; 255; 255].

Definition To4 (ip : bytes) : option bytes :=
  if (length ip =? 4)%nat then Some ip
  else if (length ip =? 16)%nat && bool_decide (take 12 ip = v4InV6Prefix)
       then Some (drop 12 ip)
       else None.

Definition To16 (ip : bytes) : option bytes :=
  if (length ip =? 4)%nat then Some (v4InV6Prefix ++ ip)
  else if (length ip =? 16)%nat then Some ip
  else None.

(** [net.ParseIP("0.0.0.0")] and [net.ParseIP("::")]. *)
Definition ParseIP_v4_zero : bytes := v4InV6Prefix ++ [0; 0; 0; 0].
Definition ParseIP_v6_zero : bytes := repeat 0 16.

(** ** nfsets.go: element values and composite keys *)

(** The part of [RuleAction] that the set code reads. *)
Record RuleAction := mkRuleAction {
  verdict : option Verdict
}.

Record ElementValue := mkElementValue {
  Addr : string;
  Port : option Z;
  AddrIP : option string;
  Action : option RuleAction;
  Integer : option Z;
  IPAddr : option bytes;
  EtherAddr : option bytes;
  InetProto : option Z;
  InetService : option Z;
  Mark : option Z
}.

Definition ElementValue_zero : ElementValue :=
  mkElementValue "" None None None None None None None None None.

(** The switch of [processElementValue]: the raw encoding [b] of one
    component, before alignment. Go compares the datatypes as structs. *)
Definition elementBytes (keyT : SetDatatype) (keyV : ElementValue) : result bytes :=
  if decide (keyT = TypeInteger) then
    match Integer keyV with
    | None => Err "key value cannot be nil"
    | Some v => Ok (PutUint32 v)
    end
  else if decide (keyT = TypeMark) then
    match Mark keyV with
    | None => Err "key value cannot be nil"
    | Some v => Ok (PutUint32 v)
    end
  else if decide (keyT = TypeIPAddr ∨ keyT = TypeIP6Addr) then
    match IPAddr keyV with
    | None => Err "key value cannot be nil"
    | Some a => Ok (copy (make (length a)) a)
    end
  else if decide (keyT = TypeEtherAddr) then
    match EtherAddr keyV with
    | None => Err "key value cannot be nil"
    | Some a => Ok (copy (make (length a)) a)
    end
  else if decide (keyT = TypeInetProto) then
    match InetProto keyV with
    | None => Err "key value cannot be nil"
    | Some p => Ok [p]
    end
  else if decide (keyT = TypeInetService) then
    match InetService keyV with
    | None => Err "key value cannot be nil"
    | Some p => Ok (PutUint16 p)
    end
  else Err ("unsupported type of key element " +:+ fmtDecimal (GetNFTMagic keyT)).

(** The 4-byte alignment both functions write out:
    [if l%4 != 0 { l += 4 - (l % 4) }]. *)
Definition align4 (l : nat) : nat :=
  if (l mod 4 =? 0)%nat then l else (l + (4 - l mod 4))%nat.

Definition processElementValue (keyT : SetDatatype) (keyV : ElementValue) : result bytes :=
  match elementBytes keyT keyV with
  | Err e => Err e
  | Ok b =>
      let l := align4 (length b) in
      let ba := make l in
      Ok (copy ba b)
  end.

(** The loop of [MakeConcatElement] over [keys[i]], [vals[i]], carrying
    [key] and [kl]. It runs only after the two lengths were found equal,
    so [vals[i]] is always in range. *)
Fixpoint concatLoop (keys : list SetDatatype) (vals : list ElementValue)
    (key : bytes) (kl : nat) : result (bytes * nat) :=
  match keys, vals with
  | [], _ => Ok (key, kl)
  | _ :: _, [] => Err "index out of range"
  | k :: keys', v :: vals' =>
      match processElementValue k v with
      | Err e => Err e
      | Ok b => concatLoop keys' vals' (key ++ b) (kl + length b)%nat
      end
  end.

Definition MakeConcatElement (keys : list SetDatatype) (vals : list ElementValue)
    (ra : option RuleAction) : result SetElement :=
  match ra with
  | None => Err "verdict cannot be nil"
  | Some ra =>
      if (length keys =? 0)%nat then Err "number of keys cannot be 0"
      else if negb (length keys =? length vals)%nat
      then Err "number of vals does not match number of keys"
      else
        match concatLoop keys vals [] 0%nat with
        | Err e => Err e
        | Ok (key, kl) =>
            let kl := align4 kl in
            Ok {| Key := Some (copy (make kl) key);
                  Val := None;
                  IntervalEnd := false;
                  VerdictData := verdict ra |}
        end
  end.

(** ** nfsets.go: GenSetKeyType *)

(** The loop of the [default] case over [types[i]], [i] counting up to
    [n = len(types)], carrying [name], [c] and [b]. *)
Fixpoint genLoop (n i : nat) (rest : list SetDatatype)
    (name : string) (c b : Z) : string * Z * Z :=
  match rest with
  | [] => (name, c, b)
  | t :: rest' =>
      let name := name +:+ "_" +:+ Name t in
      let c := Z.lor (uint32 (Z.shiftl c SetConcatTypeBits)) (GetNFTMagic t) in
      let b :=
        if Bytes t <=? 4 then uint32 (b + 4)
        else
          let b := uint32 (b + Bytes t) in
          if negb (Bytes t mod 4 =? 0)
          then uint32 (b + uint32 (4 - Bytes t mod 4))
          else b in
      let name := name +:+ Name t in
      let name := if (i <? n)%nat then name +:+ "_" else name in
      genLoop n (S i) rest' name c b
  end.

Definition GenSetKeyType (types : list SetDatatype) : SetDatatype :=
  match types with
  | [] => TypeInvalid
  | [t] =>
      {| Name := Name t;
         Bytes :=
           if Bytes t <=? 4 then 4
           else if negb (Bytes t mod 4 =? 0)
                then uint32 (Bytes t + uint32 (4 - Bytes t mod 4))
                else Bytes t;
         nftMagic := GetNFTMagic t |}
  | _ =>
      let '(name, c, b) := genLoop (length types) 0 types "concat" 0 0 in
      {| Name := name; Bytes := b; nftMagic := c |}
  end.

(** ** The connection and the effects of the stores *)

(** Every call on the connection is logged in order. *)
Inductive ConnCall : Type :=
| CallAddTable (t : Table)
| CallListTables
| CallAddSet (s : NftSet) (vals : list SetElement)
| CallGetSets (t : Table)
| CallFlush
| CallListChains.

(** What the connection answers, as a function of the calls made so far.
    The connection does not rewrite the descriptors it is handed. *)
Record NetNS := mkNetNS {
  ListTables : list ConnCall → result (list Table);
  AddSet : list ConnCall → NftSet → list SetElement → option error;
  GetSets : list ConnCall → Table → result (list NftSet);
  Flush : list ConnCall → option error
}.

(** A call returns, blocks for ever on a mutex it cannot take, or panics.
    A blocked call leaves behind the state [s] it had reached: what it
    wrote before [Lock] stays written. *)
Inductive outcome (S A : Type) : Type :=
| Done (a : A)
| Blocked (s : S)
| Panicked.
Arguments Done {S A} a.
Arguments Blocked {S A} s.
Arguments Panicked {S A}.

(** State passing over a store [St] and the connection's log. *)
Definition M (St A : Type) : Type :=
  St * list ConnCall → outcome (St * list ConnCall) (A * (St * list ConnCall)).

Definition ret {St A} (a : A) : M St A := fun s => Done (a, s).

Definition bind {St A B} (m : M St A) (k : A → M St B) : M St B :=
  fun s =>
    match m s with
    | Done (a, s') => k a s'
    | Blocked s' => Blocked s'
    | Panicked => Panicked
    end.

Notation "'let!' x ':=' m 'in' k" := (bind m (fun x => k))
  (at level 10, x name, m at level 100, k at level 200).
Notation "'exec' m 'then' k" := (bind m (fun _ => k))
  (at level 10, m at level 100, k at level 200).

Definition getStore {St} : M St St := fun s => Done (s.1, s).

(** A connection call: answer from the log so far, then log the call. *)
Definition connCall {St A} (answer : list ConnCall → A) (c : ConnCall) : M St A :=
  fun s => Done (answer s.2, (s.1, s.2 ++ [c])).

(** ** nfsets.go: the set store *)

Record SetAttributes := mkSetAttributes {
  AName : string;
  AConstant : bool;
  AIsMap : bool;
  AHasTimeout : bool;
  ATimeout : Z;
  AInterval : bool;
  AKeyType : SetDatatype;
  ADataType : SetDatatype
}.

Record nfSets := mknfSets {
  stable : Table;
  smu : bool;
  sets : gmap string NftSet
}.

Definition newSets (t : Table) : nfSets :=
  {| stable := t; smu := false; sets := ∅ |}.

Definition lockSets : M nfSets unit :=
  fun s => if smu s.1 then Blocked s
           else Done (tt, (mknfSets (stable s.1) true (sets s.1), s.2)).

Definition unlockSets : M nfSets unit :=
  fun s => Done (tt, (mknfSets (stable s.1) false (sets s.1), s.2)).

Definition storeSet (name : string) (s : NftSet) : M nfSets unit :=
  fun st => Done (tt, (mknfSets (stable st.1) (smu st.1) (<[name := s]> (sets st.1)), st.2)).

Section SetStore.
Variable conn : NetNS.

(** The local [se] of [CreateSet] once [elements] were appended to it. *)
Definition CreateSet_se (family : TableFamily) (attrs : SetAttributes)
    (elements : list SetElement) : list SetElement :=
  let se := [] in
  let se :=
    if AInterval attrs then
      if decide (AKeyType attrs = TypeIPAddr ∨ AKeyType attrs = TypeIP6Addr) then
        if decide (family = TableFamilyIPv4)
        then se ++ [mkSetElement (To4 ParseIP_v4_zero) None true None]
        else se ++ [mkSetElement (To16 ParseIP_v6_zero) None true None]
      else se
    else se in
  se ++ elements.

(** The descriptor [s] of [CreateSet], its timeout included; [rnd] is the
    draw behind [rand.Intn(0xffff)]. *)
Definition CreateSet_s (t : Table) (attrs : SetAttributes) (rnd : Z) : NftSet :=
  {| STable := Some t;
     ID := uint32 (Intn 65535 rnd);
     SName := AName attrs;
     Anonymous := false;
     Constant := AConstant attrs;
     Interval := AInterval attrs;
     IsMap := AIsMap attrs;
     HasTimeout := AHasTimeout attrs;
     Timeout := if AHasTimeout attrs && negb (ATimeout attrs =? 0)
                then ATimeout attrs else 0;
     KeyType := AKeyType attrs;
     DataType := ADataType attrs |}.

(** [se] is built and then left aside: [AddSet] is handed [elements]. *)
Definition CreateSet (attrs : SetAttributes) (elements : list SetElement)
    (rnd : Z) : M nfSets (result NftSet) :=
  let! nfs := getStore in
  let se := CreateSet_se (Family (stable nfs)) attrs elements in
  let s := CreateSet_s (stable nfs) attrs rnd in
  let! err := connCall (fun l => AddSet conn l s elements) (CallAddSet s elements) in
  match err with
  | Some e => ret (Err e)
  | None =>
      let! err := connCall (Flush conn) CallFlush in
      match err with
      | Some e => ret (Err e)
      | None =>
          exec lockSets then
          exec storeSet (AName attrs) s then
          exec unlockSets then
          ret (Ok s)
      end
  end.

(** The loop of [nfSets.Sync]; it takes the mutex twice in a row. *)
Fixpoint setsSyncLoop (kernel : list NftSet) : M nfSets (option error) :=
  match kernel with
  | [] => ret None
  | set :: rest =>
      let! nfs := getStore in
      match sets nfs !! SName set with
      | Some _ => setsSyncLoop rest
      | None =>
          exec lockSets then
          exec storeSet (SName set) set then
          exec lockSets then
          setsSyncLoop rest
      end
  end.

Definition SetsSync : M nfSets (option error) :=
  let! nfs := getStore in
  let! r := connCall (fun l => GetSets conn l (stable nfs)) (CallGetSets (stable nfs)) in
  match r with
  | Err e => ret (Some e)
  | Ok kernel => setsSyncLoop kernel
  end.
End SetStore.

(** ** nftables.go: the table store *)

Section TableStore.
Variable conn : NetNS.

(** The chain store is not part of these sources: its type, its
    constructor and its [Sync] are taken as they come. *)
Variable nfChains : Type.
Variable newChains : Table → nfChains.
Variable ChainsSync : M nfChains (option error).

Record nfTable := mknfTable {
  table : Table;
  ChainsInterface : option nfChains;
  SetsInterface : option nfSets
}.

Record nfTables := mknfTables {
  mu : bool;
  tables : gmap TableFamily (gmap string nfTable)
}.

Definition lockTables : M nfTables unit :=
  fun s => if mu s.1 then Blocked s
           else Done (tt, (mknfTables true (tables s.1), s.2)).

Definition unlockTables : M nfTables unit :=
  fun s => Done (tt, (mknfTables false (tables s.1), s.2)).

(** [nft.tables[familyType][name]], reading through a missing bucket. *)
Definition lookupTable (tbls : gmap TableFamily (gmap string nfTable))
    (familyType : TableFamily) (name : string) : option nfTable :=
  tbls !! familyType ≫= (fun bucket => bucket !! name).

(** Lines 116-126 of [create]: allocate and register a fresh record. *)
Definition allocTable (name : string) (familyType : TableFamily)
    (tbls : gmap TableFamily (gmap string nfTable))
    : nfTable * gmap TableFamily (gmap string nfTable) :=
  let t := mkTable familyType name in
  let nt := {| table := t;
               ChainsInterface := Some (newChains t);
               SetsInterface := Some (newSets t) |} in
  (nt, <[familyType := <[name := nt]> (default ∅ (tbls !! familyType))]> tbls).

Definition create (name : string) (familyType : TableFamily)
    (tbls : gmap TableFamily (gmap string nfTable))
    : nfTable * gmap TableFamily (gmap string nfTable) :=
  match tbls !! familyType with
  | Some bucket =>
      match bucket !! name with
      | Some t =>
          if bool_decide (ChainsInterface t ≠ None) && bool_decide (SetsInterface t ≠ None)
          then (t, tbls)
          else allocTable name familyType tbls
      | None => allocTable name familyType tbls
      end
  | None => allocTable name familyType (<[familyType := ∅]> tbls)
  end.

Definition createM (name : string) (familyType : TableFamily) : M nfTables nfTable :=
  fun s =>
    let '(nt, tbls) := create name familyType (tables s.1) in
    Done (nt, (mknfTables (mu s.1) tbls, s.2)).

Definition Create (name : string) (familyType : TableFamily) : M nfTables (option error) :=
  exec lockTables then
  let! nt := createM name familyType in
  exec connCall (fun _ => tt) (CallAddTable (table nt)) then
  exec unlockTables then
  ret None.

Definition get (familyType : TableFamily) : M nfTables (result (list string)) :=
  let! r := connCall (ListTables conn) CallListTables in
  match r with
  | Err e => ret (Err e)
  | Ok kernel =>
      ret (Ok (TName <$> filter (fun t => Family t = familyType) kernel))
  end.

Definition Exist (name : string) (familyType : TableFamily) : M nfTables bool :=
  let! nft := getStore in
  match lookupTable (tables nft) familyType name with
  | Some _ => ret true
  | None =>
      let! r := get familyType in
      match r with
      | Err _ => ret false
      | Ok names => ret (existsb (fun table => bool_decide (table = name)) names)
      end
  end.

(** Run a chain-store or set-store call on the record registered under
    [(familyType, name)]: the record is shared with the registry, so what
    the call does to the store shows there. *)
Definition onChains {A} (familyType : TableFamily) (name : string)
    (m : M nfChains A) : M nfTables A :=
  fun s =>
    match lookupTable (tables s.1) familyType name with
    | Some (mknfTable t (Some cs) ss) =>
        match m (cs, s.2) with
        | Done (a, (cs', l')) =>
            Done (a, (mknfTables (mu s.1)
                        (alter (alter (fun _ => mknfTable t (Some cs') ss) name)
                               familyType (tables s.1)), l'))
        | Blocked (cs', l') =>
            Blocked (mknfTables (mu s.1)
                       (alter (alter (fun _ => mknfTable t (Some cs') ss) name)
                              familyType (tables s.1)), l')
        | Panicked => Panicked
        end
    | _ => Panicked
    end.

Definition onSets {A} (familyType : TableFamily) (name : string)
    (m : M nfSets A) : M nfTables A :=
  fun s =>
    match lookupTable (tables s.1) familyType name with
    | Some (mknfTable t cs (Some ss)) =>
        match m (ss, s.2) with
        | Done (a, (ss', l')) =>
            Done (a, (mknfTables (mu s.1)
                        (alter (alter (fun _ => mknfTable t cs (Some ss')) name)
                               familyType (tables s.1)), l'))
        | Blocked (ss', l') =>
            Blocked (mknfTables (mu s.1)
                       (alter (alter (fun _ => mknfTable t cs (Some ss')) name)
                              familyType (tables s.1)), l')
        | Panicked => Panicked
        end
    | _ => Panicked
    end.

(** The loop of [Sync] over the kernel's tables. *)
Fixpoint syncLoop (familyType : TableFamily) (kernel : list Table)
    : M nfTables (option error) :=
  match kernel with
  | [] => ret None
  | t :: rest =>
      if decide (Family t = familyType) then
        let! nft := getStore in
        match lookupTable (tables nft) familyType (TName t) with
        | Some _ => syncLoop familyType rest
        | None =>
            exec createM (TName t) (Family t) then
            let! err := onChains (Family t) (TName t) ChainsSync in
            match err with
            | Some e => ret (Some e)
            | None =>
                let! err := onSets (Family t) (TName t) (SetsSync conn) in
                match err with
                | Some e => ret (Some e)
                | None => syncLoop familyType rest
                end
            end
        end
      else syncLoop familyType rest
  end.

(** On a listing error [Sync] returns with the mutex still held. *)
Definition Sync (familyType : TableFamily) : M nfTables (option error) :=
  exec lockTables then
  let! r := connCall (ListTables conn) CallListTables in
  match r with
  | Err e => ret (Some e)
  | Ok kernel =>
      exec unlockTables then
      syncLoop familyType kernel
  end.
(** [tbls'] holds every record of [tbls] as it was, and beyond those only
    records for tables of [kernel] of family [fam]. *)
Definition grows (fam : TableFamily) (kernel : list Table)
    (tbls tbls' : gmap TableFamily (gmap string nfTable)) : Prop :=
  (∀ f n r, lookupTable tbls f n = Some r → lookupTable tbls' f n = Some r) ∧
  (∀ f n, lookupTable tbls f n = None → is_Some (lookupTable tbls' f n) →
          f = fam ∧ mkTable f n ∈ kernel).
End TableStore.

Arguments mknfTable {nfChains} _ _ _.
Arguments table {nfChains} _.
Arguments ChainsInterface {nfChains} _.
Arguments SetsInterface {nfChains} _.
Arguments mknfTables {nfChains} _ _.
Arguments mu {nfChains} _.
Arguments tables {nfChains} _.
Arguments lookupTable {nfChains} _ _ _.
Arguments create {nfChains} _ _ _ _.
Arguments allocTable {nfChains} _ _ _ _.
Arguments Create {nfChains} _ _ _.
Arguments get _ {nfChains} _.
Arguments Exist _ {nfChains} _ _.
Arguments Sync _ {nfChains} _ _ _.
Arguments syncLoop _ {nfChains} _ _ _.
Arguments grows {nfChains} _ _ _ _.

(** ** The L3 rule compiler *)

Definition andThen {A B} (r : result A) (k : A → result B) : result B :=
  match r with
  | Err e => Err e
  | Ok a => k a
  end.

Notation "'try!' x ':=' r 'in' k" := (andThen r (fun x => k))
  (at level 10, x name, r at level 100, k at level 200).

Module L3.

(** Of [IPAddr] the compiler reads the address bytes only. *)
Record IPAddr := mkIPAddr {
  IP : bytes
}.

(** [List] is tested against [nil]; its entries are taken non-nil. *)
Record IPAddrSpec := mkIPAddrSpec {
  List : option (list IPAddr);
  Range : option IPAddr * option IPAddr
}.

Record L3Rule := mkL3Rule {
  Src : option IPAddrSpec;
  Dst : option IPAddrSpec;
  Version : option Z;
  Protocol : option Z
}.

Record Rule := mkRule {
  L3 : option L3Rule;
  Exclude : bool
}.

Record nfSet := mknfSet {
  set : NftSet;
  elements : list SetElement
}.

(** What one call of [processAddrList] takes from outside: the name
    [getSetName()] hands out and the draw behind [rand.Intn(0xffff)]. *)
Record Fresh := mkFresh {
  setName : string;
  draw : Z
}.

Section Compiler.
(** The expression builders are not part of these sources. *)
Variable expr : Type.
Variable getExprForListIPV2 : TableFamily → NftSet → Z → bool → result (list expr).
Variable getExprForRangeIP :
  TableFamily → Z → option IPAddr * option IPAddr → bool → result (list expr).
Variable getExprForIPVersion : Z → bool → result (list expr).
Variable getExprForProtocol : TableFamily → Z → bool → result (list expr).

(** [for i := 0; i < len(list); i++ { se[i].Key = conv(list[i].IP) }] *)
Definition setKeys (conv : bytes → option bytes) (addrs : list IPAddr)
    (se : list SetElement) : list SetElement :=
  zip_with (fun a e => mkSetElement (conv (IP a)) (Val e) (IntervalEnd e) (VerdictData e))
           addrs se.

Definition processAddrList (l3proto : TableFamily) (offset : Z)
    (addrs : list IPAddr) (excl : bool) (f : Fresh)
    : result (list expr * option nfSet) :=
  let set :=
    {| STable := None;
       ID := uint32 (Intn 65535 (draw f));
       SName := setName f;
       Anonymous := false;
       Constant := true;
       Interval := false;
       IsMap := false;
       HasTimeout := false;
       Timeout := 0;
       KeyType := SetDatatype_zero;
       DataType := SetDatatype_zero |} in
  let se := repeat SetElement_zero (length addrs) in
  let se := if decide (l3proto = TableFamilyIPv4) then setKeys To4 addrs se else se in
  let se := if decide (l3proto = TableFamilyIPv6) then setKeys To16 addrs se else se in
  if (length se =? 0)%nat
  then Err ("unknown nftables.TableFamily " +:+ fmtHexByte l3proto)
  else
    try! re := getExprForListIPV2 l3proto set offset excl in
    Ok (re, Some (mknfSet set se)).

Definition processAddrRange (l3proto : TableFamily) (offset : Z)
    (rng : option IPAddr * option IPAddr) (excl : bool)
    : result (list expr * option nfSet) :=
  try! re := getExprForRangeIP l3proto offset rng excl in
  Ok (re, None).

Definition processVersion (version : Z) (excl : bool)
    : result (list expr * option nfSet) :=
  try! re := getExprForIPVersion version excl in
  Ok (re, None).

Definition processProtocol (l3proto : TableFamily) (proto : Z) (excl : bool)
    : result (list expr * option nfSet) :=
  try! re := getExprForProtocol l3proto proto excl in
  Ok (re, None).

(** [set.set.KeyType = keyType; sets = append(sets, set)] when a set came back. *)
Definition collect (keyType : SetDatatype) (sets : list nfSet) (s : option nfSet)
    : list nfSet :=
  match s with
  | None => sets
  | Some s =>
      sets ++ [mknfSet
                 {| STable := STable (set s); ID := ID (set s); SName := SName (set s);
                    Anonymous := Anonymous (set s); Constant := Constant (set s);
                    Interval := Interval (set s); IsMap := IsMap (set s);
                    HasTimeout := HasTimeout (set s); Timeout := Timeout (set s);
                    KeyType := keyType; DataType := DataType (set s) |}
                 (elements s)]
  end.

Definition processIPAddr (l3proto : TableFamily) (addrs : IPAddrSpec)
    (src exclude : bool) (f : Fresh) : result (list expr * list nfSet) :=
  let addrOffset :=
    if decide (l3proto = TableFamilyIPv4) then (if src then 12 else 16)
    else if decide (l3proto = TableFamilyIPv6) then (if src then 8 else 24)
    else 0 in
  let keyType :=
    if decide (l3proto = TableFamilyIPv4) then TypeIPAddr
    else if decide (l3proto = TableFamilyIPv6) then TypeIP6Addr
    else SetDatatype_zero in
  let sets := [] in
  let re := [] in
  try! st :=
    match List addrs with
    | Some l =>
        try! r := processAddrList l3proto addrOffset l exclude f in
        Ok (re ++ r.1, collect keyType sets r.2)
    | None => Ok (re, sets)
    end in
  let re := st.1 in
  let sets := st.2 in
  match Range addrs with
  | (Some lo, Some hi) =>
      try! r := processAddrRange l3proto addrOffset (Range addrs) exclude in
      Ok (re ++ r.1, collect keyType sets r.2)
  | _ => Ok (re, sets)
  end.

(** [append(sets, set...)] under [if set != nil]. *)
Definition createL3 (l3proto : TableFamily) (rule : Rule) (fsrc fdst : Fresh)
    : outcome Empty_set (result (list expr * list nfSet)) :=
  match L3 rule with
  | None => Panicked
  | Some l3 =>
      Done (
        let re := [] in
        let sets := [] in
        try! re :=
          match Version l3 with
          | Some v =>
              try! r := processVersion v (Exclude rule) in Ok (re ++ r.1)
          | None => Ok re
          end in
        try! re :=
          match Protocol l3 with
          | Some p =>
              try! r := processProtocol l3proto p (Exclude rule) in Ok (re ++ r.1)
          | None => Ok re
          end in
        try! st :=
          match Src l3 with
          | Some addrs =>
              try! r := processIPAddr l3proto addrs true (Exclude rule) fsrc in
              Ok (re ++ r.1, sets ++ r.2)
          | None => Ok (re, sets)
          end in
        try! st :=
          match Dst l3 with
          | Some addrs =>
              try! r := processIPAddr l3proto addrs false (Exclude rule) fdst in
              Ok (st.1 ++ r.1, st.2 ++ r.2)
          | None => Ok st
          end in
        Ok st)
  end.
End Compiler.

Arguments setKeys _ _ _ : clear implicits.
Arguments processAddrList {expr} _ _ _ _ _ _.
Arguments processAddrRange {expr} _ _ _ _ _.
Arguments processIPAddr {expr} _ _ _ _ _ _ _.
Arguments createL3 {expr} _ _ _ _ _ _ _ _.

(** Expression builders that record what they were called with, to run
    the compiler on concrete rules. *)
Inductive Call : Type :=
| ListIP (l3proto : TableFamily) (s : NftSet) (offset : Z) (excl : bool)
| RangeIP (l3proto : TableFamily) (offset : Z)
          (rng : option IPAddr * option IPAddr) (excl : bool)
| IPVersion (version : Z) (excl : bool)
| Proto (l3proto : TableFamily) (proto : Z) (excl : bool).

Definition recListIP l3proto s offset excl : result (list Call) :=
  Ok [ListIP l3proto s offset excl].
Definition recRangeIP l3proto offset rng excl : result (list Call) :=
  Ok [RangeIP l3proto offset rng excl].
Definition recIPVersion version excl : result (list Call) :=
  Ok [IPVersion version excl].
Definition recProto l3proto proto excl : result (list Call) :=
  Ok [Proto l3proto proto excl].

End L3.

(** ** What the specification expects of composite keys *)

(** The width of one component's encoding as the code produces it:
    fixed for integers, marks, protocol numbers and ports, the length of
    the supplied bytes for network and link-layer addresses. *)
Definition encodedLen (keyT : SetDatatype) (keyV : ElementValue) : nat :=
  if decide (keyT = TypeInteger) then 4%nat
  else if decide (keyT = TypeMark) then 4%nat
  else if decide (keyT = TypeIPAddr ∨ keyT = TypeIP6Addr) then len (IPAddr keyV)
  else if decide (keyT = TypeEtherAddr) then len (EtherAddr keyV)
  else if decide (keyT = TypeInetProto) then 1%nat
  else if decide (keyT = TypeInetService) then 2%nat
  else 0%nat.

(** The expected length of a concatenated key, recomputed from the
    component datatypes alone: the width [Bytes] every datatype declares,
    rounded up to the next multiple of 4, then summed. *)
Definition datatypeKeyLen (keys : list SetDatatype) : nat :=
  sum_list ((fun k => align4 (Z.to_nat (Bytes k))) <$> keys).

(** The name the specification gives a composite datatype. *)
Definition concatName (types : list SetDatatype) : string :=
  String.concat "_" ("concat" :: (Name <$> types)).

(** The offset table of the specification: where the source and the
    destination address start in an IPv4 header, and in an IPv6 header
    otherwise. *)
Definition specHeaderOffset (family : TableFamily) (src : bool) : Z :=
  if decide (family = TableFamilyIPv4) then (if src then 12 else 16)
  else (if src then 8 else 24).

(** ** Sample inputs *)

Definition sampleVals : list ElementValue :=
  [ mkElementValue "" None None None None (Some [192; 0; 2; 1]) None None None None;
    mkElementValue "" None None None None None None None (Some 8080) None;
    mkElementValue "" None None None None None (Some [2; 0; 0; 0; 0; 1]) None None None ].

Definition sampleKeys : list SetDatatype := [TypeIPAddr; TypeInetService; TypeEtherAddr].

(** An IPv4 address in the 16-byte form [net.ParseIP] returns, with a
    port, for a key of an IPv4 address and a port. *)
Definition longV4Keys : list SetDatatype := [TypeIPAddr; TypeInetService].

Definition longV4Vals : list ElementValue :=
  [ mkElementValue "" None None None None
      (Some (v4InV6Prefix ++ [192; 0; 2; 1])) None None None None;
    mkElementValue "" None None None None None None None (Some 80) None ].

Definition sampleElement : SetElement :=
  mkSetElement (Some [192; 0; 2; 1; 31; 144; 0; 0; 2; 0; 0; 0; 0; 1; 0; 0]) None false None.

(** What the loop appends to [name] for every datatype: its name twice,
    between two underscores. *)
Definition loopName (types : list SetDatatype) : string :=
  foldr (fun t acc => "_" +:+ Name t +:+ Name t +:+ "_" +:+ acc) "" types.

Definition v4Filter : Table := mkTable TableFamilyIPv4 "filter".

Definition blockedNets : SetAttributes :=
  mkSetAttributes "blocked" false false false 0 true TypeIPAddr SetDatatype_zero.

Definition userRange : list SetElement :=
  [ mkSetElement (Some [10; 0; 0; 0]) None false None;
    mkSetElement (Some [10; 0; 1; 0]) None true None ].

(** A kernel that lists one IPv4 and one IPv6 table and no sets, and a
    connection whose listing fails. The chain store is a unit whose [Sync]
    does nothing. *)
Definition kernelConn : NetNS :=
  {| ListTables := fun _ => Ok [mkTable TableFamilyIPv4 "kernel-only";
                                mkTable TableFamilyIPv6 "six"];
     AddSet := fun _ _ _ => None;
     GetSets := fun _ _ => Ok [];
     Flush := fun _ => None |}.

Definition downConn : NetNS :=
  {| ListTables := fun _ => Err "netlink receive: operation not permitted";
     AddSet := fun _ _ _ => None;
     GetSets := fun _ _ => Ok [];
     Flush := fun _ => None |}.

Definition noChains : Table → unit := fun _ => tt.
Definition noChainsSync : M unit (option error) := ret None.

Definition emptyStore : nfTables unit := mknfTables false ∅.

Definition localOnly : nfTables unit :=
  mknfTables false (create noChains "local-only" TableFamilyIPv4 ∅).2.

(** A kernel set the fresh record does not hold makes the set store's
    [Sync] take its mutex twice: [Sync] on the tables does not return. *)
Definition kernelConnWithSet : NetNS :=
  {| ListTables := fun _ => Ok [mkTable TableFamilyIPv4 "kernel-only"];
     AddSet := fun _ _ _ => None;
     GetSets := fun _ t => Ok [CreateSet_s t blockedNets 7];
     Flush := fun _ => None |}.

(** The descriptor [processAddrList] builds, before and after
    [processIPAddr] writes the key type. *)
Definition listSet (f : L3.Fresh) (keyType : SetDatatype) : NftSet :=
  mkNftSet None (uint32 (Intn 65535 (L3.draw f))) (L3.setName f)
           false true false false false 0 keyType SetDatatype_zero.

Definition callOffset (c : L3.Call) : option Z :=
  match c with
  | L3.ListIP _ _ offset _ => Some offset
  | L3.RangeIP _ offset _ _ => Some offset
  | _ => None
  end.

Definition srcNets : L3.IPAddrSpec :=
  L3.mkIPAddrSpec (Some [L3.mkIPAddr [192; 0; 2; 0]; L3.mkIPAddr [192; 0; 3; 0]]) (None, None).

Definition dstRange : L3.IPAddrSpec :=
  L3.mkIPAddrSpec None (Some (L3.mkIPAddr [1; 1; 1; 0]), Some (L3.mkIPAddr [2; 2; 2; 0])).

Definition fullRule : L3.Rule :=
  L3.mkRule (Some (L3.mkL3Rule (Some srcNets) (Some dstRange) (Some 4) (Some 6))) false.

Definition fresh1 : L3.Fresh := L3.mkFresh "set-1" 123456789.
Definition fresh2 : L3.Fresh := L3.mkFresh "set-2" 65535.

(** ** Reading composite datatypes and keys back *)

(** The width [GenSetKeyType] gives one component: at least 4 bytes, and
    rounded up to the next multiple of 4. *)
Definition roundUp4 (b : Z) : Z :=
  if b <=? 4 then 4
  else if b mod 4 =? 0 then b else b + (4 - b mod 4).

(** The [n] fields of [SetConcatTypeBits] bits of a packed tag, the first
    component first. *)
Fixpoint unpackTag (n : nat) (c : Z) : list Z :=
  match n with
  | O => []
  | S n' => unpackTag n' (Z.shiftr c SetConcatTypeBits) ++ [Z.land c 63]
  end.

(** The widths the loop of [GenSetKeyType] sums, and the step by which it
    packs one more tag. *)
Definition sumWidths (types : list SetDatatype) : Z :=
  foldr (fun t acc => roundUp4 (Bytes t) + acc) 0 types.

Definition packStep (c : Z) (t : SetDatatype) : Z :=
  Z.lor (uint32 (Z.shiftl c SetConcatTypeBits)) (GetNFTMagic t).

(** The value carries the field that the datatype of the component reads. *)
Definition hasKeyValue (keyT : SetDatatype) (keyV : ElementValue) : Prop :=
  (keyT = TypeInteger ∧ Integer keyV ≠ None) ∨
  (keyT = TypeMark ∧ Mark keyV ≠ None) ∨
  ((keyT = TypeIPAddr ∨ keyT = TypeIP6Addr) ∧ IPAddr keyV ≠ None) ∨
  (keyT = TypeEtherAddr ∧ EtherAddr keyV ≠ None) ∨
  (keyT = TypeInetProto ∧ InetProto keyV ≠ None) ∨
  (keyT = TypeInetService ∧ InetService keyV ≠ None).

(** The addresses of the value have the width their datatype declares. *)
Definition declaredWidth (keyT : SetDatatype) (keyV : ElementValue) : Prop :=
  (keyT = TypeIPAddr → len (IPAddr keyV) = 4%nat) ∧
  (keyT = TypeIP6Addr → len (IPAddr keyV) = 16%nat) ∧
  (keyT = TypeEtherAddr → len (EtherAddr keyV) = 6%nat).

(** One component's encoding filled with zero bytes up to a multiple of 4. *)
Definition pad4 (b : bytes) : bytes :=
  b ++ repeat 0 (align4 (length b) - length b).

(** ** nftables.go: access, listing and immediate creation *)

Section TableStoreAccess.
Variable conn : NetNS.
Variable nfChains : Type.
Variable newChains : Table → nfChains.

(** [errors.Is(err, unix.EEXIST)] on a non-nil error. *)
Variable isEEXIST : error → bool.

Definition errTableNotExist (name : string) (familyType : TableFamily) : error :=
  "table " +:+ name +:+ " of type " +:+ pretty familyType +:+ " does not exist".

(** [Table] and [TableChains]: the chain store of a registered table. *)
Definition TableChains (name : string) (familyType : TableFamily)
    : M (nfTables nfChains) (result (option nfChains)) :=
  exec lockTables nfChains then
  let! nft := getStore in
  match lookupTable (tables nft) familyType name with
  | Some t =>
      exec unlockTables nfChains then
      ret (Ok (ChainsInterface t))
  | None =>
      exec unlockTables nfChains then
      ret (Err (errTableNotExist name familyType))
  end.

Definition TableSets (name : string) (familyType : TableFamily)
    : M (nfTables nfChains) (result (option nfSets)) :=
  exec lockTables nfChains then
  let! nft := getStore in
  match lookupTable (tables nft) familyType name with
  | Some t =>
      exec unlockTables nfChains then
      ret (Ok (SetsInterface t))
  | None =>
      exec unlockTables nfChains then
      ret (Err (errTableNotExist name familyType))
  end.

Definition Get (familyType : TableFamily) : M (nfTables nfChains) (result (list string)) :=
  exec lockTables nfChains then
  let! r := get conn familyType in
  exec unlockTables nfChains then
  ret r.

Definition CreateImm (name : string) (familyType : TableFamily)
    : M (nfTables nfChains) (option error) :=
  exec lockTables nfChains then
  let! nt := createM nfChains newChains name familyType in
  exec connCall (fun _ => tt) (CallAddTable (table nt)) then
  let! err := connCall (Flush conn) CallFlush in
  exec unlockTables nfChains then
  match err with
  | Some e => if isEEXIST e then ret None else ret (Some e)
  | None => ret None
  end.

(** No family maps to an empty bucket. *)
Definition noEmptyBucket (tbls : gmap TableFamily (gmap string (nfTable nfChains))) : Prop :=
  ∀ familyType bucket, tbls !! familyType = Some bucket → bucket ≠ ∅.
End TableStoreAccess.

Arguments TableChains {nfChains} _ _.
Arguments TableSets {nfChains} _ _.
Arguments Get _ {nfChains} _.
Arguments CreateImm _ {nfChains} _ _ _ _.
Arguments noEmptyBucket {nfChains} _.

(** A record as [create] allocates it and as a returning [Sync] leaves
    it: the table it stands for, a chain store, and the set store of
    [newSets]. *)
Definition freshRecord {nfChains} (familyType : TableFamily) (name : string)
    (r : nfTable nfChains) : Prop :=
  table r = mkTable familyType name ∧
  ChainsInterface r ≠ None ∧
  SetsInterface r = Some (newSets (mkTable familyType name)).

(** [errors.Is(err, unix.EEXIST)] for the samples: the error is the
    errno's own message. *)
Definition sampleIsEEXIST (e : error) : bool := bool_decide (e = "file exists").

Definition existsConn : NetNS :=
  {| ListTables := fun _ => Ok [];
     AddSet := fun _ _ _ => None;
     GetSets := fun _ _ => Ok [];
     Flush := fun _ => Some "file exists" |}.

(** ** The whole connection: deletion, set lookup and set elements *)

(** The calls of the connection in full: the ones above as they are,
    and the ones deletion and the element operations add. *)
Inductive WCall : Type :=
| Plain (c : ConnCall)
| CallDelTable (t : Table)
| CallDelSet (s : option NftSet)
| CallGetSetByName (t : Table) (name : string)
| CallGetSetElements (s : option NftSet)
| CallSetAddElements (s : option NftSet) (vals : list SetElement)
| CallSetDeleteElements (s : option NftSet) (vals : list SetElement).

(** The answers of the connection over the full log. [DelTable] and
    [DelSet] return nothing. *)
Record WNetNS := mkWNetNS {
  WListTables : list WCall → result (list Table);
  WAddSet : list WCall → NftSet → list SetElement → option error;
  WGetSets : list WCall → Table → result (list NftSet);
  WFlush : list WCall → option error;
  WGetSetByName : list WCall → Table → string → result NftSet;
  WGetSetElements : list WCall → option NftSet → result (list SetElement);
  WSetAddElements : list WCall → option NftSet → list SetElement → option error;
  WSetDeleteElements : list WCall → option NftSet → list SetElement → option error
}.

(** The connection as the code above sees it once the log [h] is behind. *)
Definition narrow (c : WNetNS) (h : list WCall) : NetNS :=
  {| ListTables := fun l => WListTables c (h ++ (Plain <$> l));
     AddSet := fun l => WAddSet c (h ++ (Plain <$> l));
     GetSets := fun l => WGetSets c (h ++ (Plain <$> l));
     Flush := fun l => WFlush c (h ++ (Plain <$> l)) |}.

Definition W (St A : Type) : Type :=
  St * list WCall → outcome (St * list WCall) (A * (St * list WCall)).

Definition wret {St A} (a : A) : W St A := fun s => Done (a, s).

Definition wbind {St A B} (m : W St A) (k : A → W St B) : W St B :=
  fun s =>
    match m s with
    | Done (a, s') => k a s'
    | Blocked s' => Blocked s'
    | Panicked => Panicked
    end.

Notation "'do!' x ':=' m 'in' k" := (wbind m (fun x => k))
  (at level 10, x name, m at level 100, k at level 200).
Notation "'run' m 'then' k" := (wbind m (fun _ => k))
  (at level 10, m at level 100, k at level 200).

Definition wgetStore {St} : W St St := fun s => Done (s.1, s).
Definition wputStore {St} (st : St) : W St unit := fun s => Done (tt, (st, s.2)).

Definition wcall {St A} (answer : list WCall → A) (c : WCall) : W St A :=
  fun s => Done (answer s.2, (s.1, s.2 ++ [c])).

(** A function of the code above, run against the whole connection: it
    starts from the log so far and its calls are appended to it. *)
Definition plain {St A} (c : WNetNS) (m : NetNS → M St A) : W St A :=
  fun s =>
    match m (narrow c s.2) (s.1, []) with
    | Done (a, (st, l)) => Done (a, (st, s.2 ++ (Plain <$> l)))
    | Blocked (st, l) => Blocked (st, s.2 ++ (Plain <$> l))
    | Panicked => Panicked
    end.

(** ** nfsets.go: lookup, deletion and elements *)

Definition errSetNotExist (name : string) : error := "set " +:+ name +:+ " does not exist".

Section SetStoreWide.
Variable conn : WNetNS.

(** [nfSets.GetSets]. *)
Definition SetsGetSets : W nfSets (result (list NftSet)) :=
  do! nfs := wgetStore in
  wcall (fun l => WGetSets conn l (stable nfs)) (Plain (CallGetSets (stable nfs))).

(** [nfSets.Exist]. *)
Definition SetsExist (name : string) : W nfSets bool :=
  run plain conn (fun _ => lockSets) then
  do! nfs := wgetStore in
  let ok := sets nfs !! name in
  run plain conn (fun _ => unlockSets) then
  match ok with
  | None => wret false
  | Some _ =>
      do! r := wcall (fun l => WGetSetByName conn l (stable nfs) name)
                     (CallGetSetByName (stable nfs) name) in
      match r with
      | Err _ => wret false
      | Ok _ => wret true
      end
  end.


Definition dropSet (name : string) : W nfSets unit :=
  fun s => Done (tt, (mknfSets (stable s.1) (smu s.1) (delete name (sets s.1)), s.2)).

Definition DelSet (name : string) : W nfSets (option error) :=
  do! ok := SetsExist name in
  if ok then
    do! nfs := wgetStore in
    run wcall (fun _ => tt) (CallDelSet (sets nfs !! name)) then
    do! err := wcall (WFlush conn) (Plain CallFlush) in
    match err with
    | Some e => wret (Some e)
    | None =>
        run plain conn (fun _ => lockSets) then
        run dropSet name then
        run plain conn (fun _ => unlockSets) then
        wret None
    end
  else wret None.

Definition GetSetElements (name : string) : W nfSets (result (list SetElement)) :=
  do! ok := SetsExist name in
  if ok then
    do! nfs := wgetStore in
    wcall (fun l => WGetSetElements conn l (sets nfs !! name))
          (CallGetSetElements (sets nfs !! name))
  else wret (Err (errSetNotExist name)).

Definition SetAddElements (name : string) (elements : list SetElement)
    : W nfSets (option error) :=
  do! ok := SetsExist name in
  if ok then
    do! nfs := wgetStore in
    do! err := wcall (fun l => WSetAddElements conn l (sets nfs !! name) elements)
                     (CallSetAddElements (sets nfs !! name) elements) in
    match err with
    | Some e => wret (Some e)
    | None =>
        do! err := wcall (WFlush conn) (Plain CallFlush) in
        match err with
        | Some e => wret (Some e)
        | None => wret None
        end
    end
  else wret (Some (errSetNotExist name)).

Definition SetDelElements (name : string) (elements : list SetElement)
    : W nfSets (option error) :=
  do! ok := SetsExist name in
  if ok then
    do! nfs := wgetStore in
    let set := sets nfs !! name in
    do! err := wcall (fun l => WSetDeleteElements conn l set elements)
                     (CallSetDeleteElements set elements) in
    match err with
    | Some e => wret (Some e)
    | None =>
        do! err := wcall (WFlush conn) (Plain CallFlush) in
        match err with
        | Some e => wret (Some e)
        | None => wret None
        end
    end
  else wret (Some (errSetNotExist name)).
End SetStoreWide.

(** ** nftables.go: deletion *)

Section TableStoreWide.
Variable conn : WNetNS.
Variable nfChains : Type.

(** [delete(nft.tables[familyType], name)] on a bucket that is there. *)
Definition dropTable (name : string) (familyType : TableFamily)
    : W (nfTables nfChains) unit :=
  fun s => Done (tt, (mknfTables (mu s.1) (alter (delete name) familyType (tables s.1)), s.2)).

(** [if len(nft.tables[familyType]) == 0 { delete(nft.tables, familyType) }] *)
Definition pruneFamily (familyType : TableFamily) : W (nfTables nfChains) unit :=
  fun s =>
    if bool_decide (size (default ∅ (tables s.1 !! familyType)) = 0%nat)
    then Done (tt, (mknfTables (mu s.1) (delete familyType (tables s.1)), s.2))
    else Done (tt, s).

Definition Delete (name : string) (familyType : TableFamily)
    : W (nfTables nfChains) (option error) :=
  run plain conn (fun _ => lockTables nfChains) then
  do! nft := wgetStore in
  run match lookupTable (tables nft) familyType name with
      | Some _ => dropTable name familyType
      | None => wret tt
      end then
  do! ok := plain conn (fun c => Exist c name familyType) in
  run (if ok then wcall (fun _ => tt) (CallDelTable (mkTable familyType name))
       else wret tt) then
  run pruneFamily familyType then
  run plain conn (fun _ => unlockTables nfChains) then
  wret None.

Definition DeleteImm (name : string) (familyType : TableFamily)
    : W (nfTables nfChains) (option error) :=
  do! err := Delete name familyType in
  match err with
  | Some e => wret (Some e)
  | None => wcall (WFlush conn) (Plain CallFlush)
  end.
End TableStoreWide.

Arguments dropTable {nfChains} _ _.
Arguments pruneFamily {nfChains} _.
Arguments Delete _ {nfChains} _ _.
Arguments DeleteImm _ {nfChains} _ _.

(** The calls an element operation makes before its own: none for a
    name the store does not hold, the kernel lookup otherwise. *)
Definition lookupCalls (nfs : nfSets) (name : string) : list WCall :=
  match sets nfs !! name with
  | None => []
  | Some _ => [CallGetSetByName (stable nfs) name]
  end.

(** The store holds the name and the kernel confirms the set. *)
Definition setKnown (conn : WNetNS) (nfs : nfSets) (log : list WCall) (name : string) : Prop :=
  is_Some (sets nfs !! name) ∧ ∃ s, WGetSetByName conn log (stable nfs) name = Ok s.

(** The registry once [Delete] dropped the record, and once it pruned
    the family; whether the kernel lists the table. *)
Definition dropped {nfChains} (name : string) (familyType : TableFamily)
    (tbls : gmap TableFamily (gmap string (nfTable nfChains)))
    : gmap TableFamily (gmap string (nfTable nfChains)) :=
  match lookupTable tbls familyType name with
  | Some _ => alter (delete name) familyType tbls
  | None => tbls
  end.

Definition pruned {nfChains} (familyType : TableFamily)
    (tbls : gmap TableFamily (gmap string (nfTable nfChains)))
    : gmap TableFamily (gmap string (nfTable nfChains)) :=
  if bool_decide (size (default ∅ (tbls !! familyType)) = 0%nat)
  then delete familyType tbls else tbls.

Definition kernelLists (conn : WNetNS) (log : list WCall) (name : string)
    (familyType : TableFamily) : Prop :=
  ∃ kernel, WListTables conn log = Ok kernel ∧ mkTable familyType name ∈ kernel.

(** The answer of the kernel's listing as [Exist] reads it. *)
Definition listedIn (conn : WNetNS) (log : list WCall) (name : string) (fam : TableFamily) : bool :=
  match WListTables conn log with
  | Err _ => false
  | Ok kernel =>
      existsb (fun table => bool_decide (table = name))
              (TName <$> filter (fun t => Family t = fam) kernel)
  end.

(** A whole connection that lists one IPv4 table, confirms every set it
    is asked for, and accepts everything. *)
Definition wideConn : WNetNS :=
  {| WListTables := fun _ => Ok [mkTable TableFamilyIPv4 "kernel-only"];
     WAddSet := fun _ _ _ => None;
     WGetSets := fun _ _ => Ok [];
     WFlush := fun _ => None;
     WGetSetByName := fun _ t name => Ok (CreateSet_s t blockedNets 7);
     WGetSetElements := fun _ _ => Ok [];
     WSetAddElements := fun _ _ _ => None;
     WSetDeleteElements := fun _ _ _ => None |}.

Definition oneSet : nfSets :=
  mknfSets v4Filter false {[ "blocked" := CreateSet_s v4Filter blockedNets 7 ]}.

(** The set store as [Sync] leaves it when it hangs on the kernel set
    [set]: untouched when the mutex was held already, and otherwise
    holding [set] under its name behind the mutex [Sync] took. *)
Definition hungOn (nfs : nfSets) (set : NftSet) : nfSets :=
  if smu nfs then nfs
  else mknfSets (stable nfs) true (<[SName set := set]> (sets nfs)).

(** ** What the address compiler hands over *)

(** The offset, the key datatype and the element keys by family, as
    [processIPAddr] and [processAddrList] choose them. *)
Definition addrOffsetOf (family : TableFamily) (src : bool) : Z :=
  if decide (family = TableFamilyIPv4) then (if src then 12 else 16)
  else if decide (family = TableFamilyIPv6) then (if src then 8 else 24)
  else 0.

Definition keyTypeOf (family : TableFamily) : SetDatatype :=
  if decide (family = TableFamilyIPv4) then TypeIPAddr
  else if decide (family = TableFamilyIPv6) then TypeIP6Addr
  else SetDatatype_zero.

Definition addrKey (family : TableFamily) (ip : bytes) : option bytes :=
  if decide (family = TableFamilyIPv4) then To4 ip
  else if decide (family = TableFamilyIPv6) then To16 ip
  else None.

Definition listElements (family : TableFamily) (addrs : list L3.IPAddr) : list SetElement :=
  (fun a => mkSetElement (addrKey family (L3.IP a)) None false None) <$> addrs.

Definition mixedNets : L3.IPAddrSpec :=
  L3.mkIPAddrSpec (Some [L3.mkIPAddr [192; 0; 2; 0]; L3.mkIPAddr (repeat 1 16)])
                  (Some (L3.mkIPAddr [1; 1; 1; 0]), Some (L3.mkIPAddr [2; 2; 2; 0])).

(** ** Address predicates compiled at a header offset *)

Section AddressPredicates.
Variable expr : Type.
Variable getExprForListIPV2 : TableFamily → NftSet → Z → bool → result (list expr).
Variable getExprForRangeIP :
  TableFamily → Z → option L3.IPAddr * option L3.IPAddr → bool → result (list expr).

(** [rl] is the match on the list of an address specification, built
    for the header offset [offset]: what the list builder returns for
    that offset when there is a list, which must not be empty, and
    nothing when the rule has no such specification or no list. *)
Definition listCompiledAt (family : TableFamily) (offset : Z) (excl : bool)
    (f : L3.Fresh) (addrs : option L3.IPAddrSpec) (rl : list expr) : Prop :=
  match addrs ≫= L3.List with
  | Some l =>
      l ≠ [] ∧
      getExprForListIPV2 family (listSet f SetDatatype_zero) offset excl = Ok rl
  | None => rl = []
  end.

(** [rr] is the match on the range of an address specification, built
    for the header offset [offset]: what the range builder returns for
    that offset when both ends are given, and nothing otherwise. *)
Definition rangeCompiledAt (family : TableFamily) (offset : Z) (excl : bool)
    (addrs : option L3.IPAddrSpec) (rr : list expr) : Prop :=
  match addrs with
  | Some a =>
      match L3.Range a with
      | (Some _, Some _) => getExprForRangeIP family offset (L3.Range a) excl = Ok rr
      | _ => rr = []
      end
  | None => rr = []
  end.
End AddressPredicates.

Arguments listCompiledAt {expr} _ _ _ _ _ _ _.
Arguments rangeCompiledAt {expr} _ _ _ _ _ _.

(** The sets an address specification brings: one for its list. *)
Definition listSets (family : TableFamily) (f : L3.Fresh)
    (addrs : option L3.IPAddrSpec) : list L3.nfSet :=
  match addrs ≫= L3.List with
  | Some l => [L3.mknfSet (listSet f (keyTypeOf family)) (listElements family l)]
  | None => []
  end.

(** * Properties *)

(** ** Byte slices and alignment *)

Lemma length_make n : length (make n) = n.
Proof. apply repeat_length. Qed.

Lemma length_copy dst src : length (copy dst src) = length dst.
Proof.
  unfold copy. rewrite length_app, length_take, length_drop. lia.
Qed.

Lemma copy_same_length dst src : length dst = length src → copy dst src = src.
Proof.
  intros H. unfold copy. rewrite take_ge, drop_ge by lia. apply app_nil_r.
Qed.

Lemma align4_multiple l : (align4 l mod 4 = 0)%nat.
Proof.
  unfold align4. destruct (Nat.eqb_spec (l mod 4) 0) as [H|H]; [exact H|].
  pose proof (Nat.mod_upper_bound l 4 ltac:(lia)) as Hb.
  pose proof (Nat.div_mod_eq l 4) as Hd.
  replace (l + (4 - l mod 4))%nat with ((l / 4 + 1) * 4)%nat by lia.
  apply Nat.Div0.mod_mul.
Qed.

Lemma align4_fixed l : (l mod 4 = 0)%nat → align4 l = l.
Proof. intros H. unfold align4. by rewrite H. Qed.

Lemma align4_ge l : (l ≤ align4 l < l + 4)%nat.
Proof.
  unfold align4. destruct (Nat.eqb_spec (l mod 4) 0); [lia|].
  pose proof (Nat.mod_upper_bound l 4 ltac:(lia)). lia.
Qed.

Lemma add_multiple4 a b : (a mod 4 = 0 → b mod 4 = 0 → (a + b) mod 4 = 0)%nat.
Proof.
  intros Ha Hb. rewrite Nat.Div0.add_mod, Ha, Hb. reflexivity.
Qed.

(** ** processElementValue *)

Lemma elementBytes_length keyT keyV b :
  elementBytes keyT keyV = Ok b → length b = encodedLen keyT keyV.
Proof.
  unfold elementBytes, encodedLen.
  repeat case_decide;
    repeat match goal with
           | |- context [match ?o with Some _ => _ | None => _ end] => destruct o
           end;
    intros [= <-]; cbn [len]; rewrite ?length_copy, ?length_make; reflexivity.
Qed.

Lemma processElementValue_length keyT keyV ba :
  processElementValue keyT keyV = Ok ba →
  ∃ b, elementBytes keyT keyV = Ok b ∧ length ba = align4 (length b).
Proof.
  unfold processElementValue.
  destruct (elementBytes keyT keyV) as [b|e]; [|discriminate].
  intros [= <-]. exists b. by rewrite length_copy, length_make.
Qed.

(** ** MakeConcatElement *)

(** The loop adds, to [key] and to [kl] alike, the aligned length of every
    component's encoding. *)
Lemma concatLoop_length keys : ∀ vals key kl key' kl',
  concatLoop keys vals key kl = Ok (key', kl') →
  length keys = length vals →
  ∃ bs,
    Forall2 (fun kv b => elementBytes kv.1 kv.2 = Ok b) (zip keys vals) bs ∧
    kl' = (kl + sum_list ((fun b => align4 (length b)) <$> bs))%nat ∧
    length key' = (length key + sum_list ((fun b => align4 (length b)) <$> bs))%nat.
Proof.
  induction keys as [|k keys IH]; intros [|v vals] key kl key' kl' Hrun Hlen;
    simpl in Hlen; try discriminate.
  - injection Hrun as <- <-. exists []. cbn. split; [constructor | lia].
  - cbn [concatLoop] in Hrun.
    destruct (processElementValue k v) as [ba|e] eqn:Hpe; [|discriminate].
    apply processElementValue_length in Hpe as (b & Hb & Hba).
    apply IH in Hrun as (bs & Hall & Hkl & Hkey); [|lia].
    exists (b :: bs). cbn [zip zip_with fmap list_fmap sum_list].
    split; [by constructor|].
    rewrite length_app in Hkey.
    change (list_fmap _ _ ?f bs) with (f <$> bs).
    unfold id. rewrite Hba in Hkl, Hkey.
    split; [rewrite Hkl | rewrite Hkey]; rewrite <- Nat.add_assoc; reflexivity.
Qed.

Lemma sum_align4_multiple (bs : list bytes) :
  (sum_list ((fun b => align4 (length b)) <$> bs) mod 4 = 0)%nat.
Proof.
  induction bs as [|b bs IH]; [reflexivity|].
  cbn [fmap list_fmap sum_list].
  apply add_multiple4; [apply align4_multiple | exact IH].
Qed.

Lemma component_declared keyT keyV b :
  elementBytes keyT keyV = Ok b → declaredWidth keyT keyV →
  align4 (length b) = align4 (Z.to_nat (Bytes keyT)).
Proof.
  intros Hb (H4 & H6 & He).
  rewrite (elementBytes_length _ _ _ Hb).
  revert Hb. unfold elementBytes, encodedLen.
  repeat case_decide; try discriminate; intros _; subst; try reflexivity.
  - match goal with H : _ ∨ _ |- _ => destruct H as [-> | ->] end.
    + by rewrite H4.
    + by rewrite H6.
  - by rewrite He.
Qed.

Lemma datatypeKeyLen_encodings keys : ∀ vals bs,
  Forall2 (fun kv b => elementBytes kv.1 kv.2 = Ok b) (zip keys vals) bs →
  length keys = length vals →
  Forall2 declaredWidth keys vals →
  sum_list ((fun b => align4 (length b)) <$> bs) = datatypeKeyLen keys.
Proof.
  unfold datatypeKeyLen.
  induction keys as [|k keys IH]; intros [|v vals] bs Hall Hlen Hdecl;
    simpl in Hlen; try discriminate.
  - by inversion Hall.
  - cbn [zip zip_with] in Hall. inversion Hall as [|? b ? bs' Hb Hrest]; subst.
    apply Forall2_cons in Hdecl as [Hd Hdecl]. cbn [fst snd] in Hb.
    cbn [fmap list_fmap sum_list].
    rewrite (component_declared _ _ _ Hb Hd).
    f_equal. apply IH with vals; [exact Hrest | lia | exact Hdecl].
Qed.

(** C3, as amended. Whenever [MakeConcatElement] succeeds, its key is as
    long as the sum of the components' encoded lengths, each rounded up
    to the next multiple of 4, and that total is a multiple of 4. The
    encoding of an address is as long as the bytes supplied, whatever
    width its datatype declares: the length recomputed from the
    component datatypes ([datatypeKeyLen]) is the length of the key when
    every address among the values has the width its datatype declares
    (4 bytes for IPv4, 16 for IPv6, 6 for a link-layer address). *)
Theorem MakeConcatElement_key_length keys vals ra el :
  MakeConcatElement keys vals ra = Ok el →
  (∃ bs,
     Forall2 (fun kv b => elementBytes kv.1 kv.2 = Ok b) (zip keys vals) bs ∧
     len (Key el) = sum_list ((fun b => align4 (length b)) <$> bs)) ∧
  (len (Key el) mod 4 = 0)%nat ∧
  (Forall2 declaredWidth keys vals → len (Key el) = datatypeKeyLen keys).
Proof.
  unfold MakeConcatElement.
  destruct ra as [ra|]; [|discriminate].
  destruct (Nat.eqb_spec (length keys) 0); [discriminate|].
  destruct (Nat.eqb_spec (length keys) (length vals)) as [Hlen|]; [|discriminate].
  cbn [negb].
  destruct (concatLoop keys vals [] 0%nat) as [[key kl]|e] eqn:Hloop; [|discriminate].
  intros [= <-]. cbn [Key len].
  apply concatLoop_length in Hloop as (bs & Hall & Hkl & _); [|exact Hlen].
  rewrite length_copy, length_make.
  cbn [Nat.add] in Hkl. subst kl.
  rewrite align4_fixed by apply sum_align4_multiple.
  repeat split.
  - by exists bs.
  - apply sum_align4_multiple.
  - intros Hdecl. by apply datatypeKeyLen_encodings with vals.
Qed.

Lemma MakeConcatElement_key_length_witness :
  MakeConcatElement sampleKeys sampleVals (Some (mkRuleAction None)) = Ok sampleElement ∧
  (len (Key sampleElement) mod 4 = 0)%nat ∧
  len (Key sampleElement) = datatypeKeyLen sampleKeys.
Proof.
  split; [reflexivity|].
  destruct (MakeConcatElement_key_length sampleKeys sampleVals (Some (mkRuleAction None))
              sampleElement eq_refl) as (_ & Hmult & Hdecl).
  split; [exact Hmult|].
  apply Hdecl. repeat constructor; intros [=].
Defined.

(** The claim as written fails: an IPv4 address in its 16-byte form under
    [TypeIPAddr], with a port, gives a key of 16 + 4 = 20 bytes, while the
    datatypes alone give 4 + 4 = 8. *)
Lemma MakeConcatElement_key_length_counterexample :
  ∃ el,
    MakeConcatElement longV4Keys longV4Vals (Some (mkRuleAction None)) = Ok el ∧
    len (Key el) = 20%nat ∧
    datatypeKeyLen longV4Keys = 8%nat ∧
    len (Key el) ≠ datatypeKeyLen longV4Keys.
Proof.
  eexists. split; [reflexivity|]. cbn. repeat split. discriminate.
Qed.

(** The composite datatype [GenSetKeyType] derives for the same
    datatypes is 8 bytes wide as well. *)
Example MakeConcatElement_long_v4 :
  len <$> (Key <$> match MakeConcatElement longV4Keys longV4Vals (Some (mkRuleAction None))
                   with Ok el => Some el | Err _ => None end) = Some 20%nat
  ∧ Bytes (GenSetKeyType longV4Keys) = 8.
Proof. split; reflexivity. Qed.

(** C4. A nil action, an empty key list, or key and value lists of
    different lengths: [MakeConcatElement] returns one of its three
    validation errors and no element. *)
Theorem MakeConcatElement_validation keys vals ra :
  ra = None ∨ keys = [] ∨ length keys ≠ length vals →
  ∃ e, MakeConcatElement keys vals ra = Err e ∧
       e ∈ [ "verdict cannot be nil"; "number of keys cannot be 0";
             "number of vals does not match number of keys" ].
Proof.
  intros H. unfold MakeConcatElement.
  destruct ra as [ra|]; [|eexists; split; [reflexivity | repeat constructor]].
  destruct (Nat.eqb_spec (length keys) 0) as [H0|H0];
    [eexists; split; [reflexivity | repeat constructor]|].
  destruct (Nat.eqb_spec (length keys) (length vals)) as [Heq|Hne]; cbn [negb].
  - destruct H as [H | [H | H]]; [discriminate | by subst | done].
  - eexists; split; [reflexivity | repeat constructor].
Qed.

Lemma MakeConcatElement_validation_witness :
  ∃ e, MakeConcatElement [TypeIPAddr; TypeInetService]
         [mkElementValue "" None None None None (Some [192; 0; 2; 1]) None None None None]
         (Some (mkRuleAction None)) = Err e ∧
       e ∈ [ "verdict cannot be nil"; "number of keys cannot be 0";
             "number of vals does not match number of keys" ].
Proof.
  apply MakeConcatElement_validation. right. right. cbn. lia.
Defined.

(** ** GenSetKeyType *)

Lemma string_app_assoc (s1 s2 s3 : string) : (s1 +:+ s2) +:+ s3 = s1 +:+ s2 +:+ s3.
Proof.
  induction s1 as [|a s1 IH]; [reflexivity|].
  change (String a ((s1 +:+ s2) +:+ s3) = String a (s1 +:+ s2 +:+ s3)).
  by rewrite IH.
Qed.

Lemma string_length_app (s1 s2 : string) :
  String.length (s1 +:+ s2) = (String.length s1 + String.length s2)%nat.
Proof.
  induction s1 as [|a s1 IH]; [reflexivity|].
  change (S (String.length (s1 +:+ s2)) = S (String.length s1 + String.length s2)).
  by rewrite IH.
Qed.

Lemma string_app_empty_r (s : string) : s +:+ "" = s.
Proof.
  induction s as [|a s IH]; [reflexivity|].
  change (String a (s +:+ "") = String a s). by rewrite IH.
Qed.

Lemma genLoop_name n rest : ∀ i name c b,
  (i + length rest ≤ n)%nat →
  (genLoop n i rest name c b).1.1 = name +:+ loopName rest.
Proof.
  induction rest as [|t rest IH]; intros i name c b Hi.
  - cbn. by rewrite string_app_empty_r.
  - cbn [genLoop length] in *.
    destruct (Nat.ltb_spec i n) as [_|Hge]; [|lia].
    rewrite IH by lia. cbn [loopName foldr].
    by rewrite !string_app_assoc.
Qed.

Lemma GenSetKeyType_name types :
  (2 ≤ length types)%nat →
  Name (GenSetKeyType types) = "concat" +:+ loopName types.
Proof.
  intros Hlen. destruct types as [|t1 [|t2 types]]; cbn in Hlen; try lia.
  unfold GenSetKeyType.
  pose proof (genLoop_name (length (t1 :: t2 :: types)) (t1 :: t2 :: types)
                0%nat "concat" 0 0 ltac:(cbn; lia)) as H.
  destruct (genLoop _ _ _ _ _ _) as [[name c] b]. exact H.
Qed.

Lemma loopName_length types :
  String.length (loopName types) =
  sum_list ((fun t => 2 + 2 * String.length (Name t))%nat <$> types).
Proof.
  induction types as [|t types IH]; [reflexivity|].
  cbn [loopName foldr fmap list_fmap sum_list].
  rewrite !string_length_app. fold (loopName types). rewrite IH. cbn. lia.
Qed.

Lemma concat_underscore_length (x : string) (xs : list string) :
  String.length (String.concat "_" (x :: xs)) =
  (String.length x + sum_list ((fun s => 1 + String.length s)%nat <$> xs))%nat.
Proof.
  revert x. induction xs as [|y xs IH]; intros x.
  - cbn. lia.
  - change (String.concat "_" (x :: y :: xs))
      with (x +:+ "_" +:+ String.concat "_" (y :: xs)).
    rewrite !string_length_app, IH. cbn. lia.
Qed.

Lemma name_lengths_gap (ts : list SetDatatype) :
  (sum_list ((fun s => 1 + String.length s)%nat <$> (Name <$> ts)) + length ts
   ≤ sum_list ((fun t => 2 + 2 * String.length (Name t))%nat <$> ts))%nat.
Proof.
  induction ts as [|t ts IH]; simpl in *; [lia|]. unfold fmap in IH. lia.
Qed.

(** For two or more datatypes the synthesized name is never the one the
    specification describes: it is longer by at least one character for
    every component. *)
Lemma GenSetKeyType_name_differs types :
  (2 ≤ length types)%nat →
  Name (GenSetKeyType types) ≠ concatName types.
Proof.
  intros Hlen Heq. apply (f_equal String.length) in Heq.
  rewrite GenSetKeyType_name in Heq by done.
  unfold concatName in Heq.
  rewrite string_length_app, loopName_length, concat_underscore_length in Heq.
  pose proof (name_lengths_gap types) as Hgap.
  apply Nat.add_cancel_l in Heq. lia.
Qed.

(** C2. On the key of an address-and-port map, [GenSetKeyType] names the
    composite datatype with every component name doubled and the
    underscores doubled and trailing, not
    ["concat_ipv4_addr_inet_service"]. *)
Theorem GenSetKeyType_name_two :
  concatName [TypeIPAddr; TypeInetService] = "concat_ipv4_addr_inet_service" ∧
  Name (GenSetKeyType [TypeIPAddr; TypeInetService])
  = "concat_ipv4_addripv4_addr__inet_serviceinet_service_" ∧
  Name (GenSetKeyType [TypeIPAddr; TypeInetService])
  ≠ concatName [TypeIPAddr; TypeInetService].
Proof. repeat split. discriminate. Qed.

Example GenSetKeyType_name_three :
  Name (GenSetKeyType [TypeIPAddr; TypeInetProto; TypeInetService])
  = "concat_ipv4_addripv4_addr__inet_protoinet_proto__inet_serviceinet_service_".
Proof. reflexivity. Qed.

(** The other outputs of [GenSetKeyType] on the same key: packed tag and
    summed width. *)
Example GenSetKeyType_tag_width :
  nftMagic (GenSetKeyType [TypeIPAddr; TypeInetService]) = Z.lor (Z.shiftl 7 6) 13 ∧
  Bytes (GenSetKeyType [TypeIPAddr; TypeInetService]) = 8 ∧
  GenSetKeyType [] = TypeInvalid ∧
  Bytes (GenSetKeyType [TypeInetProto]) = 4 ∧
  Bytes (GenSetKeyType [TypeEtherAddr]) = 8.
Proof. repeat split. Qed.

(** ** CreateSet *)

Lemma Intn_range n v : 0 < n → 0 ≤ Intn n v < n.
Proof. intros Hn. unfold Intn. apply Z.mod_pos_bound. exact Hn. Qed.

Lemma CreateSet_s_ID t attrs rnd : 0 ≤ ID (CreateSet_s t attrs rnd) ≤ 65534.
Proof.
  cbn [CreateSet_s ID]. unfold uint32.
  pose proof (Intn_range 65535 rnd ltac:(lia)) as H.
  rewrite Z.mod_small; lia.
Qed.

(** Every path through [CreateSet]. *)
Lemma CreateSet_run conn attrs elements rnd nfs log :
  CreateSet conn attrs elements rnd (nfs, log) =
  let s := CreateSet_s (stable nfs) attrs rnd in
  match AddSet conn log s elements with
  | Some e => Done (Err e, (nfs, log ++ [CallAddSet s elements]))
  | None =>
      match Flush conn (log ++ [CallAddSet s elements]) with
      | Some e => Done (Err e, (nfs, (log ++ [CallAddSet s elements]) ++ [CallFlush]))
      | None =>
          if smu nfs then Blocked (nfs, (log ++ [CallAddSet s elements]) ++ [CallFlush])
          else Done (Ok s, (mknfSets (stable nfs) false (<[AName attrs := s]> (sets nfs)),
                            (log ++ [CallAddSet s elements]) ++ [CallFlush]))
      end
  end.
Proof.
  unfold CreateSet, bind, getStore, connCall, ret; cbn.
  destruct (AddSet conn log _ elements); [reflexivity|].
  destruct (Flush conn _); [reflexivity|].
  unfold lockSets; cbn. destruct (smu nfs); reflexivity.
Qed.

(** The calls [CreateSet] adds to the log start with [AddSet] on the
    caller's own [elements]. *)
Lemma CreateSet_AddSet_elements conn attrs elements rnd nfs log r nfs' log' :
  CreateSet conn attrs elements rnd (nfs, log) = Done (r, (nfs', log')) →
  ∃ rest, log' = log ++ CallAddSet (CreateSet_s (stable nfs) attrs rnd) elements :: rest.
Proof.
  rewrite CreateSet_run. cbn zeta.
  destruct (AddSet conn log _ elements).
  { intros [= <- <- <-]. by exists []. }
  destruct (Flush conn _).
  { intros [= <- <- <-]. exists [CallFlush]. by rewrite <- app_assoc. }
  destruct (smu nfs); [discriminate|].
  intros [= <- <- <-]. exists [CallFlush]. by rewrite <- app_assoc.
Qed.

(** C1. An interval set of IPv4 addresses on an IPv4 table: the local
    [se] holds the 0.0.0.0 interval-end sentinel followed by the caller's
    elements, yet the one [AddSet] call of [CreateSet] carries the caller's
    elements alone, whatever the connection answers. *)
Theorem CreateSet_interval_AddSet (conn : NetNS) (rnd : Z) :
  CreateSet_se TableFamilyIPv4 blockedNets userRange
  = mkSetElement (Some [0; 0; 0; 0]) None true None :: userRange ∧
  ∃ r nfs' rest,
    CreateSet conn blockedNets userRange rnd (newSets v4Filter, [])
    = Done (r, (nfs', CallAddSet (CreateSet_s v4Filter blockedNets rnd) userRange :: rest)) ∧
    Forall (fun c => c = CallFlush) rest.
Proof.
  split; [reflexivity|].
  rewrite CreateSet_run. cbn zeta. cbn [newSets stable smu sets app].
  destruct (AddSet conn [] _ userRange).
  { do 3 eexists. split; [reflexivity | constructor]. }
  destruct (Flush conn _);
    do 3 eexists; (split; [reflexivity | by repeat constructor]).
Qed.

(** ** The table store *)

Section TableStoreFacts.
Variable conn : NetNS.
Variable nfChains : Type.
Variable newChains : Table → nfChains.
Variable ChainsSync : M nfChains (option error).

Implicit Types tbls : gmap TableFamily (gmap string (nfTable nfChains)).
Implicit Types nft : nfTables nfChains.

Lemma lookupTable_allocTable tbls name fam f n :
  lookupTable (allocTable newChains name fam tbls).2 f n =
  if decide (f = fam ∧ n = name)
  then Some (allocTable newChains name fam tbls).1
  else lookupTable tbls f n.
Proof.
  unfold allocTable, lookupTable; cbn [fst snd].
  destruct (decide (f = fam)) as [->|Hf].
  - rewrite lookup_insert_eq. cbn [mbind option_bind].
    destruct (decide (n = name)) as [->|Hn].
    + rewrite lookup_insert_eq. by rewrite decide_True.
    + rewrite lookup_insert_ne by done. rewrite decide_False by tauto.
      destruct (tbls !! fam); [reflexivity | apply lookup_empty].
  - rewrite lookup_insert_ne by done. by rewrite decide_False by tauto.
Qed.

(** After [create] the registry maps [(familyType, name)] to the record
    [create] returns, and every other pair to what it held before. *)
Lemma lookupTable_create tbls name fam f n :
  lookupTable (create newChains name fam tbls).2 f n =
  if decide (f = fam ∧ n = name)
  then Some (create newChains name fam tbls).1
  else lookupTable tbls f n.
Proof.
  unfold create.
  destruct (tbls !! fam) as [bucket|] eqn:Hb.
  - destruct (bucket !! name) as [t|] eqn:Ht.
    + destruct (_ && _); [|apply lookupTable_allocTable].
      cbn [fst snd]. case_decide as Hk; [|reflexivity].
      destruct Hk as [-> ->]. unfold lookupTable. by rewrite Hb.
    + apply lookupTable_allocTable.
  - rewrite lookupTable_allocTable.
    replace (allocTable newChains name fam (<[fam:=∅]> tbls)).1
      with (allocTable newChains name fam tbls).1 by reflexivity.
    case_decide; [reflexivity|].
    unfold lookupTable.
    destruct (decide (f = fam)) as [->|Hf].
    + rewrite lookup_insert_eq, Hb. cbn. apply lookup_empty.
    + by rewrite lookup_insert_ne.
Qed.

Lemma create_initialised tbls name fam :
  ChainsInterface (create newChains name fam tbls).1 ≠ None ∧
  SetsInterface (create newChains name fam tbls).1 ≠ None.
Proof.
  unfold create.
  destruct (tbls !! fam) as [bucket|]; [|done].
  destruct (bucket !! name) as [t|]; [|done].
  destruct (bool_decide (ChainsInterface t ≠ None)) eqn:Hc; [|done].
  destruct (bool_decide (SetsInterface t ≠ None)) eqn:Hs; [|done].
  cbn. split; by eapply bool_decide_eq_true_1.
Qed.

(** A record with both stores in place is returned as it is. *)
Lemma create_existing tbls name fam r :
  lookupTable tbls fam name = Some r →
  ChainsInterface r ≠ None → SetsInterface r ≠ None →
  create newChains name fam tbls = (r, tbls).
Proof.
  unfold lookupTable, create. intros Hl Hc Hs.
  destruct (tbls !! fam) as [bucket|]; [|discriminate].
  cbn in Hl. rewrite Hl.
  by rewrite !bool_decide_eq_true_2.
Qed.

Lemma create_again tbls name fam :
  create newChains name fam (create newChains name fam tbls).2
  = create newChains name fam tbls.
Proof.
  pose proof (create_initialised tbls name fam) as [Hc Hs].
  rewrite (create_existing _ name fam (create newChains name fam tbls).1).
  - by destruct (create newChains name fam tbls).
  - rewrite lookupTable_create. by rewrite decide_True.
  - exact Hc.
  - exact Hs.
Qed.

Lemma Create_run name fam nft log :
  mu nft = false →
  Create newChains name fam (nft, log) =
  Done (None, (mknfTables false (create newChains name fam (tables nft)).2,
               log ++ [CallAddTable (table (create newChains name fam (tables nft)).1)])).
Proof.
  intros Hmu. unfold Create, bind, lockTables, createM, connCall, unlockTables, ret.
  cbn [fst snd]. rewrite Hmu. cbn [fst snd tables mu].
  by destruct (create newChains name fam (tables nft)).
Qed.

(** The one entry a bucket holds under a name. *)
Lemma bucket_entries (bucket : gmap string (nfTable nfChains)) name r :
  bucket !! name = Some r →
  filter (fun kv => kv.1 = name) (map_to_list bucket) = [(name, r)].
Proof.
  intros Hl.
  assert (filter (fun kv => kv.1 = name) (map_to_list bucket) ≡ₚ [(name, r)]) as Hp.
  { rewrite <- (insert_delete_id bucket name r Hl) at 1.
    rewrite map_to_list_insert by apply lookup_delete_eq.
    rewrite filter_cons_True by done.
    apply Permutation_cons; [done|].
    assert (filter (fun kv : string * nfTable nfChains => kv.1 = name)
              (map_to_list (delete name bucket)) = []) as ->; [|done].
    apply elem_of_nil_inv. intros [k v] [Hk Hin]%list_elem_of_filter.
    cbn in Hk. subst k. apply elem_of_map_to_list in Hin.
    by rewrite lookup_delete_eq in Hin. }
  by apply Permutation_singleton_r in Hp.
Qed.

(** Without a record that has both stores in place, [create] allocates:
    the record it returns stands for the table and holds the stores that
    [newChains] and [newSets] build. *)
Lemma create_fresh tbls name fam :
  (∀ r0, lookupTable tbls fam name = Some r0 →
         ChainsInterface r0 = None ∨ SetsInterface r0 = None) →
  (create newChains name fam tbls).1
  = mknfTable (mkTable fam name) (Some (newChains (mkTable fam name)))
              (Some (newSets (mkTable fam name))).
Proof.
  unfold lookupTable, create. intros Hno.
  destruct (tbls !! fam) as [bucket|]; [|reflexivity].
  cbn in Hno. destruct (bucket !! name) as [r0|]; [|reflexivity].
  destruct (Hno r0 eq_refl) as [Hc | Hs].
  - by rewrite (bool_decide_eq_false_2 (ChainsInterface r0 ≠ None)) by (by intros []).
  - rewrite (bool_decide_eq_false_2 (SetsInterface r0 ≠ None)) by (by intros []).
    by rewrite andb_false_r.
Qed.

(** C7. From a store whose mutex is free, [Create] leaves a record [r]
    registered under [(familyType, name)] and enqueues one add-table for
    its table. [r] is the record that was registered there already, with
    the registry untouched, when that record has both its stores; and
    when there is no such record it is a freshly allocated one that
    stands for the table and holds a new chain store and a new set store.
    Either way [r] has both stores, so a second [Create] finds [r]:
    [create] returns it and the registry as they are, the registry stays
    as the first call left it, where the family's bucket holds one entry
    under [name] and every other record is the one of the start, and a
    second add-table is enqueued. *)
Theorem Create_twice name fam nft log :
  mu nft = false →
  ∃ r tbls1 bucket,
    Create newChains name fam (nft, log)
    = Done (None, (mknfTables false tbls1, log ++ [CallAddTable (table r)])) ∧
    (∀ r0, lookupTable (tables nft) fam name = Some r0 →
           ChainsInterface r0 ≠ None → SetsInterface r0 ≠ None →
           r = r0 ∧ tbls1 = tables nft) ∧
    ((∀ r0, lookupTable (tables nft) fam name = Some r0 →
            ChainsInterface r0 = None ∨ SetsInterface r0 = None) →
     r = mknfTable (mkTable fam name) (Some (newChains (mkTable fam name)))
                   (Some (newSets (mkTable fam name)))) ∧
    ((∀ r0, lookupTable (tables nft) fam name = Some r0 → table r0 = mkTable fam name) →
     table r = mkTable fam name) ∧
    ChainsInterface r ≠ None ∧ SetsInterface r ≠ None ∧
    lookupTable tbls1 fam name = Some r ∧
    (∀ f n, ¬ (f = fam ∧ n = name) →
            lookupTable tbls1 f n = lookupTable (tables nft) f n) ∧
    create newChains name fam tbls1 = (r, tbls1) ∧
    Create newChains name fam (mknfTables false tbls1, log ++ [CallAddTable (table r)])
    = Done (None, (mknfTables false tbls1,
                   (log ++ [CallAddTable (table r)]) ++ [CallAddTable (table r)])) ∧
    tbls1 !! fam = Some bucket ∧
    filter (fun kv => kv.1 = name) (map_to_list bucket) = [(name, r)].
Proof.
  intros Hmu.
  pose proof (create_again (tables nft) name fam) as Hagain.
  pose proof (create_initialised (tables nft) name fam) as [Hc Hs].
  pose proof (create_fresh (tables nft) name fam) as Hfresh.
  pose proof (lookupTable_create (tables nft) name fam) as Hlook.
  pose proof (create_existing (tables nft) name fam) as Hex.
  destruct (create newChains name fam (tables nft)) as [r tbls1] eqn:Hcr.
  cbn [fst snd] in *.
  pose proof (Hlook fam name) as Hl. rewrite decide_True in Hl by done.
  assert (lookupTable tbls1 fam name = Some r) as Hl' by exact Hl.
  unfold lookupTable in Hl.
  destruct (tbls1 !! fam) as [bucket|] eqn:Hb; [|discriminate]. cbn in Hl.
  exists r, tbls1, bucket.
  rewrite !Create_run by done. cbn [tables]. rewrite Hcr, Hagain. cbn [fst snd].
  split; [done|].
  split. { intros r0 Hr0 Hc0 Hs0. specialize (Hex r0 Hr0 Hc0 Hs0). by simplify_eq. }
  split; [exact Hfresh|].
  split.
  { intros Htable.
    destruct (lookupTable (tables nft) fam name) as [r0|] eqn:Hr0.
    - destruct (decide (ChainsInterface r0 ≠ None ∧ SetsInterface r0 ≠ None)) as [[Hc0 Hs0]|Hno].
      + specialize (Hex r0 eq_refl Hc0 Hs0). simplify_eq. by apply Htable.
      + rewrite Hfresh; [reflexivity|]. intros r1 [= <-].
        destruct (ChainsInterface r0), (SetsInterface r0); naive_solver.
    - rewrite Hfresh; [reflexivity|]. by intros r1 [=]. }
  split; [exact Hc|]. split; [exact Hs|]. split; [exact Hl'|].
  split. { intros f n Hk. rewrite Hlook. by rewrite decide_False. }
  repeat split; try done. by apply bucket_entries.
Qed.

(** C10. When the store holds no record for [(name, familyType)] and the
    kernel's table listing fails, [Exist] answers [false]: the error is
    not passed on. *)
Theorem Exist_listing_fails name fam nft log e :
  lookupTable (tables nft) fam name = None →
  ListTables conn log = Err e →
  Exist conn name fam (nft, log) = Done (false, (nft, log ++ [CallListTables])).
Proof.
  intros Hl He. unfold Exist, bind, getStore, get, connCall, ret. cbn.
  rewrite Hl. cbn. rewrite He. by destruct nft.
Qed.

(** *** Sync *)

Lemma bind_Done {St A B} (m : M St A) (k : A → M St B) s b s'' :
  bind m k s = Done (b, s'') →
  ∃ a s', m s = Done (a, s') ∧ k a s' = Done (b, s'').
Proof.
  unfold bind. destruct (m s) as [[a s']| |]; [|discriminate..].
  intros H. by exists a, s'.
Qed.

Lemma lookupTable_alter tbls (g : nfTable nfChains → nfTable nfChains) f0 n0 f n :
  ¬ (f = f0 ∧ n = n0) →
  lookupTable (alter (alter g n0) f0 tbls) f n = lookupTable tbls f n.
Proof.
  intros Hk. unfold lookupTable.
  destruct (decide (f = f0)) as [->|Hf].
  - rewrite lookup_alter_eq. destruct (tbls !! f0) as [bucket|]; [|reflexivity].
    cbn. apply lookup_alter_ne. intros ->. tauto.
  - by rewrite lookup_alter_ne.
Qed.

(** A call on one record's chain store or set store leaves the records
    under every other pair as they were. *)
Lemma onChains_frame {A} f0 n0 (m : M nfChains A) nft log a nft' log' :
  onChains nfChains f0 n0 m (nft, log) = Done (a, (nft', log')) →
  ∀ f n, ¬ (f = f0 ∧ n = n0) →
    lookupTable (tables nft') f n = lookupTable (tables nft) f n.
Proof.
  unfold onChains. cbn [fst snd].
  destruct (lookupTable (tables nft) f0 n0) as [[t [cs|] ss]|]; [|discriminate..].
  destruct (m (cs, log)) as [[a' [cs' l']]|[? ?]|]; [|discriminate..].
  intros [= <- <- <-] f n Hk. cbn [tables]. by apply lookupTable_alter.
Qed.

Lemma onSets_frame {A} f0 n0 (m : M nfSets A) nft log a nft' log' :
  onSets nfChains f0 n0 m (nft, log) = Done (a, (nft', log')) →
  ∀ f n, ¬ (f = f0 ∧ n = n0) →
    lookupTable (tables nft') f n = lookupTable (tables nft) f n.
Proof.
  unfold onSets. cbn [fst snd].
  destruct (lookupTable (tables nft) f0 n0) as [[t cs [ss|]]|]; [|discriminate..].
  destruct (m (ss, log)) as [[a' [ss' l']]|[? ?]|]; [|discriminate..].
  intros [= <- <- <-] f n Hk. cbn [tables]. by apply lookupTable_alter.
Qed.

Lemma grows_refl fam kernel tbls : grows fam kernel tbls tbls.
Proof.
  split; [done|]. intros f n Hn [r Hr]. congruence.
Qed.

Lemma grows_skip fam t kernel tbls tbls' :
  grows fam kernel tbls tbls' → grows fam (t :: kernel) tbls tbls'.
Proof.
  intros [Hold Hnew]. split; [done|].
  intros f n Hn Hs. destruct (Hnew f n Hn Hs) as [-> Hin].
  split; [done|]. by apply list_elem_of_further.
Qed.

(** One fresh record for the kernel table [t], then more growth. *)
Lemma grows_step fam t kernel tbls tbls1 tbls' :
  Family t = fam →
  lookupTable tbls (Family t) (TName t) = None →
  (∀ f n, ¬ (f = Family t ∧ n = TName t) → lookupTable tbls1 f n = lookupTable tbls f n) →
  grows fam kernel tbls1 tbls' →
  grows fam (t :: kernel) tbls tbls'.
Proof.
  intros Hfam Habsent Hframe [Hold Hnew]. split.
  - intros f n r Hr. apply Hold. rewrite Hframe; [done|].
    intros [-> ->]. congruence.
  - intros f n Hn Hs.
    destruct (decide (f = Family t ∧ n = TName t)) as [[-> ->]|Hk].
    + split; [done|]. destruct t. apply list_elem_of_here.
    + destruct (Hnew f n) as [-> Hin]; [by rewrite Hframe | done |].
      split; [done|]. by apply list_elem_of_further.
Qed.

Lemma syncLoop_grows fam kernel : ∀ nft log r nft' log',
  syncLoop conn newChains ChainsSync fam kernel (nft, log) = Done (r, (nft', log')) →
  grows fam kernel (tables nft) (tables nft').
Proof.
  induction kernel as [|t kernel IH]; intros nft log r nft' log' Hrun.
  - injection Hrun as <- <- <-. apply grows_refl.
  - cbn [syncLoop] in Hrun.
    destruct (decide (Family t = fam)) as [Hfam|Hfam];
      [subst fam|by apply IH, (grows_skip _ t) in Hrun].
    apply bind_Done in Hrun as (nft0 & s0 & Hget & Hrun).
    injection Hget as <- <-. cbn [fst] in Hrun.
    destruct (lookupTable (tables nft) (Family t) (TName t)) eqn:Habsent;
      [by apply IH, (grows_skip _ t) in Hrun|].
    apply bind_Done in Hrun as (nt & [nft1 log1] & Hcreate & Hrun).
    unfold createM in Hcreate. cbn [fst snd] in Hcreate.
    pose proof (lookupTable_create (tables nft) (TName t) (Family t)) as Hl1.
    destruct (create newChains (TName t) (Family t) (tables nft)) as [nt' tbls1].
    injection Hcreate as <- <- <-. cbn [fst snd] in Hl1.
    apply bind_Done in Hrun as (err & [nft2 log2] & Hchains & Hrun).
    pose proof (onChains_frame _ _ _ _ _ _ _ _ Hchains) as Hl2. cbn [tables] in Hl2.
    assert (∀ f n, ¬ (f = Family t ∧ n = TName t) →
              lookupTable (tables nft2) f n = lookupTable (tables nft) f n) as Hf2.
    { intros f n Hk. rewrite Hl2, Hl1 by done. by rewrite decide_False. }
    destruct err as [e|].
    { injection Hrun as <- <- <-.
      eapply grows_step; [done | done | exact Hf2 | apply grows_refl]. }
    apply bind_Done in Hrun as (err & [nft3 log3] & Hsets & Hrun).
    pose proof (onSets_frame _ _ _ _ _ _ _ _ Hsets) as Hl3.
    assert (∀ f n, ¬ (f = Family t ∧ n = TName t) →
              lookupTable (tables nft3) f n = lookupTable (tables nft) f n) as Hf3.
    { intros f n Hk. rewrite Hl3, Hf2 by done. done. }
    destruct err as [e|].
    { injection Hrun as <- <- <-.
      eapply grows_step; [done | done | exact Hf3 | apply grows_refl]. }
    eapply grows_step; [done | done | exact Hf3 | by eapply IH].
Qed.

(** C8. Whenever [Sync] returns, with or without an error, every record
    the registry held is still there, unchanged; a pair that has a
    record only afterwards is of the synced family and names a table of
    the kernel's listing. *)
Theorem Sync_only_adds fam nft log r nft' log' :
  Sync conn newChains ChainsSync fam (nft, log) = Done (r, (nft', log')) →
  (∀ f n rec, lookupTable (tables nft) f n = Some rec →
              lookupTable (tables nft') f n = Some rec) ∧
  (∀ f n, lookupTable (tables nft) f n = None →
          is_Some (lookupTable (tables nft') f n) →
          f = fam ∧ ∃ kernel, ListTables conn log = Ok kernel ∧ mkTable f n ∈ kernel).
Proof.
  unfold Sync. intros Hrun.
  apply bind_Done in Hrun as ([] & [nft1 log1] & Hlock & Hrun).
  unfold lockTables in Hlock. cbn [fst snd] in Hlock.
  destruct (mu nft); [discriminate|]. injection Hlock as <- <-.
  apply bind_Done in Hrun as (res & [nft2 log2] & Hlist & Hrun).
  unfold connCall in Hlist. cbn [fst snd] in Hlist. injection Hlist as <- <- <-.
  destruct (ListTables conn log) as [kernel|e] eqn:Hk.
  - apply bind_Done in Hrun as ([] & [nft3 log3] & Hunlock & Hrun).
    unfold unlockTables in Hunlock. cbn [fst snd tables] in Hunlock.
    injection Hunlock as <- <-.
    apply syncLoop_grows in Hrun as [Hold Hnew]. cbn [tables] in *.
    split; [exact Hold|].
    intros f n Hn Hs. destruct (Hnew f n Hn Hs) as [-> Hin]. eauto.
  - injection Hrun as <- <- <-. cbn [tables].
    split; [done|]. intros f n Hn [rec Hrec]. congruence.
Qed.
End TableStoreFacts.

(** *** The table store on concrete connections *)

Lemma Create_twice_witness :
  ∃ r tbls1 bucket,
    Create noChains "filter-v4" TableFamilyIPv4 (localOnly, [])
    = Done (None, (mknfTables false tbls1, [] ++ [CallAddTable (table r)])) ∧
    (∀ r0, lookupTable (tables localOnly) TableFamilyIPv4 "filter-v4" = Some r0 →
           ChainsInterface r0 ≠ None → SetsInterface r0 ≠ None →
           r = r0 ∧ tbls1 = tables localOnly) ∧
    ((∀ r0, lookupTable (tables localOnly) TableFamilyIPv4 "filter-v4" = Some r0 →
            ChainsInterface r0 = None ∨ SetsInterface r0 = None) →
     r = mknfTable (mkTable TableFamilyIPv4 "filter-v4")
                   (Some (noChains (mkTable TableFamilyIPv4 "filter-v4")))
                   (Some (newSets (mkTable TableFamilyIPv4 "filter-v4")))) ∧
    ((∀ r0, lookupTable (tables localOnly) TableFamilyIPv4 "filter-v4" = Some r0 →
            table r0 = mkTable TableFamilyIPv4 "filter-v4") →
     table r = mkTable TableFamilyIPv4 "filter-v4") ∧
    ChainsInterface r ≠ None ∧ SetsInterface r ≠ None ∧
    lookupTable tbls1 TableFamilyIPv4 "filter-v4" = Some r ∧
    (∀ f n, ¬ (f = TableFamilyIPv4 ∧ n = "filter-v4") →
            lookupTable tbls1 f n = lookupTable (tables localOnly) f n) ∧
    create noChains "filter-v4" TableFamilyIPv4 tbls1 = (r, tbls1) ∧
    Create noChains "filter-v4" TableFamilyIPv4
      (mknfTables false tbls1, [] ++ [CallAddTable (table r)])
    = Done (None, (mknfTables false tbls1,
                   ([] ++ [CallAddTable (table r)]) ++ [CallAddTable (table r)])) ∧
    tbls1 !! TableFamilyIPv4 = Some bucket ∧
    filter (fun kv => kv.1 = "filter-v4") (map_to_list bucket) = [("filter-v4", r)].
Proof.
  apply (Create_twice unit noChains "filter-v4" TableFamilyIPv4 localOnly []).
  reflexivity.
Defined.

(** A record that holds a set is found again as it is: the second
    [Create] does not put a new set store in its place. *)
Example Create_keeps_record :
  let t := mkTable TableFamilyIPv4 "filter-v4" in
  let r := mknfTable t (Some tt)
             (Some (mknfSets t false {[ "blocked" := CreateSet_s t blockedNets 7 ]})) in
  let nft := mknfTables false {[ TableFamilyIPv4 := {[ "filter-v4" := r ]} ]} in
  Create noChains "filter-v4" TableFamilyIPv4 (nft, [])
  = Done (None, (nft, [CallAddTable t])).
Proof. vm_compute. reflexivity. Qed.

Lemma Exist_listing_fails_witness :
  Exist downConn "filter-v4" TableFamilyIPv4 (emptyStore, [])
  = Done (false, (emptyStore, [] ++ [CallListTables])).
Proof.
  apply (Exist_listing_fails downConn unit "filter-v4" TableFamilyIPv4 emptyStore []
           "netlink receive: operation not permitted");
    reflexivity.
Defined.

(** The same name on a kernel that lists it: [Exist] answers [true]. *)
Example Exist_on_kernel :
  Exist kernelConn "kernel-only" TableFamilyIPv4 (emptyStore, [])
  = Done (true, (emptyStore, [CallListTables])).
Proof. reflexivity. Qed.

Lemma Sync_only_adds_witness :
  ∃ nft' log',
    Sync kernelConn noChains noChainsSync TableFamilyIPv4 (localOnly, [])
    = Done (None, (nft', log')) ∧
    (∀ f n rec, lookupTable (tables localOnly) f n = Some rec →
                lookupTable (tables nft') f n = Some rec) ∧
    is_Some (lookupTable (tables nft') TableFamilyIPv4 "kernel-only") ∧
    lookupTable (tables nft') TableFamilyIPv6 "six" = None.
Proof.
  eexists _, _. split; [vm_compute; reflexivity|].
  split; [|split; [vm_compute; eauto | vm_compute; reflexivity]].
  eapply (Sync_only_adds kernelConn unit noChains noChainsSync TableFamilyIPv4 localOnly []).
  vm_compute. reflexivity.
Defined.

(** [Sync] hangs in the set store of the record it has just registered,
    which by then holds the kernel's set behind a locked mutex. *)
Example Sync_blocks_on_kernel_set :
  let t := mkTable TableFamilyIPv4 "kernel-only" in
  Sync kernelConnWithSet noChains noChainsSync TableFamilyIPv4 (emptyStore, [])
  = Blocked
      (mknfTables false
         {[ TableFamilyIPv4 :=
              {[ "kernel-only" :=
                   mknfTable t (Some tt)
                     (Some (mknfSets t true {[ "blocked" := CreateSet_s t blockedNets 7 ]})) ]} ]},
       [CallListTables; CallGetSets t]).
Proof. vm_compute. reflexivity. Qed.

(** ** The L3 address compiler *)

Section CompilerFacts.
Variable expr : Type.
Variable getExprForListIPV2 : TableFamily → NftSet → Z → bool → result (list expr).
Variable getExprForRangeIP :
  TableFamily → Z → option L3.IPAddr * option L3.IPAddr → bool → result (list expr).

Lemma listSet_ID f keyType : 0 ≤ ID (listSet f keyType) ≤ 65534.
Proof.
  cbn [listSet ID]. unfold uint32.
  pose proof (Intn_range 65535 (L3.draw f) ltac:(lia)) as H.
  rewrite Z.mod_small; lia.
Qed.

Lemma length_setKeys conv addrs se :
  length (L3.setKeys conv addrs se) = Nat.min (length addrs) (length se).
Proof. unfold L3.setKeys. apply length_zip_with. Qed.

(** The guard of [processAddrList] tests the length of [se], which is
    the length of the list whatever the family. *)
Lemma processAddrList_guard l3proto offset addrs excl f :
  L3.processAddrList getExprForListIPV2 l3proto offset addrs excl f =
  if (length addrs =? 0)%nat
  then Err ("unknown nftables.TableFamily " +:+ fmtHexByte l3proto)
  else
    match getExprForListIPV2 l3proto (listSet f SetDatatype_zero) offset excl with
    | Err e => Err e
    | Ok re =>
        Ok (re, Some (L3.mknfSet (listSet f SetDatatype_zero)
               (let se := repeat SetElement_zero (length addrs) in
                let se := if decide (l3proto = TableFamilyIPv4)
                          then L3.setKeys To4 addrs se else se in
                if decide (l3proto = TableFamilyIPv6)
                then L3.setKeys To16 addrs se else se)))
    end.
Proof.
  unfold L3.processAddrList. cbn zeta.
  assert (∀ se, length se = length addrs →
            length (if decide (l3proto = TableFamilyIPv6)
                    then L3.setKeys To16 addrs se else se) = length addrs) as H6.
  { intros se Hse. destruct (decide (l3proto = TableFamilyIPv6)); [|done].
    rewrite length_setKeys. lia. }
  assert (length (if decide (l3proto = TableFamilyIPv4)
                  then L3.setKeys To4 addrs (repeat SetElement_zero (length addrs))
                  else repeat SetElement_zero (length addrs)) = length addrs) as H4.
  { destruct (decide (l3proto = TableFamilyIPv4));
      rewrite ?length_setKeys, repeat_length; lia. }
  rewrite (H6 _ H4).
  destruct (length addrs =? 0)%nat; reflexivity.
Qed.

(** On a family that is neither IPv4 nor IPv6 a list that is not empty
    passes the guard: the keys stay nil and the outcome is the one of
    [getExprForListIPV2]. *)
Lemma processAddrList_other_family l3proto offset addrs excl f :
  l3proto ≠ TableFamilyIPv4 → l3proto ≠ TableFamilyIPv6 → addrs ≠ [] →
  L3.processAddrList getExprForListIPV2 l3proto offset addrs excl f =
  match getExprForListIPV2 l3proto (listSet f SetDatatype_zero) offset excl with
  | Err e => Err e
  | Ok re =>
      Ok (re, Some (L3.mknfSet (listSet f SetDatatype_zero)
                      (repeat SetElement_zero (length addrs))))
  end.
Proof.
  intros H4 H6 Hne. rewrite processAddrList_guard.
  destruct addrs as [|a addrs]; [done|]. cbn [length Nat.eqb].
  by rewrite !decide_False.
Qed.

(** An empty list trips the guard on every family, IPv4 and IPv6 too. *)
Lemma processAddrList_empty l3proto offset excl f :
  L3.processAddrList getExprForListIPV2 l3proto offset [] excl f
  = Err ("unknown nftables.TableFamily " +:+ fmtHexByte l3proto).
Proof. by rewrite processAddrList_guard. Qed.

(** On an IPv4 table the message of the guard names family 2. *)
Example processAddrList_empty_v4 offset excl f :
  L3.processAddrList getExprForListIPV2 TableFamilyIPv4 offset [] excl f
  = Err "unknown nftables.TableFamily 0x02".
Proof. by rewrite processAddrList_empty. Qed.

(** C5. On an INET table, a source list of one address: neither
    [processIPAddr] nor [processAddrList] raises the unknown-family
    error. The set is built with a nil key and the zero key type, the
    offset is 0, and the result is whatever [getExprForListIPV2] makes
    of them. *)
Theorem processIPAddr_inet_list (excl : bool) (f : L3.Fresh) :
  L3.processIPAddr getExprForListIPV2 getExprForRangeIP TableFamilyINet
    (L3.mkIPAddrSpec (Some [L3.mkIPAddr [192; 0; 2; 1]]) (None, None)) true excl f
  = match getExprForListIPV2 TableFamilyINet (listSet f SetDatatype_zero) 0 excl with
    | Err e => Err e
    | Ok re => Ok (re, [L3.mknfSet (listSet f SetDatatype_zero) [SetElement_zero]])
    end.
Proof.
  unfold L3.processIPAddr. cbn [L3.List L3.Range].
  rewrite processAddrList_other_family by done.
  cbn [decide_rel]. unfold TableFamilyINet, TableFamilyIPv4, TableFamilyIPv6.
  cbn. destruct (getExprForListIPV2 _ _ _ _); reflexivity.
Qed.

(** A range goes to [getExprForRangeIP] with no check of the family. *)
Lemma processIPAddr_inet_range (lo hi : L3.IPAddr) (excl : bool) (f : L3.Fresh) :
  L3.processIPAddr getExprForListIPV2 getExprForRangeIP TableFamilyINet
    (L3.mkIPAddrSpec None (Some lo, Some hi)) false excl f
  = match getExprForRangeIP TableFamilyINet 0 (Some lo, Some hi) excl with
    | Err e => Err e
    | Ok re => Ok (re, [])
    end.
Proof.
  unfold L3.processIPAddr, L3.processAddrRange. cbn.
  destruct (getExprForRangeIP _ _ _ _); reflexivity.
Qed.

End CompilerFacts.

(** *** The compiler on concrete rules *)

(** With every L3 field populated the address builders are still reached
    with 12 and 16 on IPv4, 8 and 24 on IPv6, after version and protocol. *)
Example createL3_offsets_v4 :
  match L3.createL3 L3.recListIP L3.recRangeIP L3.recIPVersion L3.recProto
          TableFamilyIPv4 fullRule fresh1 fresh2 with
  | Done (Ok (re, sets)) => (callOffset <$> re, KeyType ∘ L3.set <$> sets)
  | _ => ([], [])
  end = ([None; None; Some 12; Some 16], [TypeIPAddr]).
Proof. reflexivity. Qed.

Example createL3_offsets_v6 :
  match L3.createL3 L3.recListIP L3.recRangeIP L3.recIPVersion L3.recProto
          TableFamilyIPv6 fullRule fresh1 fresh2 with
  | Done (Ok (re, sets)) => (callOffset <$> re, KeyType ∘ L3.set <$> sets)
  | _ => ([], [])
  end = ([None; None; Some 8; Some 24], [TypeIP6Addr]).
Proof. reflexivity. Qed.

(** The calls the recording builders see carry the offset of the
    specification's table, for every address specification. *)
Lemma processIPAddr_recorded_offsets family addrs src excl f re sets :
  family = TableFamilyIPv4 ∨ family = TableFamilyIPv6 →
  L3.processIPAddr L3.recListIP L3.recRangeIP family addrs src excl f = Ok (re, sets) →
  Forall (fun c => callOffset c = Some (specHeaderOffset family src)) re.
Proof.
  intros Hfam. unfold L3.processIPAddr. cbn zeta.
  destruct (L3.List addrs) as [l|].
  - rewrite processAddrList_guard.
    destruct (length l =? 0)%nat; [discriminate|].
    cbn [L3.recListIP andThen fst snd app].
    destruct (L3.Range addrs) as [[lo|] [hi|]]; intros [= <- _];
      destruct Hfam as [-> | ->], src; by repeat constructor.
  - cbn [andThen fst snd].
    destruct (L3.Range addrs) as [[lo|] [hi|]]; intros [= <- _];
      destruct Hfam as [-> | ->], src; by repeat constructor.
Qed.

(** With builders that accept what they are given, compiling a list on
    an INET table succeeds. *)
Example processIPAddr_inet_succeeds :
  is_Ok (L3.processIPAddr L3.recListIP L3.recRangeIP TableFamilyINet
           srcNets true false fresh1) = true.
Proof. reflexivity. Qed.

(** ** Set identifiers *)

Lemma collect_IDs keyType sets (o : option L3.nfSet) :
  Forall (fun s => 0 ≤ ID (L3.set s) ≤ 65534) sets →
  (∀ s, o = Some s → 0 ≤ ID (L3.set s) ≤ 65534) →
  Forall (fun s => 0 ≤ ID (L3.set s) ≤ 65534) (L3.collect keyType sets o).
Proof.
  intros Hsets Ho. destruct o as [s|]; [|exact Hsets].
  cbn [L3.collect]. apply Forall_app. split; [exact Hsets|].
  constructor; [|constructor]. cbn [L3.set ID]. by apply Ho.
Qed.

Lemma processAddrList_ID {expr} (hl : TableFamily → NftSet → Z → bool → result (list expr))
    l3proto offset addrs excl f re o :
  L3.processAddrList hl l3proto offset addrs excl f = Ok (re, o) →
  ∀ s, o = Some s → 0 ≤ ID (L3.set s) ≤ 65534.
Proof.
  rewrite processAddrList_guard.
  destruct (length addrs =? 0)%nat; [discriminate|].
  destruct (hl _ _ _ _); [|discriminate].
  intros [= <- <-] s [= <-]. apply listSet_ID.
Qed.

(** C9. The set [CreateSet] returns, the set [processAddrList] returns
    for a list, and with it every set [processIPAddr] hands back, carry an
    identifier between 0 and 65534. *)
Theorem set_ID_range :
  (∀ conn attrs elements rnd st s st',
     CreateSet conn attrs elements rnd st = Done (Ok s, st') →
     0 ≤ ID s ≤ 65534) ∧
  (∀ expr (hl : TableFamily → NftSet → Z → bool → result (list expr))
     l3proto offset addrs excl f re s,
     L3.processAddrList hl l3proto offset addrs excl f = Ok (re, Some s) →
     0 ≤ ID (L3.set s) ≤ 65534) ∧
  (∀ expr (hl : TableFamily → NftSet → Z → bool → result (list expr))
     (hr : TableFamily → Z → option L3.IPAddr * option L3.IPAddr → bool → result (list expr))
     l3proto addrs src excl f re sets,
     L3.processIPAddr hl hr l3proto addrs src excl f = Ok (re, sets) →
     Forall (fun s => 0 ≤ ID (L3.set s) ≤ 65534) sets).
Proof.
  split; [|split].
  - intros conn attrs elements rnd [nfs log] s st'. rewrite CreateSet_run. cbn zeta.
    destruct (AddSet conn log _ elements); [discriminate|].
    destruct (Flush conn _); [discriminate|].
    destruct (smu nfs); [discriminate|].
    intros [= <- _]. apply CreateSet_s_ID.
  - intros expr hl l3proto offset addrs excl f re s H.
    by eapply processAddrList_ID.
  - intros expr hl hr l3proto addrs src excl f re sets.
    unfold L3.processIPAddr. cbn zeta.
    destruct (L3.List addrs) as [l|].
    + destruct (L3.processAddrList hl l3proto _ l excl f) as [[re1 o1]|e] eqn:Hl;
        [|discriminate].
      cbn [andThen fst snd].
      assert (Forall (fun s => 0 ≤ ID (L3.set s) ≤ 65534) (L3.collect
                (if decide (l3proto = TableFamilyIPv4) then TypeIPAddr
                 else if decide (l3proto = TableFamilyIPv6) then TypeIP6Addr
                 else SetDatatype_zero) [] o1)) as H1.
      { apply collect_IDs; [constructor|]. by eapply processAddrList_ID. }
      destruct (L3.Range addrs) as [[lo|] [hi|]]; try by intros [= _ <-].
      unfold L3.processAddrRange.
      destruct (hr _ _ _ _); [|discriminate].
      cbn [andThen fst snd L3.collect]. by intros [= _ <-].
    + cbn [andThen fst snd].
      destruct (L3.Range addrs) as [[lo|] [hi|]]; try by intros [= _ <-].
      unfold L3.processAddrRange.
      destruct (hr _ _ _ _); [|discriminate].
      cbn [andThen fst snd L3.collect]. by intros [= _ <-].
Qed.

Lemma set_ID_range_witness :
  0 ≤ ID (CreateSet_s v4Filter blockedNets 123456789) ≤ 65534 ∧
  Forall (fun s => 0 ≤ ID (L3.set s) ≤ 65534)
         [L3.mknfSet (listSet fresh2 TypeIPAddr)
            [mkSetElement (Some [192; 0; 2; 0]) None false None;
             mkSetElement (Some [192; 0; 3; 0]) None false None]].
Proof.
  split.
  - eapply (proj1 set_ID_range kernelConn blockedNets userRange 123456789
              (newSets v4Filter, [])).
    rewrite CreateSet_run. reflexivity.
  - eapply (proj2 (proj2 set_ID_range) L3.Call L3.recListIP L3.recRangeIP
              TableFamilyIPv4 srcNets true false fresh2).
    reflexivity.
Defined.

(** The bounds are met: draws 65534 and 65535 give the identifiers 65534
    and 0. *)
Example set_ID_extremes :
  ID (CreateSet_s v4Filter blockedNets 65534) = 65534 ∧
  ID (CreateSet_s v4Filter blockedNets 65535) = 0.
Proof. split; reflexivity. Qed.

(** ** GenSetKeyType: width and packed tag *)

Lemma uint32_idemp a : uint32 (uint32 a) = uint32 a.
Proof. unfold uint32. apply Z.mod_mod. lia. Qed.

Lemma uint32_add_l a b : uint32 (uint32 a + b) = uint32 (a + b).
Proof. unfold uint32. apply Zplus_mod_idemp_l. Qed.

Lemma uint32_add_r a b : uint32 (a + uint32 b) = uint32 (a + b).
Proof. unfold uint32. apply Zplus_mod_idemp_r. Qed.

Lemma uint32_small a : 0 ≤ a < 2 ^ 32 → uint32 a = a.
Proof. intros H. unfold uint32. by apply Z.mod_small. Qed.

Lemma roundUp4_spec b :
  roundUp4 b mod 4 = 0 ∧ Z.max 4 b ≤ roundUp4 b < Z.max 4 b + 4.
Proof.
  unfold roundUp4.
  destruct (Z.leb_spec b 4); [split; [reflexivity | lia]|].
  destruct (Z.eqb_spec (b mod 4) 0) as [H0|H0]; [lia|].
  pose proof (Z.mod_pos_bound b 4 ltac:(lia)) as Hb.
  pose proof (Z.div_mod b 4 ltac:(lia)) as Hd.
  split; [|lia].
  replace (b + (4 - b mod 4)) with ((b / 4 + 1) * 4) by lia.
  apply Z.mod_mul. lia.
Qed.

Lemma width_step b w :
  (if w <=? 4 then uint32 (b + 4)
   else let b := uint32 (b + w) in
        if negb (w mod 4 =? 0) then uint32 (b + uint32 (4 - w mod 4)) else b)
  = uint32 (b + roundUp4 w).
Proof.
  unfold roundUp4. destruct (Z.leb_spec w 4); [reflexivity|]. cbn zeta.
  destruct (Z.eqb_spec (w mod 4) 0); cbn [negb]; [reflexivity|].
  rewrite uint32_add_r, uint32_add_l. f_equal. lia.
Qed.

Lemma genLoop_bytes n rest : ∀ i name c b,
  uint32 b = b →
  (genLoop n i rest name c b).2 = uint32 (b + sumWidths rest).
Proof.
  induction rest as [|t rest IH]; intros i name c b Hb.
  - cbn. by rewrite Z.add_0_r.
  - cbn [genLoop sumWidths foldr]. fold (sumWidths rest).
    rewrite width_step, IH by apply uint32_idemp.
    rewrite uint32_add_l. f_equal. lia.
Qed.

Lemma GenSetKeyType_width types :
  types ≠ [] →
  Forall (fun t => 0 ≤ Bytes t < 2 ^ 32) types →
  Bytes (GenSetKeyType types) = uint32 (sumWidths types).
Proof.
  intros Hne Hall.
  destruct types as [|t1 [|t2 types]]; [done| |].
  - cbn [GenSetKeyType Bytes sumWidths foldr]. rewrite Z.add_0_r.
    apply Forall_inv in Hall.
    unfold roundUp4.
    destruct (Z.leb_spec (Bytes t1) 4); [reflexivity|].
    destruct (Z.eqb_spec (Bytes t1 mod 4) 0); cbn [negb].
    + by rewrite uint32_small.
    + by rewrite uint32_add_r.
  - unfold GenSetKeyType.
    pose proof (genLoop_bytes (length (t1 :: t2 :: types)) (t1 :: t2 :: types)
                  0%nat "concat" 0 0 eq_refl) as H.
    destruct (genLoop _ _ _ _ _ _) as [[name c] b]. exact H.
Qed.

(** X1. For one or more datatypes whose widths are 32-bit values,
    [GenSetKeyType] gives the sum, modulo 2^32, of the component widths,
    each raised to 4 at least and rounded up to a multiple of 4. *)
Theorem GenSetKeyType_bytes types :
  types ≠ [] →
  Forall (fun t => 0 ≤ Bytes t < 2 ^ 32) types →
  Bytes (GenSetKeyType types) = uint32 (sumWidths types) ∧
  Forall (fun t => roundUp4 (Bytes t) mod 4 = 0 ∧
                   Z.max 4 (Bytes t) ≤ roundUp4 (Bytes t) < Z.max 4 (Bytes t) + 4) types.
Proof.
  intros Hne Hall. split; [by apply GenSetKeyType_width|].
  apply Forall_forall; intros t _; apply roundUp4_spec.
Qed.

Lemma GenSetKeyType_bytes_witness :
  Bytes (GenSetKeyType [TypeEtherAddr; TypeInetProto; TypeIP6Addr])
  = uint32 (sumWidths [TypeEtherAddr; TypeInetProto; TypeIP6Addr]) ∧
  Bytes (GenSetKeyType [TypeEtherAddr; TypeInetProto; TypeIP6Addr]) = 28.
Proof.
  split; [|reflexivity].
  apply (GenSetKeyType_bytes [TypeEtherAddr; TypeInetProto; TypeIP6Addr]); [done|].
  repeat constructor; cbn; lia.
Defined.

(** A width in the last three values of the 32-bit range wraps to 0. *)
Example GenSetKeyType_bytes_wrap :
  Bytes (GenSetKeyType [mkSetDatatype "wide" (2 ^ 32 - 1) 4]) = 0.
Proof. reflexivity. Qed.

(** *** The packed tag *)

Lemma genLoop_tag n rest : ∀ i name c b,
  (genLoop n i rest name c b).1.2 = foldl packStep c rest.
Proof.
  induction rest as [|t rest IH]; intros i name c b; [reflexivity|].
  cbn [genLoop foldl]. by rewrite IH.
Qed.

Lemma lor_shifted c m :
  0 ≤ c → 0 ≤ m < 64 → Z.lor (Z.shiftl c 6) m = c * 64 + m.
Proof.
  intros Hc Hm.
  change 64 with (2 ^ 6). rewrite <- Z.shiftl_mul_pow2 by lia.
  rewrite <- (Z.add_lor_land (Z.shiftl c 6) m).
  assert (Z.land (Z.shiftl c 6) m = 0) as ->.
  { apply Z.bits_inj'. intros i Hi. rewrite Z.land_spec, Z.bits_0.
    destruct (Z.ltb_spec i 6).
    - rewrite Z.shiftl_spec_low by lia. reflexivity.
    - rewrite (Z.bits_above_log2 m i); [apply andb_false_r | lia |].
      destruct (Z.eq_dec m 0) as [->|]; [cbn; lia|].
      apply Z.log2_lt_pow2; [lia|].
      apply Z.lt_le_trans with (2 ^ 6); [lia|].
      apply Z.pow_le_mono_r; lia. }
  by rewrite Z.add_0_r.
Qed.

Lemma packStep_small c t :
  0 ≤ c < 2 ^ 26 → 0 ≤ nftMagic t < 64 →
  packStep c t = c * 64 + nftMagic t.
Proof.
  intros Hc Hm. unfold packStep, SetConcatTypeBits, GetNFTMagic.
  rewrite Z.shiftl_mul_pow2 by lia.
  rewrite uint32_small by lia.
  rewrite <- (Z.shiftl_mul_pow2 c 6) by lia.
  apply lor_shifted; lia.
Qed.

Lemma unpack_step c m :
  0 ≤ c → 0 ≤ m < 64 →
  Z.shiftr (c * 64 + m) SetConcatTypeBits = c ∧ Z.land (c * 64 + m) 63 = m.
Proof.
  intros Hc Hm. unfold SetConcatTypeBits. split.
  - rewrite Z.shiftr_div_pow2 by lia. change (2 ^ 6) with 64.
    rewrite Z.div_add_l by lia. rewrite Z.div_small by lia. lia.
  - change 63 with (Z.ones 6). rewrite Z.land_ones by lia. change (2 ^ 6) with 64.
    rewrite Z.add_comm, Z.mod_add by lia. by apply Z.mod_small.
Qed.

Lemma unpack_pack rest : ∀ (k : nat) c,
  (k + length rest ≤ 5)%nat →
  0 ≤ c < 64 ^ Z.of_nat k →
  Forall (fun t => 0 ≤ nftMagic t < 64) rest →
  unpackTag (k + length rest) (foldl packStep c rest)
  = unpackTag k c ++ (nftMagic <$> rest).
Proof.
  induction rest as [|t rest IH]; intros k c Hk Hc Hall.
  - cbn. by rewrite Nat.add_0_r, app_nil_r.
  - cbn [length foldl fmap list_fmap] in *.
    apply Forall_cons in Hall as [Hm Hall].
    assert (64 ^ Z.of_nat k ≤ 64 ^ 4) as Hpow by (apply Z.pow_le_mono_r; lia).
    rewrite packStep_small by lia.
    replace (k + S (length rest))%nat with (S k + length rest)%nat by lia.
    rewrite IH; [| lia | | done].
    + cbn [unpackTag].
      destruct (unpack_step c (nftMagic t) ltac:(lia) Hm) as [-> ->].
      by rewrite <- app_assoc.
    + rewrite Nat2Z.inj_succ, Z.pow_succ_r by lia. lia.
Qed.

(** X2. For one to five datatypes with tags below 64, the tag of the
    composite datatype unpacks, 6 bits at a time, into the tags of the
    components in their order. *)
Theorem GenSetKeyType_tag_roundtrip types :
  types ≠ [] → (length types ≤ 5)%nat →
  Forall (fun t => 0 ≤ nftMagic t < 64) types →
  unpackTag (length types) (nftMagic (GenSetKeyType types)) = nftMagic <$> types.
Proof.
  intros Hne Hlen Hall.
  destruct types as [|t1 [|t2 types]]; [done| |].
  - cbn [GenSetKeyType nftMagic length unpackTag fmap list_fmap app GetNFTMagic].
    apply Forall_inv in Hall. f_equal.
    change 63 with (Z.ones 6). rewrite Z.land_ones by lia. by apply Z.mod_small.
  - unfold GenSetKeyType.
    pose proof (genLoop_tag (length (t1 :: t2 :: types)) (t1 :: t2 :: types)
                  0%nat "concat" 0 0) as H.
    destruct (genLoop _ _ _ _ _ _) as [[name c] b]. cbn [fst snd nftMagic] in *.
    subst c.
    apply (unpack_pack (t1 :: t2 :: types) 0%nat 0); [cbn in *; lia | cbn; lia | done].
Qed.

Lemma GenSetKeyType_tag_roundtrip_witness :
  unpackTag 3 (nftMagic (GenSetKeyType [TypeIPAddr; TypeInetProto; TypeInetService]))
  = [7; 12; 13].
Proof.
  apply (GenSetKeyType_tag_roundtrip [TypeIPAddr; TypeInetProto; TypeInetService]);
    [done | cbn; lia | repeat constructor; cbn; lia].
Defined.

(** A sixth component pushes the first out of the 32-bit tag. *)
Example GenSetKeyType_tag_overflow :
  unpackTag 6 (nftMagic (GenSetKeyType
     [TypeMark; TypeIPAddr; TypeIPAddr; TypeIPAddr; TypeIPAddr; TypeIPAddr]))
  = [3; 7; 7; 7; 7; 7].
Proof. reflexivity. Qed.

(** ** MakeConcatElement: when it succeeds and what the key holds *)

#[local] Set Warnings "-clear-no-such-hyp".

Lemma MakeConcatElement_Ok_inv keys vals ra el :
  MakeConcatElement keys vals ra = Ok el →
  ∃ a key kl,
    ra = Some a ∧ keys ≠ [] ∧ length keys = length vals ∧
    concatLoop keys vals [] 0%nat = Ok (key, kl) ∧
    el = mkSetElement (Some (copy (make (align4 kl)) key)) None false (verdict a).
Proof.
  unfold MakeConcatElement.
  destruct ra as [a|]; [|discriminate].
  destruct (Nat.eqb_spec (length keys) 0) as [|Hne]; [discriminate|].
  destruct (Nat.eqb_spec (length keys) (length vals)) as [Hlen|]; [|discriminate].
  cbn [negb].
  destruct (concatLoop keys vals [] 0%nat) as [[key kl]|e]; [|discriminate].
  intros [= <-]. exists a, key, kl. repeat split; try done.
  by intros ->.
Qed.

Lemma elementBytes_Ok_iff keyT keyV :
  (∃ b, elementBytes keyT keyV = Ok b) ↔ hasKeyValue keyT keyV.
Proof.
  unfold elementBytes, hasKeyValue.
  repeat case_decide;
    repeat match goal with
           | |- context [match ?o with Some _ => _ | None => _ end] => destruct o eqn:?
           end;
    naive_solver.
Qed.

Lemma processElementValue_Ok_iff keyT keyV :
  (∃ ba, processElementValue keyT keyV = Ok ba) ↔ hasKeyValue keyT keyV.
Proof.
  rewrite <- elementBytes_Ok_iff. unfold processElementValue.
  destruct (elementBytes keyT keyV); naive_solver.
Qed.

Lemma concatLoop_Ok_iff keys : ∀ vals key kl,
  length keys = length vals →
  (∃ r, concatLoop keys vals key kl = Ok r) ↔ Forall2 hasKeyValue keys vals.
Proof.
  induction keys as [|k keys IH]; intros [|v vals] key kl Hlen; try discriminate.
  - split; [constructor | by eexists].
  - cbn [concatLoop]. injection Hlen as Hlen.
    rewrite Forall2_cons, <- processElementValue_Ok_iff.
    destruct (processElementValue k v) as [ba|e].
    + rewrite (IH vals (key ++ ba) (kl + length ba)%nat Hlen). naive_solver.
    + naive_solver.
Qed.

(** X3. [MakeConcatElement] returns an element exactly when the action
    is not nil, there is at least one key datatype, and there is one
    value for every datatype, each datatype being one of the seven the
    encoder knows and its value carrying the field the datatype reads. *)
Theorem MakeConcatElement_succeeds_iff keys vals ra :
  (∃ el, MakeConcatElement keys vals ra = Ok el) ↔
  ra ≠ None ∧ keys ≠ [] ∧ Forall2 hasKeyValue keys vals.
Proof.
  split.
  - intros [el (a & key & kl & -> & Hne & Hlen & Hloop & _)%MakeConcatElement_Ok_inv].
    repeat split; [done..|].
    apply (concatLoop_Ok_iff keys vals [] 0%nat Hlen). eauto.
  - intros (Hra & Hne & Hall).
    pose proof (Forall2_length _ _ _ Hall) as Hlen.
    apply (concatLoop_Ok_iff keys vals [] 0%nat Hlen) in Hall as [[key kl] Hloop].
    unfold MakeConcatElement. destruct ra as [a|]; [|done].
    destruct (Nat.eqb_spec (length keys) 0) as [H0|_]; [by destruct keys|].
    rewrite Hlen, Nat.eqb_refl. cbn [negb]. rewrite Hloop. eauto.
Qed.

Lemma MakeConcatElement_succeeds_iff_witness :
  ∃ el, MakeConcatElement sampleKeys sampleVals (Some (mkRuleAction None)) = Ok el.
Proof.
  apply (MakeConcatElement_succeeds_iff sampleKeys sampleVals (Some (mkRuleAction None))).
  split; [done|]. split; [done|].
  repeat constructor; unfold hasKeyValue; cbn; naive_solver.
Defined.

(** The datatype of a verdict is none of the seven: no key can hold it. *)
Example MakeConcatElement_unsupported :
  MakeConcatElement [TypeVerdict] [ElementValue_zero] (Some (mkRuleAction None))
  = Err "unsupported type of key element 1".
Proof. reflexivity. Qed.

(** *** The bytes of the key *)

Lemma drop_repeat {A} (x : A) n m : drop n (repeat x m) = repeat x (m - n).
Proof.
  revert n. induction m as [|m IH]; intros [|n]; cbn; try reflexivity. apply IH.
Qed.

Lemma copy_into_zeros n b : (length b ≤ n)%nat → copy (make n) b = b ++ repeat 0 (n - length b).
Proof.
  intros H. unfold copy. rewrite length_make, take_ge by lia.
  unfold make. by rewrite drop_repeat.
Qed.

Lemma length_pad4 b : length (pad4 b) = align4 (length b).
Proof.
  unfold pad4. rewrite length_app, repeat_length.
  pose proof (align4_ge (length b)). lia.
Qed.

Lemma processElementValue_pad keyT keyV ba :
  processElementValue keyT keyV = Ok ba →
  ∃ b, elementBytes keyT keyV = Ok b ∧ ba = pad4 b.
Proof.
  unfold processElementValue.
  destruct (elementBytes keyT keyV) as [b|e]; [|discriminate].
  intros [= <-]. exists b. split; [done|].
  apply copy_into_zeros. apply align4_ge.
Qed.

Lemma concatLoop_bytes keys : ∀ vals key kl key' kl',
  concatLoop keys vals key kl = Ok (key', kl') →
  length keys = length vals →
  ∃ bs,
    Forall2 (fun kv b => elementBytes kv.1 kv.2 = Ok b) (zip keys vals) bs ∧
    key' = key ++ concat (pad4 <$> bs) ∧
    kl' = (kl + length (concat (pad4 <$> bs)))%nat.
Proof.
  induction keys as [|k keys IH]; intros [|v vals] key kl key' kl' Hrun Hlen;
    simpl in Hlen; try discriminate.
  - injection Hrun as <- <-. exists []. cbn.
    by rewrite app_nil_r, Nat.add_0_r.
  - cbn [concatLoop] in Hrun.
    destruct (processElementValue k v) as [ba|e] eqn:Hpe; [|discriminate].
    apply processElementValue_pad in Hpe as (b & Hb & ->).
    apply IH in Hrun as (bs & Hall & -> & ->); [|lia].
    exists (b :: bs). cbn [zip zip_with fmap list_fmap concat].
    split; [by constructor|].
    rewrite length_app, <- app_assoc.
    change (list_fmap _ _ pad4 bs) with (pad4 <$> bs). split; [done | lia].
Qed.

Lemma length_concat_pad4 (bs : list bytes) :
  (length (concat (pad4 <$> bs)) mod 4 = 0)%nat.
Proof.
  induction bs as [|b bs IH]; [reflexivity|].
  cbn [fmap list_fmap concat]. rewrite length_app, length_pad4.
  apply add_multiple4; [apply align4_multiple | exact IH].
Qed.

(** X4. The key of the element [MakeConcatElement] returns is the
    concatenation, in the order of the datatypes, of every component's
    encoding followed by the zero bytes that fill it up to a multiple
    of 4; the element carries the verdict of the action and neither a
    value nor the interval-end mark. *)
Theorem MakeConcatElement_key_bytes keys vals ra el :
  MakeConcatElement keys vals ra = Ok el →
  ∃ a bs,
    ra = Some a ∧
    Forall2 (fun kv b => elementBytes kv.1 kv.2 = Ok b) (zip keys vals) bs ∧
    el = mkSetElement (Some (concat (pad4 <$> bs))) None false (verdict a).
Proof.
  intros (a & key & kl & -> & Hne & Hlen & Hloop & ->)%MakeConcatElement_Ok_inv.
  apply concatLoop_bytes in Hloop as (bs & Hall & -> & ->); [|exact Hlen].
  exists a, bs. repeat split; [done|].
  cbn [app Nat.add]. do 2 f_equal.
  rewrite align4_fixed by apply length_concat_pad4.
  apply copy_same_length, length_make.
Qed.

Lemma MakeConcatElement_key_bytes_witness :
  ∃ a bs,
    Some (mkRuleAction (Some (mkVerdict 1 "input"))) = Some a ∧
    Forall2 (fun kv b => elementBytes kv.1 kv.2 = Ok b) (zip sampleKeys sampleVals) bs ∧
    mkSetElement (Some [192; 0; 2; 1; 31; 144; 0; 0; 2; 0; 0; 0; 0; 1; 0; 0]) None false
                 (Some (mkVerdict 1 "input"))
    = mkSetElement (Some (concat (pad4 <$> bs))) None false (verdict a).
Proof.
  apply (MakeConcatElement_key_bytes sampleKeys sampleVals).
  reflexivity.
Defined.

(** *** The key against the declared width *)

Lemma component_width keyT keyV b :
  elementBytes keyT keyV = Ok b → declaredWidth keyT keyV →
  Z.of_nat (align4 (length b)) = roundUp4 (Bytes keyT) ∧ 0 ≤ Bytes keyT < 2 ^ 32.
Proof.
  intros Hb (H4 & H6 & He).
  pose proof (elementBytes_length _ _ _ Hb) as Hl. rewrite Hl. clear Hl.
  revert Hb. unfold elementBytes, encodedLen.
  repeat case_decide; try discriminate; intros _; subst;
    try (split; [reflexivity | cbn; lia]).
  - match goal with H : _ ∨ _ |- _ => destruct H as [-> | ->] end.
    + rewrite H4 by done. split; [reflexivity | cbn; lia].
    + rewrite H6 by done. split; [reflexivity | cbn; lia].
  - rewrite He by done. split; [reflexivity | cbn; lia].
Qed.

Lemma components_width keys : ∀ vals bs,
  Forall2 (fun kv b => elementBytes kv.1 kv.2 = Ok b) (zip keys vals) bs →
  length keys = length vals →
  Forall2 declaredWidth keys vals →
  Z.of_nat (length (concat (pad4 <$> bs))) = sumWidths keys ∧
  Forall (fun t => 0 ≤ Bytes t < 2 ^ 32) keys.
Proof.
  induction keys as [|k keys IH]; intros [|v vals] bs Hall Hlen Hdecl;
    simpl in Hlen; try discriminate.
  - inversion Hall. split; [reflexivity | constructor].
  - cbn [zip zip_with] in Hall. inversion Hall as [|? b ? bs' Hb Hrest]; subst.
    apply Forall2_cons in Hdecl as [Hd Hdecl]. cbn [fst snd] in Hb.
    destruct (component_width _ _ _ Hb Hd) as [Hw Hbound].
    destruct (IH vals bs' Hrest ltac:(lia) Hdecl) as [Hsum Hbounds].
    split; [|by constructor].
    cbn [fmap list_fmap concat sumWidths foldr]. fold (sumWidths keys).
    rewrite length_app, length_pad4, Nat2Z.inj_add, Hw.
    change (list_fmap _ _ pad4 bs') with (pad4 <$> bs'). by rewrite Hsum.
Qed.

(** X5. When the addresses among the values have the widths their
    datatypes declare (4 bytes for IPv4, 16 for IPv6, 6 for a link-layer
    address) and the widths sum up below 2^32, the key of the element
    [MakeConcatElement] returns is as long as the composite datatype
    that [GenSetKeyType] derives from the same datatypes is wide. *)
Theorem MakeConcatElement_key_fits_GenSetKeyType keys vals ra el :
  MakeConcatElement keys vals ra = Ok el →
  Forall2 declaredWidth keys vals →
  sumWidths keys < 2 ^ 32 →
  Z.of_nat (len (Key el)) = Bytes (GenSetKeyType keys).
Proof.
  intros (a & key & kl & -> & Hne & Hlen & Hloop & ->)%MakeConcatElement_Ok_inv Hdecl Hsum.
  apply concatLoop_bytes in Hloop as (bs & Hall & -> & ->); [|exact Hlen].
  destruct (components_width keys vals bs Hall Hlen Hdecl) as [Hw Hbounds].
  rewrite GenSetKeyType_width by done.
  cbn [Key len app Nat.add].
  rewrite length_copy, length_make, align4_fixed by apply length_concat_pad4.
  rewrite Hw. symmetry. apply uint32_small. split; [|done].
  rewrite <- Hw. lia.
Qed.

Lemma MakeConcatElement_key_fits_GenSetKeyType_witness :
  Z.of_nat (len (Key sampleElement)) = Bytes (GenSetKeyType sampleKeys).
Proof.
  apply (MakeConcatElement_key_fits_GenSetKeyType sampleKeys sampleVals
           (Some (mkRuleAction None))).
  - reflexivity.
  - repeat constructor; intros [=].
  - reflexivity.
Defined.

(** ** The set store: CreateSet and Sync *)

(** X6. When [CreateSet] returns the set, the connection accepted both
    the add-set and the flush, and the store maps the name to that set,
    every other name to what it held, with the mutex released. When it
    returns an error the store is as it was: after a failed flush the
    add-set stays enqueued although no set was registered. *)
Theorem CreateSet_outcome conn attrs elements rnd nfs log r nfs' log' :
  CreateSet conn attrs elements rnd (nfs, log) = Done (r, (nfs', log')) →
  let s := CreateSet_s (stable nfs) attrs rnd in
  match r with
  | Ok s' =>
      s' = s ∧
      AddSet conn log s elements = None ∧
      Flush conn (log ++ [CallAddSet s elements]) = None ∧
      sets nfs' !! AName attrs = Some s ∧
      (∀ name, name ≠ AName attrs → sets nfs' !! name = sets nfs !! name) ∧
      smu nfs' = false ∧ stable nfs' = stable nfs ∧
      log' = log ++ [CallAddSet s elements; CallFlush]
  | Err e =>
      nfs' = nfs ∧
      ((AddSet conn log s elements = Some e ∧ log' = log ++ [CallAddSet s elements]) ∨
       (AddSet conn log s elements = None ∧
        Flush conn (log ++ [CallAddSet s elements]) = Some e ∧
        log' = log ++ [CallAddSet s elements; CallFlush]))
  end.
Proof.
  rewrite CreateSet_run. cbn zeta.
  destruct (AddSet conn log _ elements) as [e|] eqn:Hadd.
  { intros [= <- <- <-]. split; [done|]. by left. }
  destruct (Flush conn _) as [e|] eqn:Hflush.
  { intros [= <- <- <-]. split; [done|]. right. by rewrite <- app_assoc. }
  destruct (smu nfs); [discriminate|].
  intros [= <- <- <-]. cbn [sets smu stable].
  repeat split; try done.
  - apply lookup_insert_eq.
  - intros name Hne. by apply lookup_insert_ne.
  - by rewrite <- app_assoc.
Qed.

Lemma CreateSet_outcome_witness :
  let s := CreateSet_s v4Filter blockedNets 9 in
  s = s ∧
  AddSet kernelConn [] s userRange = None ∧
  Flush kernelConn ([] ++ [CallAddSet s userRange]) = None ∧
  sets (mknfSets v4Filter false {[ "blocked" := s ]}) !! "blocked" = Some s ∧
  (∀ name, name ≠ "blocked" →
     sets (mknfSets v4Filter false {[ "blocked" := s ]}) !! name
     = sets (newSets v4Filter) !! name) ∧
  smu (mknfSets v4Filter false {[ "blocked" := s ]}) = false ∧
  stable (mknfSets v4Filter false {[ "blocked" := s ]}) = stable (newSets v4Filter) ∧
  [CallAddSet s userRange; CallFlush] = [] ++ [CallAddSet s userRange; CallFlush].
Proof.
  apply (CreateSet_outcome kernelConn blockedNets userRange 9 (newSets v4Filter) []
           (Ok (CreateSet_s v4Filter blockedNets 9))).
  rewrite CreateSet_run. reflexivity.
Defined.

(** *** Sync of the set store *)

Lemma setsSyncLoop_known kernel nfs log :
  Forall (fun s => is_Some (sets nfs !! SName s)) kernel →
  setsSyncLoop kernel (nfs, log) = Done (None, (nfs, log)).
Proof.
  induction kernel as [|set kernel IH]; intros Hall; [reflexivity|].
  apply Forall_cons in Hall as [[s Hs] Hall].
  cbn [setsSyncLoop]. unfold bind at 1, getStore. cbn [fst].
  rewrite Hs. by apply IH.
Qed.

Lemma setsSyncLoop_unknown kernel nfs log :
  Exists (fun s => sets nfs !! SName s = None) kernel →
  ∃ set, set ∈ kernel ∧ sets nfs !! SName set = None ∧
    setsSyncLoop kernel (nfs, log) = Blocked (hungOn nfs set, log).
Proof.
  induction kernel as [|set kernel IH]; intros Hex; [by inversion Hex|].
  cbn [setsSyncLoop]. unfold bind at 1, getStore. cbn [fst].
  destruct (sets nfs !! SName set) as [s|] eqn:Hs.
  - destruct IH as (set' & Hin & Hnone & Hrun).
    { by inversion Hex; simplify_eq. }
    exists set'. split; [by apply list_elem_of_further|]. by split.
  - exists set. split; [apply list_elem_of_here|]. split; [exact Hs|].
    unfold bind, lockSets, storeSet, hungOn. cbn [fst snd].
    destruct nfs as [t [|] m]; reflexivity.
Qed.

Lemma setsSyncLoop_cases kernel nfs :
  Forall (fun s => is_Some (sets nfs !! SName s)) kernel ∨
  Exists (fun s => sets nfs !! SName s = None) kernel.
Proof.
  induction kernel as [|set kernel [IH|IH]]; [by left | | by right; right].
  destruct (sets nfs !! SName set) eqn:Hs; [left | right; by left].
  by constructor.
Qed.

Lemma SetsSync_Done_inv conn nfs log r nfs' log' :
  SetsSync conn (nfs, log) = Done (r, (nfs', log')) →
  nfs' = nfs ∧ log' = log ++ [CallGetSets (stable nfs)] ∧
  match GetSets conn log (stable nfs) with
  | Err e => r = Some e
  | Ok kernel => r = None ∧ Forall (fun s => is_Some (sets nfs !! SName s)) kernel
  end.
Proof.
  unfold SetsSync, bind, getStore, connCall. cbn [fst snd].
  destruct (GetSets conn log (stable nfs)) as [kernel|e].
  - destruct (setsSyncLoop_cases kernel nfs) as [Hall|Hex].
    + rewrite setsSyncLoop_known by done. by intros [= <- <- <-].
    + destruct (setsSyncLoop_unknown kernel nfs (log ++ [CallGetSets (stable nfs)]) Hex)
        as (set & _ & _ & ->).
      discriminate.
  - by intros [= <- <- <-].
Qed.

(** X7. Whenever [Sync] of the set store returns, the store is as it
    was: either listing the kernel's sets failed and that error is
    returned, or every set the kernel listed was already registered under
    its name. A [Sync] that returns has registered no set. *)
Theorem SetsSync_returns_unchanged conn nfs log r nfs' log' :
  SetsSync conn (nfs, log) = Done (r, (nfs', log')) →
  nfs' = nfs ∧ log' = log ++ [CallGetSets (stable nfs)] ∧
  match GetSets conn log (stable nfs) with
  | Err e => r = Some e
  | Ok kernel => r = None ∧ Forall (fun s => is_Some (sets nfs !! SName s)) kernel
  end.
Proof. apply SetsSync_Done_inv. Qed.

Lemma SetsSync_returns_unchanged_witness :
  mknfSets v4Filter true {[ "blocked" := CreateSet_s v4Filter blockedNets 7 ]}
  = mknfSets v4Filter true {[ "blocked" := CreateSet_s v4Filter blockedNets 7 ]} ∧
  [CallGetSets v4Filter] = [] ++ [CallGetSets v4Filter] ∧
  @None error = None ∧
  Forall (fun s => is_Some
            (sets (mknfSets v4Filter true {[ "blocked" := CreateSet_s v4Filter blockedNets 7 ]})
               !! SName s))
         [CreateSet_s v4Filter blockedNets 7].
Proof.
  apply (SetsSync_returns_unchanged kernelConnWithSet
           (mknfSets v4Filter true {[ "blocked" := CreateSet_s v4Filter blockedNets 7 ]}) []
           None).
  reflexivity.
Defined.

(** X8. When the kernel lists a set whose name the store does not hold,
    [Sync] of the set store takes its mutex twice and does not return,
    whether the mutex was free or not. From a free mutex it hangs after
    it has written one such set into the store, which stays there behind
    the held mutex; from a held mutex it hangs with the store untouched.
    The kernel was asked for its sets once. *)
Theorem SetsSync_blocks conn nfs log kernel set :
  GetSets conn log (stable nfs) = Ok kernel →
  set ∈ kernel →
  sets nfs !! SName set = None →
  ∃ set', set' ∈ kernel ∧ sets nfs !! SName set' = None ∧
    SetsSync conn (nfs, log)
    = Blocked (hungOn nfs set', log ++ [CallGetSets (stable nfs)]).
Proof.
  intros Hget Hin Hnone.
  unfold SetsSync, bind, getStore, connCall. cbn [fst snd]. rewrite Hget.
  apply setsSyncLoop_unknown, Exists_exists. eauto.
Qed.

Lemma SetsSync_blocks_witness :
  ∃ set', set' ∈ [CreateSet_s v4Filter blockedNets 7] ∧
    sets (newSets v4Filter) !! SName set' = None ∧
    SetsSync kernelConnWithSet (newSets v4Filter, [])
    = Blocked (hungOn (newSets v4Filter) set', [] ++ [CallGetSets (stable (newSets v4Filter))]).
Proof.
  apply (SetsSync_blocks kernelConnWithSet (newSets v4Filter) []
           [CreateSet_s v4Filter blockedNets 7] (CreateSet_s v4Filter blockedNets 7)).
  - reflexivity.
  - apply list_elem_of_here.
  - reflexivity.
Defined.

(** The same run written out: the store holds the kernel's set and its
    mutex is held. *)
Example SetsSync_blocked_store :
  SetsSync kernelConnWithSet (newSets v4Filter, [])
  = Blocked (mknfSets v4Filter true {[ "blocked" := CreateSet_s v4Filter blockedNets 7 ]},
             [CallGetSets v4Filter]).
Proof. vm_compute. reflexivity. Qed.

(** ** The table store: more of its behaviour *)

Section TableStoreMoreFacts.
Variable conn : NetNS.
Variable nfChains : Type.
Variable newChains : Table → nfChains.
Variable ChainsSync : M nfChains (option error).
Variable isEEXIST : error → bool.

Implicit Types tbls : gmap TableFamily (gmap string (nfTable nfChains)).
Implicit Types nft : nfTables nfChains.

Lemma Exist_run name fam nft log :
  Exist conn name fam (nft, log) =
  match lookupTable (tables nft) fam name with
  | Some _ => Done (true, (nft, log))
  | None =>
      match ListTables conn log with
      | Err _ => Done (false, (nft, log ++ [CallListTables]))
      | Ok kernel =>
          Done (existsb (fun table => bool_decide (table = name))
                        (TName <$> filter (fun t => Family t = fam) kernel),
                (nft, log ++ [CallListTables]))
      end
  end.
Proof.
  unfold Exist, get, bind, getStore, connCall, ret. cbn [fst snd].
  destruct (lookupTable (tables nft) fam name); [reflexivity|].
  cbn [fst snd]. destruct (ListTables conn log); reflexivity.
Qed.

Lemma listed_iff (kernel : list Table) name fam :
  existsb (fun table => bool_decide (table = name))
          (TName <$> filter (fun t => Family t = fam) kernel) = true
  ↔ mkTable fam name ∈ kernel.
Proof.
  rewrite existsb_exists. split.
  - intros (n & Hin & Hn). apply bool_decide_eq_true_1 in Hn. subst n.
    apply list_elem_of_In, list_elem_of_fmap in Hin as ([f n] & -> & Hin).
    apply list_elem_of_filter in Hin as [Hf Hin]. cbn in *. by subst f.
  - intros Hin. exists name. split; [|by apply bool_decide_eq_true_2].
    apply list_elem_of_In, list_elem_of_fmap. exists (mkTable fam name).
    split; [done|]. by apply list_elem_of_filter.
Qed.

(** X9. [Exist] always returns and never changes the store. With a
    record under [(familyType, name)] it answers [true] without asking
    the kernel; without one it lists the kernel's tables once and,
    when the listing succeeds, answers [true] exactly when the kernel
    lists a table of that family and name. *)
Theorem Exist_answer name fam nft log :
  ∃ b log',
    Exist conn name fam (nft, log) = Done (b, (nft, log')) ∧
    (is_Some (lookupTable (tables nft) fam name) → b = true ∧ log' = log) ∧
    (lookupTable (tables nft) fam name = None →
       log' = log ++ [CallListTables] ∧
       ∀ kernel, ListTables conn log = Ok kernel →
                 (b = true ↔ mkTable fam name ∈ kernel)).
Proof.
  rewrite Exist_run.
  destruct (lookupTable (tables nft) fam name) as [r|] eqn:Hl.
  - exists true, log. split; [done|]. split; [done|]. discriminate.
  - destruct (ListTables conn log) as [kernel|e].
    + eexists _, _. split; [reflexivity|]. split; [by intros [? [=]]|].
      intros _. split; [done|]. intros k [= <-]. apply listed_iff.
    + eexists _, _. split; [reflexivity|]. split; [by intros [? [=]]|].
      intros _. split; [done|]. discriminate.
Qed.

(** *** Buckets *)

Lemma allocTable_noEmptyBucket tbls name fam :
  (∀ f bucket, f ≠ fam → tbls !! f = Some bucket → bucket ≠ ∅) →
  noEmptyBucket (allocTable newChains name fam tbls).2.
Proof.
  intros Hinv f bucket. unfold allocTable. cbn [snd].
  destruct (decide (f = fam)) as [->|Hf].
  - rewrite lookup_insert_eq. intros [= <-]. apply insert_non_empty.
  - rewrite lookup_insert_ne by done. by apply Hinv.
Qed.

Lemma create_noEmptyBucket tbls name fam :
  noEmptyBucket tbls → noEmptyBucket (create newChains name fam tbls).2.
Proof.
  intros Hinv. unfold create.
  destruct (tbls !! fam) as [b|] eqn:Hb.
  - destruct (b !! name) as [t|];
      [destruct (_ && _); [exact Hinv|]|];
      apply allocTable_noEmptyBucket; intros f bucket _; apply Hinv.
  - apply allocTable_noEmptyBucket. intros f bucket Hf.
    rewrite lookup_insert_ne by done. apply Hinv.
Qed.

Lemma alter_noEmptyBucket tbls (g : nfTable nfChains → nfTable nfChains) f0 n0 :
  noEmptyBucket tbls → noEmptyBucket (alter (alter g n0) f0 tbls).
Proof.
  intros Hinv f bucket.
  destruct (decide (f = f0)) as [->|Hf].
  - rewrite lookup_alter_eq.
    destruct (tbls !! f0) as [b|] eqn:Hb; [|discriminate].
    intros [= <-] Hempty. apply (Hinv f0 b Hb).
    apply (f_equal dom) in Hempty. rewrite dom_alter_L, dom_empty_L in Hempty.
    by apply dom_empty_iff_L.
  - rewrite lookup_alter_ne by done. apply Hinv.
Qed.

Lemma onChains_noEmptyBucket {A} f0 n0 (m : M nfChains A) nft log a nft' log' :
  onChains nfChains f0 n0 m (nft, log) = Done (a, (nft', log')) →
  noEmptyBucket (tables nft) → noEmptyBucket (tables nft').
Proof.
  unfold onChains. cbn [fst snd].
  destruct (lookupTable (tables nft) f0 n0) as [[t [cs|] ss]|]; [|discriminate..].
  destruct (m (cs, log)) as [[a' [cs' l']]|[? ?]|]; [|discriminate..].
  intros [= <- <- <-]. cbn [tables]. apply alter_noEmptyBucket.
Qed.

Lemma onSets_noEmptyBucket {A} f0 n0 (m : M nfSets A) nft log a nft' log' :
  onSets nfChains f0 n0 m (nft, log) = Done (a, (nft', log')) →
  noEmptyBucket (tables nft) → noEmptyBucket (tables nft').
Proof.
  unfold onSets. cbn [fst snd].
  destruct (lookupTable (tables nft) f0 n0) as [[t cs [ss|]]|]; [|discriminate..].
  destruct (m (ss, log)) as [[a' [ss' l']]|[? ?]|]; [|discriminate..].
  intros [= <- <- <-]. cbn [tables]. apply alter_noEmptyBucket.
Qed.

Lemma syncLoop_noEmptyBucket fam kernel : ∀ nft log r nft' log',
  syncLoop conn newChains ChainsSync fam kernel (nft, log) = Done (r, (nft', log')) →
  noEmptyBucket (tables nft) → noEmptyBucket (tables nft').
Proof.
  induction kernel as [|t kernel IH]; intros nft log r nft' log' Hrun Hinv.
  - by injection Hrun as <- <- <-.
  - cbn [syncLoop] in Hrun.
    destruct (decide (Family t = fam)) as [Hfam|Hfam]; [|by eapply IH].
    apply bind_Done in Hrun as (nft0 & s0 & Hget & Hrun).
    injection Hget as <- <-. cbn [fst] in Hrun.
    destruct (lookupTable (tables nft) fam (TName t)); [by eapply IH|].
    apply bind_Done in Hrun as (nt & [nft1 log1] & Hcreate & Hrun).
    unfold createM in Hcreate. cbn [fst snd] in Hcreate.
    pose proof (create_noEmptyBucket (tables nft) (TName t) (Family t) Hinv) as H1.
    destruct (create newChains (TName t) (Family t) (tables nft)) as [nt' tbls1].
    injection Hcreate as <- <- <-. cbn [snd] in H1.
    apply bind_Done in Hrun as (err & [nft2 log2] & Hchains & Hrun).
    apply onChains_noEmptyBucket in Hchains; [|exact H1].
    destruct err as [e|]; [by injection Hrun as <- <- <-|].
    apply bind_Done in Hrun as (err & [nft3 log3] & Hsets & Hrun).
    apply onSets_noEmptyBucket in Hsets; [|exact Hchains].
    destruct err as [e|]; [by injection Hrun as <- <- <-|].
    by eapply IH.
Qed.

Lemma CreateImm_run name fam nft log :
  mu nft = false →
  let c := create newChains name fam (tables nft) in
  let log1 := log ++ [CallAddTable (table c.1)] in
  CreateImm conn newChains isEEXIST name fam (nft, log) =
  Done (match Flush conn log1 with
        | Some e => if isEEXIST e then None else Some e
        | None => None
        end,
        (mknfTables false c.2, log1 ++ [CallFlush])).
Proof.
  intros Hmu. unfold CreateImm, bind, lockTables, createM, connCall, unlockTables, ret.
  cbn [fst snd]. rewrite Hmu. cbn [fst snd tables mu].
  destruct (create newChains name fam (tables nft)) as [nt tbls1]. cbn [fst snd tables mu].
  destruct (Flush conn _) as [e'|]; [|reflexivity].
  destruct (isEEXIST e'); reflexivity.
Qed.

Lemma Sync_Done_inv fam nft log r nft' log' :
  Sync conn newChains ChainsSync fam (nft, log) = Done (r, (nft', log')) →
  mu nft = false ∧
  match ListTables conn log with
  | Err e => r = Some e ∧ nft' = mknfTables true (tables nft) ∧ log' = log ++ [CallListTables]
  | Ok kernel =>
      syncLoop conn newChains ChainsSync fam kernel
        (mknfTables false (tables nft), log ++ [CallListTables]) = Done (r, (nft', log'))
  end.
Proof.
  unfold Sync. intros Hrun.
  apply bind_Done in Hrun as ([] & [nft1 log1] & Hlock & Hrun).
  unfold lockTables in Hlock. cbn [fst snd] in Hlock.
  destruct (mu nft); [discriminate|]. injection Hlock as <- <-. split; [done|].
  apply bind_Done in Hrun as (res & [nft2 log2] & Hlist & Hrun).
  unfold connCall in Hlist. cbn [fst snd] in Hlist. injection Hlist as <- <- <-.
  destruct (ListTables conn log) as [kernel|e].
  - apply bind_Done in Hrun as ([] & [nft3 log3] & Hunlock & Hrun).
    unfold unlockTables in Hunlock. cbn [fst snd tables] in Hunlock.
    by injection Hunlock as <- <-.
  - by injection Hrun as <- <- <-.
Qed.

(** X10. No family of the registry maps to an empty bucket: [Create],
    [CreateImm] and [Sync] keep it so whenever they return. *)
Theorem registry_buckets_not_empty name fam nft log r nft' log' :
  noEmptyBucket (tables nft) →
  Create newChains name fam (nft, log) = Done (r, (nft', log')) ∨
  CreateImm conn newChains isEEXIST name fam (nft, log) = Done (r, (nft', log')) ∨
  Sync conn newChains ChainsSync fam (nft, log) = Done (r, (nft', log')) →
  noEmptyBucket (tables nft').
Proof.
  intros Hinv [Hrun | [Hrun | Hrun]].
  - destruct (mu nft) eqn:Hmu.
    { unfold Create, bind, lockTables in Hrun. cbn [fst] in Hrun. by rewrite Hmu in Hrun. }
    rewrite Create_run in Hrun by done. injection Hrun as <- <- <-.
    by apply create_noEmptyBucket.
  - destruct (mu nft) eqn:Hmu.
    { unfold CreateImm, bind, lockTables in Hrun. cbn [fst] in Hrun. by rewrite Hmu in Hrun. }
    rewrite CreateImm_run in Hrun by done. injection Hrun as <- <- <-.
    by apply create_noEmptyBucket.
  - apply Sync_Done_inv in Hrun as [_ Hrun].
    destruct (ListTables conn log) as [kernel|e].
    + by apply syncLoop_noEmptyBucket in Hrun.
    + by destruct Hrun as (_ & -> & _).
Qed.

(** X11. When listing the kernel's tables fails, [Sync] returns that
    error with the mutex of the store still held, the registry as it
    was: every [Create], [CreateImm], [Get] and [Sync] on the store it
    leaves blocks. *)
Theorem Sync_listing_error_holds_mutex fam nft log e :
  mu nft = false →
  ListTables conn log = Err e →
  Sync conn newChains ChainsSync fam (nft, log)
  = Done (Some e, (mknfTables true (tables nft), log ++ [CallListTables])) ∧
  ∀ name fam' log',
    Create newChains name fam' (mknfTables true (tables nft), log')
    = Blocked (mknfTables true (tables nft), log') ∧
    CreateImm conn newChains isEEXIST name fam' (mknfTables true (tables nft), log')
    = Blocked (mknfTables true (tables nft), log') ∧
    Get conn fam' (mknfTables true (tables nft), log')
    = Blocked (mknfTables true (tables nft), log') ∧
    Sync conn newChains ChainsSync fam' (mknfTables true (tables nft), log')
    = Blocked (mknfTables true (tables nft), log').
Proof.
  intros Hmu He. split.
  - unfold Sync, bind, lockTables, connCall, ret. cbn [fst snd].
    rewrite Hmu. cbn [fst snd]. by rewrite He.
  - intros name fam' log'. repeat split; reflexivity.
Qed.

(** *** The records Sync adds *)

Lemma lookupTable_alter_eq tbls (g : nfTable nfChains → nfTable nfChains) f0 n0 :
  lookupTable (alter (alter g n0) f0 tbls) f0 n0 = g <$> lookupTable tbls f0 n0.
Proof.
  unfold lookupTable. rewrite lookup_alter_eq.
  destruct (tbls !! f0) as [bucket|]; [|reflexivity].
  cbn. apply lookup_alter_eq.
Qed.

Lemma onChains_at {A} f0 n0 (m : M nfChains A) nft log a nft' log' r :
  onChains nfChains f0 n0 m (nft, log) = Done (a, (nft', log')) →
  lookupTable (tables nft) f0 n0 = Some r →
  ∃ cs', lookupTable (tables nft') f0 n0 = Some (mknfTable (table r) (Some cs') (SetsInterface r)).
Proof.
  unfold onChains. cbn [fst snd]. intros Hrun Hr. rewrite Hr in Hrun.
  destruct r as [t [cs|] ss]; [|discriminate].
  destruct (m (cs, log)) as [[a' [cs' l']]|[? ?]|]; [|discriminate..].
  injection Hrun as <- <- <-. exists cs'. cbn [tables].
  by rewrite lookupTable_alter_eq, Hr.
Qed.

Lemma onSets_SetsSync_at f0 n0 nft log a nft' log' r :
  onSets nfChains f0 n0 (SetsSync conn) (nft, log) = Done (a, (nft', log')) →
  lookupTable (tables nft) f0 n0 = Some r →
  lookupTable (tables nft') f0 n0 = Some r.
Proof.
  unfold onSets. cbn [fst snd]. intros Hrun Hr. rewrite Hr in Hrun.
  destruct r as [t cs [ss|]]; [|discriminate].
  destruct (SetsSync conn (ss, log)) as [[a' [ss' l']]|[? ?]|] eqn:Hs; [|discriminate..].
  apply SetsSync_Done_inv in Hs as (-> & _).
  injection Hrun as <- <- <-. cbn [tables].
  by rewrite lookupTable_alter_eq, Hr.
Qed.

Lemma create_absent tbls name fam :
  lookupTable tbls fam name = None →
  (create newChains name fam tbls).1
  = mknfTable (mkTable fam name) (Some (newChains (mkTable fam name)))
              (Some (newSets (mkTable fam name))).
Proof.
  unfold lookupTable, create. intros Hl.
  destruct (tbls !! fam) as [bucket|]; [|reflexivity].
  cbn in Hl. by rewrite Hl.
Qed.

Lemma syncLoop_fresh fam kernel : ∀ nft log r nft' log',
  syncLoop conn newChains ChainsSync fam kernel (nft, log) = Done (r, (nft', log')) →
  ∀ f n rec,
    lookupTable (tables nft) f n = None →
    lookupTable (tables nft') f n = Some rec →
    freshRecord f n rec.
Proof.
  induction kernel as [|t kernel IH]; intros nft log r nft' log' Hrun f n rec Hn Hrec.
  - injection Hrun as <- <- <-. congruence.
  - cbn [syncLoop] in Hrun.
    destruct (decide (Family t = fam)) as [Hfam|Hfam]; [subst fam|by eapply IH].
    apply bind_Done in Hrun as (nft0 & s0 & Hget & Hrun).
    injection Hget as <- <-. cbn [fst] in Hrun.
    destruct (lookupTable (tables nft) (Family t) (TName t)) eqn:Habsent; [by eapply IH|].
    apply bind_Done in Hrun as (nt & [nft1 log1] & Hcreate & Hrun).
    unfold createM in Hcreate. cbn [fst snd] in Hcreate.
    pose proof (lookupTable_create _ newChains (tables nft) (TName t) (Family t)) as Hl1.
    pose proof (create_absent (tables nft) (TName t) (Family t) Habsent) as Hfresh.
    destruct (create newChains (TName t) (Family t) (tables nft)) as [nt' tbls1].
    injection Hcreate as <- <- <-. cbn [fst snd] in Hl1, Hfresh. subst nt'.
    apply bind_Done in Hrun as (err & [nft2 log2] & Hchains & Hrun).
    pose proof (onChains_frame _ _ _ _ _ _ _ _ _ Hchains) as Hl2. cbn [tables] in Hl2.
    destruct (onChains_at _ _ _ _ _ _ _ _ _ Hchains
                ltac:(cbn [tables]; rewrite Hl1; by rewrite decide_True)) as [cs' Hkey2].
    cbn [table SetsInterface] in Hkey2.
    assert (∀ nft3,
              (∀ f n, ¬ (f = Family t ∧ n = TName t) →
                      lookupTable (tables nft3) f n = lookupTable (tables nft2) f n) →
              lookupTable (tables nft3) (Family t) (TName t)
              = lookupTable (tables nft2) (Family t) (TName t) →
              lookupTable (tables nft3) f n = Some rec → freshRecord f n rec) as Hdone.
    { intros nft3 Hother Hsame Hrec3.
      destruct (decide (f = Family t ∧ n = TName t)) as [[-> ->]|Hk].
      - rewrite Hsame, Hkey2 in Hrec3. injection Hrec3 as <-.
        by repeat split.
      - rewrite Hother, Hl2, Hl1, decide_False in Hrec3 by done. congruence. }
    destruct err as [e|].
    { injection Hrun as <- <- <-. by apply (Hdone nft2). }
    apply bind_Done in Hrun as (err & [nft3 log3] & Hsets & Hrun).
    pose proof (onSets_frame _ _ _ _ _ _ _ _ _ Hsets) as Hl3.
    pose proof (onSets_SetsSync_at _ _ _ _ _ _ _ _ Hsets Hkey2) as Hkey3.
    destruct err as [e|].
    { injection Hrun as <- <- <-. apply (Hdone nft3); [done | by rewrite Hkey3 | done]. }
    destruct (lookupTable (tables nft3) f n) as [rec3|] eqn:H3.
    + apply (syncLoop_grows _ _ _ _ _ _ _ _ _ _ _ Hrun) in H3 as H3'.
      rewrite Hrec in H3'. injection H3' as ->.
      apply (Hdone nft3); [done | by rewrite Hkey3 | done].
    + by eapply IH.
Qed.

(** X12. Whenever [Sync] returns, a record the registry holds only
    afterwards stands for the table it is registered under, has a chain
    store, and has the set store [newSets] built, empty and unlocked: a
    [Sync] that returns has taken over no set of the kernel. *)
Theorem Sync_fresh_records fam nft log r nft' log' f n rec :
  Sync conn newChains ChainsSync fam (nft, log) = Done (r, (nft', log')) →
  lookupTable (tables nft) f n = None →
  lookupTable (tables nft') f n = Some rec →
  freshRecord f n rec.
Proof.
  intros Hrun Hn Hrec. apply Sync_Done_inv in Hrun as [_ Hrun].
  destruct (ListTables conn log) as [kernel|e].
  - by eapply syncLoop_fresh.
  - destruct Hrun as (_ & -> & _). cbn [tables] in Hrec. congruence.
Qed.

(** *** Access after Create *)

Lemma TableChains_run name fam nft log :
  mu nft = false →
  TableChains name fam (nft, log) =
  Done (match lookupTable (tables nft) fam name with
        | Some t => Ok (ChainsInterface t)
        | None => Err (errTableNotExist name fam)
        end, (nft, log)).
Proof.
  intros Hmu. unfold TableChains, bind, lockTables, getStore, unlockTables, ret.
  cbn [fst snd]. rewrite Hmu. cbn [fst snd tables].
  destruct nft as [m tbls]. cbn in Hmu. subst m.
  destruct (lookupTable _ fam name); reflexivity.
Qed.

Lemma TableSets_run name fam nft log :
  mu nft = false →
  TableSets name fam (nft, log) =
  Done (match lookupTable (tables nft) fam name with
        | Some t => Ok (SetsInterface t)
        | None => Err (errTableNotExist name fam)
        end, (nft, log)).
Proof.
  intros Hmu. unfold TableSets, bind, lockTables, getStore, unlockTables, ret.
  cbn [fst snd]. rewrite Hmu. cbn [fst snd tables].
  destruct nft as [m tbls]. cbn in Hmu. subst m.
  destruct (lookupTable _ fam name); reflexivity.
Qed.

(** X13. On a store whose mutex is free, [TableChains] and [TableSets]
    change nothing; they return the stores of the record registered under
    [(familyType, name)], and the does-not-exist error when there is none.
    After [Create] of that table both return a store that is not nil. *)
Theorem access_after_Create name fam nft log :
  mu nft = false →
  (lookupTable (tables nft) fam name = None →
     TableChains name fam (nft, log) = Done (Err (errTableNotExist name fam), (nft, log)) ∧
     TableSets name fam (nft, log) = Done (Err (errTableNotExist name fam), (nft, log))) ∧
  ∃ nft1 log1 cs ss,
    Create newChains name fam (nft, log) = Done (None, (nft1, log1)) ∧
    TableChains name fam (nft1, log1) = Done (Ok (Some cs), (nft1, log1)) ∧
    TableSets name fam (nft1, log1) = Done (Ok (Some ss), (nft1, log1)).
Proof.
  intros Hmu. split.
  - intros Hl. by rewrite TableChains_run, TableSets_run, Hl.
  - rewrite Create_run by done.
    pose proof (lookupTable_create _ newChains (tables nft) name fam fam name) as Hl.
    rewrite decide_True in Hl by done.
    pose proof (create_initialised _ newChains (tables nft) name fam) as [Hc Hs].
    destruct (create newChains name fam (tables nft)) as [r tbls1].
    cbn [fst snd] in *.
    destruct r as [t [cs|] [ss|]]; try done.
    eexists _, _, cs, ss. split; [reflexivity|].
    rewrite TableChains_run, TableSets_run by done. cbn [tables]. by rewrite Hl.
Qed.

(** X14. On a store whose mutex is free, [CreateImm] registers the table
    as [Create] does, enqueues the add-table and flushes, and leaves the
    record registered whatever the flush answers: it returns nil when the
    flush succeeds or fails because the table exists already, and the
    error of the flush otherwise. *)
Theorem CreateImm_outcome name fam nft log :
  mu nft = false →
  ∃ r nft1 log1 err,
    Create newChains name fam (nft, log) = Done (None, (nft1, log1)) ∧
    CreateImm conn newChains isEEXIST name fam (nft, log)
    = Done (err, (nft1, log1 ++ [CallFlush])) ∧
    lookupTable (tables nft1) fam name = Some r ∧
    log1 = log ++ [CallAddTable (table r)] ∧
    match Flush conn log1 with
    | None => err = None
    | Some e => err = if isEEXIST e then None else Some e
    end.
Proof.
  intros Hmu. rewrite Create_run, CreateImm_run by done. cbn zeta.
  pose proof (lookupTable_create _ newChains (tables nft) name fam fam name) as Hl.
  rewrite decide_True in Hl by done.
  exists (create newChains name fam (tables nft)).1. eexists _, _, _.
  split; [reflexivity|]. split; [reflexivity|]. split; [exact Hl|]. split; [done|].
  by destruct (Flush conn _).
Qed.

(** X15. On a store whose mutex is free, [Get] leaves the store as it
    was and answers from the kernel alone: the error of the listing, or
    the names of the kernel's tables of the family in the kernel's order,
    whatever the registry holds. *)
Theorem Get_lists_kernel fam nft log :
  mu nft = false →
  ∃ r,
    Get conn fam (nft, log) = Done (r, (nft, log ++ [CallListTables])) ∧
    match ListTables conn log with
    | Err e => r = Err e
    | Ok kernel =>
        ∃ names, r = Ok names ∧
          names = TName <$> filter (fun t => Family t = fam) kernel ∧
          ∀ name, name ∈ names ↔ mkTable fam name ∈ kernel
    end.
Proof.
  intros Hmu. unfold Get, get, bind, lockTables, connCall, unlockTables, ret.
  cbn [fst snd]. rewrite Hmu. cbn [fst snd tables].
  destruct nft as [m tbls]. cbn in Hmu. subst m.
  destruct (ListTables conn log) as [kernel|e]; cbn [fst snd tables];
    eexists; (split; [reflexivity|]); [|done].
  eexists. split; [reflexivity|]. split; [reflexivity|].
  intros name. rewrite list_elem_of_fmap. split.
  - intros ([f n] & -> & [Hf Hin]%list_elem_of_filter). cbn in *. by subst f.
  - intros Hin. exists (mkTable fam name). split; [done|]. by apply list_elem_of_filter.
Qed.
(** *** Sync on a table whose sets the kernel lists *)

(** X29. The kernel lists first a table of the synced family that the
    registry does not hold, chain [Sync] on the new record returns nil,
    and the kernel lists at least one set for the table: [Sync] does not
    return. It hangs in the set store of the record it has just
    registered, after the one listing of tables and the one listing of
    sets; the record is in the registry, with the chain store as chain
    [Sync] left it and a set store that holds exactly one of the
    kernel's sets behind its locked mutex. The mutex of the table store
    is free and every other record is as it was. *)
Theorem Sync_hangs_holding_kernel_set fam name nft log rest cs' log2 kernelSets :
  mu nft = false →
  ListTables conn log = Ok (mkTable fam name :: rest) →
  lookupTable (tables nft) fam name = None →
  ChainsSync (newChains (mkTable fam name), log ++ [CallListTables])
  = Done (None, (cs', log2)) →
  GetSets conn log2 (mkTable fam name) = Ok kernelSets →
  kernelSets ≠ [] →
  ∃ set nft',
    set ∈ kernelSets ∧
    Sync conn newChains ChainsSync fam (nft, log)
    = Blocked (nft', log2 ++ [CallGetSets (mkTable fam name)]) ∧
    mu nft' = false ∧
    lookupTable (tables nft') fam name
    = Some (mknfTable (mkTable fam name) (Some cs')
              (Some (mknfSets (mkTable fam name) true {[ SName set := set ]}))) ∧
    ∀ f n, ¬ (f = fam ∧ n = name) →
           lookupTable (tables nft') f n = lookupTable (tables nft) f n.
Proof.
  intros Hmu Hlist Habsent Hchains Hsets Hne.
  destruct (setsSyncLoop_unknown kernelSets (newSets (mkTable fam name))
              (log2 ++ [CallGetSets (mkTable fam name)])) as (set & Hin & _ & Hloop).
  { destruct kernelSets as [|s0 ks]; [done|]. by left. }
  pose proof (lookupTable_create _ newChains (tables nft) name fam) as Hl1.
  pose proof (create_absent (tables nft) name fam Habsent) as Hfresh.
  destruct (create newChains name fam (tables nft)) as [nt tbls1] eqn:Hcr.
  cbn [fst snd] in Hl1, Hfresh. subst nt.
  pose proof (Hl1 fam name) as Hkey1. rewrite decide_True in Hkey1 by done.
  eexists set, _. split; [exact Hin|]. split.
  - unfold Sync. unfold bind at 1, lockTables. cbn [fst snd]. rewrite Hmu.
    unfold bind at 1, connCall. cbn [fst snd]. rewrite Hlist.
    unfold bind at 1, unlockTables. cbn [fst snd tables].
    cbn [syncLoop Family TName]. rewrite decide_True by done.
    unfold bind at 1, getStore. cbn [fst snd tables]. rewrite Habsent.
    unfold bind at 1, createM. cbn [fst snd tables mu]. rewrite Hcr.
    unfold bind at 1, onChains. cbn [fst snd tables mu]. rewrite Hkey1, Hchains.
    unfold bind at 1, onSets. cbn [fst snd tables mu].
    rewrite lookupTable_alter_eq, Hkey1. cbn [fmap option_fmap option_map].
    unfold SetsSync at 1. unfold bind at 1, getStore. cbn [fst snd].
    unfold bind at 1, connCall. cbn [fst snd stable newSets]. rewrite Hsets.
    change (mknfSets (mkTable fam name) false ∅) with (newSets (mkTable fam name)).
    rewrite Hloop. reflexivity.
  - cbn [mu tables]. split; [reflexivity|]. split.
    + rewrite lookupTable_alter_eq, lookupTable_alter_eq, Hkey1.
      cbn [fmap option_fmap option_map]. unfold hungOn. cbn [smu newSets stable sets].
      by rewrite insert_empty.
    + intros f n Hk. rewrite !lookupTable_alter by done.
      rewrite Hl1. by rewrite decide_False.
Qed.

End TableStoreMoreFacts.

Lemma registry_buckets_not_empty_witness :
  ∃ nft', Sync kernelConn noChains noChainsSync TableFamilyIPv4 (localOnly, [])
          = Done (None, (nft', [CallListTables; CallGetSets (mkTable TableFamilyIPv4 "kernel-only")])) ∧
          noEmptyBucket (tables nft').
Proof.
  eexists. split; [vm_compute; reflexivity|].
  eapply (registry_buckets_not_empty kernelConn unit noChains noChainsSync sampleIsEEXIST
            "kernel-only" TableFamilyIPv4 localOnly [] None).
  - apply create_noEmptyBucket. intros f b. by rewrite lookup_empty.
  - right. right. vm_compute. reflexivity.
Defined.

Lemma Sync_hangs_holding_kernel_set_witness :
  ∃ set nft',
    set ∈ [CreateSet_s (mkTable TableFamilyIPv4 "kernel-only") blockedNets 7] ∧
    Sync kernelConnWithSet noChains noChainsSync TableFamilyIPv4 (emptyStore, [])
    = Blocked (nft', [CallListTables]
                      ++ [CallGetSets (mkTable TableFamilyIPv4 "kernel-only")]) ∧
    mu nft' = false ∧
    lookupTable (tables nft') TableFamilyIPv4 "kernel-only"
    = Some (mknfTable (mkTable TableFamilyIPv4 "kernel-only") (Some tt)
              (Some (mknfSets (mkTable TableFamilyIPv4 "kernel-only") true
                       {[ SName set := set ]}))) ∧
    ∀ f n, ¬ (f = TableFamilyIPv4 ∧ n = "kernel-only") →
           lookupTable (tables nft') f n = lookupTable (tables emptyStore) f n.
Proof.
  apply (Sync_hangs_holding_kernel_set kernelConnWithSet unit noChains noChainsSync
           TableFamilyIPv4 "kernel-only" emptyStore [] [] tt [CallListTables]
           [CreateSet_s (mkTable TableFamilyIPv4 "kernel-only") blockedNets 7]).
  - reflexivity.
  - reflexivity.
  - reflexivity.
  - reflexivity.
  - reflexivity.
  - discriminate.
Defined.

Lemma Sync_listing_error_holds_mutex_witness :
  Sync downConn noChains noChainsSync TableFamilyIPv4 (localOnly, [])
  = Done (Some "netlink receive: operation not permitted",
          (mknfTables true (tables localOnly), [] ++ [CallListTables])) ∧
  Create noChains "filter-v4" TableFamilyIPv4
    (mknfTables true (tables localOnly), [CallListTables])
  = Blocked (mknfTables true (tables localOnly), [CallListTables]).
Proof.
  destruct (Sync_listing_error_holds_mutex downConn unit noChains noChainsSync sampleIsEEXIST
              TableFamilyIPv4 localOnly [] "netlink receive: operation not permitted"
              eq_refl eq_refl) as [Hsync Hafter].
  split; [exact Hsync|].
  apply (Hafter "filter-v4" TableFamilyIPv4 [CallListTables]).
Defined.

Lemma Sync_fresh_records_witness :
  ∃ rec,
    lookupTable (tables (mknfTables false
       (create noChains "kernel-only" TableFamilyIPv4 (tables localOnly)).2))
       TableFamilyIPv4 "kernel-only" = Some rec ∧
    freshRecord TableFamilyIPv4 "kernel-only" rec.
Proof.
  eexists. split; [vm_compute; reflexivity|].
  eapply (Sync_fresh_records kernelConn unit noChains noChainsSync TableFamilyIPv4
            localOnly [] None _ _ TableFamilyIPv4 "kernel-only").
  - vm_compute. reflexivity.
  - vm_compute. reflexivity.
  - vm_compute. reflexivity.
Defined.

Lemma access_after_Create_witness :
  ∃ nft1 log1 cs ss,
    Create noChains "filter-v4" TableFamilyIPv4 (emptyStore, []) = Done (None, (nft1, log1)) ∧
    TableChains "filter-v4" TableFamilyIPv4 (nft1, log1) = Done (Ok (Some cs), (nft1, log1)) ∧
    TableSets "filter-v4" TableFamilyIPv4 (nft1, log1) = Done (Ok (Some ss), (nft1, log1)).
Proof.
  apply (access_after_Create unit noChains "filter-v4" TableFamilyIPv4 emptyStore []).
  reflexivity.
Defined.

Lemma CreateImm_outcome_witness :
  ∃ r nft1 log1 err,
    Create noChains "filter-v4" TableFamilyIPv4 (emptyStore, []) = Done (None, (nft1, log1)) ∧
    CreateImm existsConn noChains sampleIsEEXIST "filter-v4" TableFamilyIPv4 (emptyStore, [])
    = Done (err, (nft1, log1 ++ [CallFlush])) ∧
    lookupTable (tables nft1) TableFamilyIPv4 "filter-v4" = Some r ∧
    log1 = [] ++ [CallAddTable (table r)] ∧
    match Flush existsConn log1 with
    | None => err = None
    | Some e => err = if sampleIsEEXIST e then None else Some e
    end.
Proof.
  apply (CreateImm_outcome existsConn unit noChains sampleIsEEXIST
           "filter-v4" TableFamilyIPv4 emptyStore []).
  reflexivity.
Defined.

Lemma Get_lists_kernel_witness :
  ∃ r,
    Get kernelConn TableFamilyIPv4 (localOnly, [])
    = Done (r, (localOnly, [] ++ [CallListTables])) ∧
    match ListTables kernelConn [] with
    | Err e => r = Err e
    | Ok kernel =>
        ∃ names, r = Ok names ∧
          names = TName <$> filter (fun t => Family t = TableFamilyIPv4) kernel ∧
          ∀ name, name ∈ names ↔ mkTable TableFamilyIPv4 name ∈ kernel
    end.
Proof.
  apply (Get_lists_kernel kernelConn unit TableFamilyIPv4 localOnly []).
  reflexivity.
Defined.

Lemma Exist_answer_witness :
  ∃ b log',
    Exist kernelConn "kernel-only" TableFamilyIPv4 (emptyStore, []) = Done (b, (emptyStore, log')) ∧
    (is_Some (lookupTable (tables emptyStore) TableFamilyIPv4 "kernel-only") →
       b = true ∧ log' = []) ∧
    (lookupTable (tables emptyStore) TableFamilyIPv4 "kernel-only" = None →
       log' = [] ++ [CallListTables] ∧
       ∀ kernel, ListTables kernelConn [] = Ok kernel →
                 (b = true ↔ mkTable TableFamilyIPv4 "kernel-only" ∈ kernel)).
Proof.
  exact (Exist_answer kernelConn unit "kernel-only" TableFamilyIPv4 emptyStore []).
Defined.

(** ** The set store against the whole connection *)

Section SetStoreWideFacts.
Variable conn : WNetNS.

Lemma plain_lockSets nfs log :
  plain conn (fun _ => lockSets) (nfs, log) =
  if smu nfs then Blocked (nfs, log)
  else Done (tt, (mknfSets (stable nfs) true (sets nfs), log)).
Proof.
  unfold plain, lockSets. cbn [fst snd].
  destruct (smu nfs); cbn; by rewrite app_nil_r.
Qed.

Lemma plain_unlockSets nfs log :
  plain conn (fun _ => unlockSets) (nfs, log) =
  Done (tt, (mknfSets (stable nfs) false (sets nfs), log)).
Proof. unfold plain, unlockSets. cbn. by rewrite app_nil_r. Qed.

Lemma SetsExist_run name nfs log :
  smu nfs = false →
  SetsExist conn name (nfs, log) =
  match sets nfs !! name with
  | None => Done (false, (nfs, log))
  | Some _ =>
      Done (is_Ok (WGetSetByName conn log (stable nfs) name),
            (nfs, log ++ [CallGetSetByName (stable nfs) name]))
  end.
Proof.
  intros Hmu. unfold SetsExist, wbind at 1. rewrite plain_lockSets, Hmu.
  unfold wbind at 1, wgetStore. cbn [fst snd sets stable].
  unfold wbind at 1. rewrite plain_unlockSets. cbn [sets stable].
  destruct nfs as [t m ss]. cbn in Hmu. subst m. cbn [sets stable].
  destruct (ss !! name); [|reflexivity].
  unfold wbind, wcall, wret. cbn [fst snd].
  destruct (WGetSetByName conn log t name); reflexivity.
Qed.

Lemma SetsExist_locked name nfs log :
  smu nfs = true → SetsExist conn name (nfs, log) = Blocked (nfs, log).
Proof.
  intros Hmu. unfold SetsExist, wbind at 1. by rewrite plain_lockSets, Hmu.
Qed.

(** X16. On a store whose mutex is free, [Exist] of the set store
    leaves the store as it was. For a name the store does not hold it
    answers [false] without asking the kernel; for a name it holds it asks
    the kernel once and answers [true] exactly when that lookup succeeds.
    With the mutex held it does not return. *)
Theorem SetsExist_answer name nfs log :
  (smu nfs = true → SetsExist conn name (nfs, log) = Blocked (nfs, log)) ∧
  (smu nfs = false →
   ∃ b log',
     SetsExist conn name (nfs, log) = Done (b, (nfs, log')) ∧
     (sets nfs !! name = None → b = false ∧ log' = log) ∧
     (is_Some (sets nfs !! name) →
        log' = log ++ [CallGetSetByName (stable nfs) name] ∧
        (b = true ↔ ∃ s, WGetSetByName conn log (stable nfs) name = Ok s))).
Proof.
  split; [apply SetsExist_locked|].
  intros Hmu. rewrite SetsExist_run by done.
  destruct (sets nfs !! name) as [s|].
  - eexists _, _. split; [reflexivity|]. split; [discriminate|].
    intros _. split; [done|].
    destruct (WGetSetByName conn log (stable nfs) name); cbn; naive_solver.
  - exists false, log. split; [done|]. split; [done|]. by intros [? [=]].
Qed.

(** Every path of [DelSet] on a store whose mutex is free. *)
Lemma DelSet_run name nfs log :
  smu nfs = false →
  DelSet conn name (nfs, log) =
  match sets nfs !! name with
  | None => Done (None, (nfs, log))
  | Some s =>
      let log1 := log ++ [CallGetSetByName (stable nfs) name] in
      match WGetSetByName conn log (stable nfs) name with
      | Err _ => Done (None, (nfs, log1))
      | Ok _ =>
          let log2 := log1 ++ [CallDelSet (Some s)] in
          match WFlush conn log2 with
          | Some e => Done (Some e, (nfs, log2 ++ [Plain CallFlush]))
          | None =>
              Done (None, (mknfSets (stable nfs) false (delete name (sets nfs)),
                           log2 ++ [Plain CallFlush]))
          end
      end
  end.
Proof.
  intros Hmu. unfold DelSet, wbind at 1. rewrite SetsExist_run by done.
  destruct (sets nfs !! name) as [s|] eqn:Hs; [|reflexivity].
  destruct (WGetSetByName conn log (stable nfs) name); [|reflexivity].
  cbn [is_Ok]. unfold wbind at 1, wgetStore. cbn [fst snd]. rewrite Hs.
  unfold wbind at 1, wcall at 1. cbn [fst snd].
  unfold wbind at 1, wcall at 1. cbn [fst snd].
  destruct (WFlush conn _); [reflexivity|].
  unfold wbind at 1. rewrite plain_lockSets, Hmu.
  unfold wbind at 1, dropSet. cbn [fst snd sets stable smu].
  unfold wbind at 1. rewrite plain_unlockSets. reflexivity.
Qed.


Lemma GetSetElements_run name nfs log :
  smu nfs = false →
  GetSetElements conn name (nfs, log) =
  match sets nfs !! name with
  | None => Done (Err (errSetNotExist name), (nfs, log))
  | Some s =>
      let log1 := log ++ [CallGetSetByName (stable nfs) name] in
      match WGetSetByName conn log (stable nfs) name with
      | Err _ => Done (Err (errSetNotExist name), (nfs, log1))
      | Ok _ =>
          Done (WGetSetElements conn log1 (Some s),
                (nfs, log1 ++ [CallGetSetElements (Some s)]))
      end
  end.
Proof.
  intros Hmu. unfold GetSetElements, wbind at 1. rewrite SetsExist_run by done.
  destruct (sets nfs !! name) as [s|] eqn:Hs; [|reflexivity].
  destruct (WGetSetByName conn log (stable nfs) name); [|reflexivity].
  cbn [is_Ok]. unfold wbind, wgetStore, wcall. cbn [fst snd]. by rewrite Hs.
Qed.

Lemma SetAddElements_run name elements nfs log :
  smu nfs = false →
  SetAddElements conn name elements (nfs, log) =
  match sets nfs !! name with
  | None => Done (Some (errSetNotExist name), (nfs, log))
  | Some s =>
      let log1 := log ++ [CallGetSetByName (stable nfs) name] in
      match WGetSetByName conn log (stable nfs) name with
      | Err _ => Done (Some (errSetNotExist name), (nfs, log1))
      | Ok _ =>
          let log2 := log1 ++ [CallSetAddElements (Some s) elements] in
          match WSetAddElements conn log1 (Some s) elements with
          | Some e => Done (Some e, (nfs, log2))
          | None => Done (WFlush conn log2, (nfs, log2 ++ [Plain CallFlush]))
          end
      end
  end.
Proof.
  intros Hmu. unfold SetAddElements, wbind at 1. rewrite SetsExist_run by done.
  destruct (sets nfs !! name) as [s|] eqn:Hs; [|reflexivity].
  destruct (WGetSetByName conn log (stable nfs) name); [|reflexivity].
  cbn [is_Ok]. unfold wbind, wgetStore, wcall, wret. cbn [fst snd]. rewrite Hs.
  destruct (WSetAddElements conn _ _ _); [reflexivity|].
  destruct (WFlush conn _); reflexivity.
Qed.

Lemma SetDelElements_run name elements nfs log :
  smu nfs = false →
  SetDelElements conn name elements (nfs, log) =
  match sets nfs !! name with
  | None => Done (Some (errSetNotExist name), (nfs, log))
  | Some s =>
      let log1 := log ++ [CallGetSetByName (stable nfs) name] in
      match WGetSetByName conn log (stable nfs) name with
      | Err _ => Done (Some (errSetNotExist name), (nfs, log1))
      | Ok _ =>
          let log2 := log1 ++ [CallSetDeleteElements (Some s) elements] in
          match WSetDeleteElements conn log1 (Some s) elements with
          | Some e => Done (Some e, (nfs, log2))
          | None => Done (WFlush conn log2, (nfs, log2 ++ [Plain CallFlush]))
          end
      end
  end.
Proof.
  intros Hmu. unfold SetDelElements, wbind at 1. rewrite SetsExist_run by done.
  destruct (sets nfs !! name) as [s|] eqn:Hs; [|reflexivity].
  destruct (WGetSetByName conn log (stable nfs) name); [|reflexivity].
  cbn [is_Ok]. unfold wbind, wgetStore, wcall, wret. cbn [fst snd]. rewrite Hs.
  destruct (WSetDeleteElements conn _ _ _); [reflexivity|].
  destruct (WFlush conn _); reflexivity.
Qed.

(** X18. On a store whose mutex is free, [GetSetElements],
    [SetAddElements] and [SetDelElements] never change the store. Unless
    the store holds the name and the kernel confirms the set, each
    returns the does-not-exist error and calls the connection for nothing
    but that lookup. Otherwise the two updates enqueue the elements and
    flush only if the connection accepted them: the error returned is
    the connection's refusal, or else the answer of the flush. *)
Theorem element_operations name elements nfs log :
  smu nfs = false →
  let log1 := log ++ lookupCalls nfs name in
  (¬ setKnown conn nfs log name →
     GetSetElements conn name (nfs, log) = Done (Err (errSetNotExist name), (nfs, log1)) ∧
     SetAddElements conn name elements (nfs, log)
     = Done (Some (errSetNotExist name), (nfs, log1)) ∧
     SetDelElements conn name elements (nfs, log)
     = Done (Some (errSetNotExist name), (nfs, log1))) ∧
  (setKnown conn nfs log name →
     GetSetElements conn name (nfs, log)
     = Done (WGetSetElements conn log1 (sets nfs !! name),
             (nfs, log1 ++ [CallGetSetElements (sets nfs !! name)])) ∧
     SetAddElements conn name elements (nfs, log)
     = (let log2 := log1 ++ [CallSetAddElements (sets nfs !! name) elements] in
        match WSetAddElements conn log1 (sets nfs !! name) elements with
        | Some e => Done (Some e, (nfs, log2))
        | None => Done (WFlush conn log2, (nfs, log2 ++ [Plain CallFlush]))
        end) ∧
     SetDelElements conn name elements (nfs, log)
     = (let log2 := log1 ++ [CallSetDeleteElements (sets nfs !! name) elements] in
        match WSetDeleteElements conn log1 (sets nfs !! name) elements with
        | Some e => Done (Some e, (nfs, log2))
        | None => Done (WFlush conn log2, (nfs, log2 ++ [Plain CallFlush]))
        end)).
Proof.
  intros Hmu. cbn zeta.
  rewrite GetSetElements_run, SetAddElements_run, SetDelElements_run by done.
  unfold setKnown, lookupCalls. cbn zeta.
  destruct (sets nfs !! name) as [s|].
  - destruct (WGetSetByName conn log (stable nfs) name) as [s'|e].
    + split; [intros []; eauto|]. intros _. done.
    + split; [done|]. intros [_ [s' [=]]].
  - rewrite app_nil_r. split; [done|]. by intros [[s [=]] _].
Qed.

Lemma plain_CreateSet_run attrs elements rnd nfs log :
  plain conn (fun c => CreateSet c attrs elements rnd) (nfs, log) =
  let s := CreateSet_s (stable nfs) attrs rnd in
  let log1 := log ++ [Plain (CallAddSet s elements)] in
  match WAddSet conn log s elements with
  | Some e => Done (Err e, (nfs, log1))
  | None =>
      match WFlush conn log1 with
      | Some e => Done (Err e, (nfs, log1 ++ [Plain CallFlush]))
      | None =>
          if smu nfs then Blocked (nfs, log1 ++ [Plain CallFlush])
          else Done (Ok s, (mknfSets (stable nfs) false (<[AName attrs := s]> (sets nfs)),
                            log1 ++ [Plain CallFlush]))
      end
  end.
Proof.
  unfold plain. cbn [fst snd]. rewrite CreateSet_run. cbn zeta.
  cbn [narrow AddSet Flush app fmap list_fmap]. rewrite app_nil_r.
  destruct (WAddSet conn log _ elements); [reflexivity|].
  destruct (WFlush conn _); [by rewrite <- app_assoc|].
  destruct (smu nfs); by rewrite <- app_assoc.
Qed.

(** X19. [CreateSet] of a name the store does not hold, followed by
    [DelSet] of that name, gives the store back as it was, provided the
    kernel confirms the set and accepts the flush of the deletion. *)
Theorem CreateSet_DelSet_roundtrip attrs elements rnd nfs log s nfs1 log1 :
  sets nfs !! AName attrs = None →
  plain conn (fun c => CreateSet c attrs elements rnd) (nfs, log) = Done (Ok s, (nfs1, log1)) →
  (∃ s', WGetSetByName conn log1 (stable nfs) (AName attrs) = Ok s') →
  WFlush conn (log1 ++ [CallGetSetByName (stable nfs) (AName attrs); CallDelSet (Some s)])
  = None →
  DelSet conn (AName attrs) (nfs1, log1)
  = Done (None, (nfs, log1 ++ [CallGetSetByName (stable nfs) (AName attrs);
                                CallDelSet (Some s); Plain CallFlush])).
Proof.
  intros Hfresh. rewrite plain_CreateSet_run. cbn zeta.
  destruct (WAddSet conn log _ elements); [discriminate|].
  destruct (WFlush conn _); [discriminate|].
  destruct (smu nfs) eqn:Hmu; [discriminate|].
  intros [= <- <- <-] [s' Hs'] Hflush.
  rewrite DelSet_run by done. cbn zeta. cbn [sets stable].
  rewrite lookup_insert_eq, Hs'. rewrite <- !app_assoc in *. cbn [app] in *.
  rewrite Hflush, delete_insert_id by done.
  destruct nfs as [t m ss]. cbn in Hmu. by subst m.
Qed.


End SetStoreWideFacts.


Lemma SetsExist_answer_witness :
  ∃ b log',
    SetsExist wideConn "blocked" (oneSet, []) = Done (b, (oneSet, log')) ∧
    (sets oneSet !! "blocked" = None → b = false ∧ log' = []) ∧
    (is_Some (sets oneSet !! "blocked") →
       log' = [] ++ [CallGetSetByName (stable oneSet) "blocked"] ∧
       (b = true ↔ ∃ s, WGetSetByName wideConn [] (stable oneSet) "blocked" = Ok s)).
Proof.
  apply (proj2 (SetsExist_answer wideConn "blocked" oneSet [])). reflexivity.
Defined.

Lemma element_operations_witness :
  SetAddElements wideConn "other" userRange (oneSet, [])
  = Done (Some (errSetNotExist "other"), (oneSet, [] ++ lookupCalls oneSet "other")) ∧
  SetAddElements wideConn "blocked" userRange (oneSet, [])
  = Done (None, (oneSet, [CallGetSetByName v4Filter "blocked";
                           CallSetAddElements (sets oneSet !! "blocked") userRange;
                           Plain CallFlush])).
Proof.
  split.
  - apply (proj1 (element_operations wideConn "other" userRange oneSet [] eq_refl)).
    intros [[s Hs] _]. vm_compute in Hs. discriminate.
  - apply (proj2 (element_operations wideConn "blocked" userRange oneSet [] eq_refl)).
    split; [by eexists | by eexists].
Defined.

Lemma CreateSet_DelSet_roundtrip_witness :
  DelSet wideConn "blocked"
    (mknfSets v4Filter false {[ "blocked" := CreateSet_s v4Filter blockedNets 9 ]},
     [Plain (CallAddSet (CreateSet_s v4Filter blockedNets 9) userRange); Plain CallFlush])
  = Done (None, (newSets v4Filter,
                 [Plain (CallAddSet (CreateSet_s v4Filter blockedNets 9) userRange);
                  Plain CallFlush]
                 ++ [CallGetSetByName v4Filter "blocked";
                     CallDelSet (Some (CreateSet_s v4Filter blockedNets 9));
                     Plain CallFlush])).
Proof.
  apply (CreateSet_DelSet_roundtrip wideConn blockedNets userRange 9 (newSets v4Filter) []).
  - reflexivity.
  - rewrite plain_CreateSet_run. reflexivity.
  - by eexists.
  - reflexivity.
Defined.

(** ** Deleting tables *)

Section TableStoreWideFacts.
Variable conn : WNetNS.
Variable nfChains : Type.
Variable newChains : Table → nfChains.

Implicit Types tbls : gmap TableFamily (gmap string (nfTable nfChains)).
Implicit Types nft : nfTables nfChains.

Lemma lookupTable_dropped tbls name fam f n :
  lookupTable (dropped name fam tbls) f n =
  if decide (f = fam ∧ n = name) then None else lookupTable tbls f n.
Proof.
  unfold dropped.
  destruct (lookupTable tbls fam name) as [r|] eqn:Hl.
  - unfold lookupTable in *.
    destruct (decide (f = fam)) as [->|Hf].
    + rewrite lookup_alter_eq. destruct (tbls !! fam) as [b|]; [|done]. cbn in *.
      destruct (decide (n = name)) as [->|Hn].
      * rewrite decide_True by done. apply lookup_delete_eq.
      * rewrite decide_False by tauto. by apply lookup_delete_ne.
    + rewrite lookup_alter_ne by done. by rewrite decide_False by tauto.
  - case_decide as Hk; [|done]. by destruct Hk as [-> ->].
Qed.

Lemma lookupTable_pruned tbls fam f n :
  lookupTable (pruned fam tbls) f n = lookupTable tbls f n.
Proof.
  unfold pruned. case_bool_decide as Hsize; [|done].
  apply map_size_empty_inv in Hsize. unfold lookupTable.
  destruct (decide (f = fam)) as [->|Hf]; [|by rewrite lookup_delete_ne].
  rewrite lookup_delete_eq. destruct (tbls !! fam) as [b|]; [|done].
  cbn in *. subst b. symmetry. apply lookup_empty.
Qed.


Lemma plain_lockTables nft log :
  plain conn (fun _ => lockTables nfChains) (nft, log) =
  if mu nft then Blocked (nft, log) else Done (tt, (mknfTables true (tables nft), log)).
Proof.
  unfold plain, lockTables. cbn [fst snd].
  destruct (mu nft); cbn; by rewrite app_nil_r.
Qed.

Lemma plain_unlockTables nft log :
  plain conn (fun _ => unlockTables nfChains) (nft, log) =
  Done (tt, (mknfTables false (tables nft), log)).
Proof. unfold plain, unlockTables. cbn. by rewrite app_nil_r. Qed.

Lemma listedIn_iff log name fam :
  listedIn conn log name fam = true ↔ kernelLists conn log name fam.
Proof.
  unfold listedIn, kernelLists.
  destruct (WListTables conn log) as [kernel|e].
  - rewrite listed_iff. naive_solver.
  - naive_solver.
Qed.

Lemma plain_Exist_run name fam nft log :
  plain conn (fun c => Exist c name fam) (nft, log) =
  match lookupTable (tables nft) fam name with
  | Some _ => Done (true, (nft, log))
  | None => Done (listedIn conn log name fam, (nft, log ++ [Plain CallListTables]))
  end.
Proof.
  unfold plain. cbn [fst snd]. rewrite Exist_run.
  destruct (lookupTable (tables nft) fam name); [cbn; by rewrite app_nil_r|].
  unfold listedIn. cbn [narrow ListTables fmap list_fmap]. rewrite app_nil_r.
  destruct (WListTables conn log); reflexivity.
Qed.

Lemma Delete_run name fam nft log :
  mu nft = false →
  Delete conn name fam (nft, log) =
  Done (None,
        (mknfTables false (pruned fam (dropped name fam (tables nft))),
         (log ++ [Plain CallListTables]) ++
         (if listedIn conn log name fam then [CallDelTable (mkTable fam name)] else []))).
Proof.
  intros Hmu. unfold Delete, wbind at 1. rewrite plain_lockTables, Hmu.
  unfold wbind at 1, wgetStore. cbn [fst snd tables].
  pose proof (lookupTable_dropped (tables nft) name fam fam name) as Hgone.
  rewrite decide_True in Hgone by done.
  assert ((run match lookupTable (tables nft) fam name with
               | Some _ => dropTable name fam
               | None => wret tt
               end
           then (fun s => Done (tt, s)))
            (mknfTables true (tables nft), log)
          = Done (tt, (mknfTables true (dropped name fam (tables nft)), log))) as Hdrop.
  { unfold dropped, wbind, dropTable, wret.
    destruct (lookupTable (tables nft) fam name); reflexivity. }
  unfold wbind at 1.
  unfold wbind in Hdrop.
  destruct (match lookupTable (tables nft) fam name with
            | Some _ => dropTable name fam
            | None => wret tt
            end (mknfTables true (tables nft), log)) as [[[] s1]| |]; [|discriminate..].
  injection Hdrop as ->.
  unfold wbind at 1. rewrite plain_Exist_run. cbn [tables]. rewrite Hgone.
  unfold wbind at 1.
  assert (∀ log1, (if listedIn conn log name fam
                   then wcall (fun _ => tt) (CallDelTable (mkTable fam name))
                   else wret tt)
                    (mknfTables true (dropped name fam (tables nft)), log1)
                  = Done (tt, (mknfTables true (dropped name fam (tables nft)),
                               log1 ++ (if listedIn conn log name fam
                                        then [CallDelTable (mkTable fam name)] else []))))
    as ->.
  { intros log1. destruct (listedIn conn log name fam); [reflexivity|].
    unfold wret. by rewrite app_nil_r. }
  unfold wbind at 1, pruneFamily, pruned. cbn [fst snd tables mu].
  case_bool_decide; unfold wbind; rewrite plain_unlockTables; reflexivity.
Qed.

Lemma Delete_locked name fam nft log :
  mu nft = true → Delete conn name fam (nft, log) = Blocked (nft, log).
Proof.
  intros Hmu. unfold Delete, wbind at 1. by rewrite plain_lockTables, Hmu.
Qed.

(** X20. On a store whose mutex is free, [Delete] always returns nil,
    with the mutex released. The record under [(familyType, name)] is
    gone and every other record is as it was. It lists the kernel's
    tables once, after the local record is dropped, and enqueues the
    delete-table exactly when the kernel lists the table: when the
    listing fails or does not list it, nothing is enqueued and still nil
    is returned. *)
Theorem Delete_outcome name fam nft log :
  mu nft = false →
  ∃ nft' log',
    Delete conn name fam (nft, log) = Done (None, (nft', log')) ∧
    mu nft' = false ∧
    lookupTable (tables nft') fam name = None ∧
    (∀ f n, ¬ (f = fam ∧ n = name) →
            lookupTable (tables nft') f n = lookupTable (tables nft) f n) ∧
    ((kernelLists conn log name fam ∧
      log' = log ++ [Plain CallListTables; CallDelTable (mkTable fam name)]) ∨
     (¬ kernelLists conn log name fam ∧ log' = log ++ [Plain CallListTables])).
Proof.
  intros Hmu. rewrite Delete_run by done. eexists _, _.
  split; [reflexivity|]. cbn [mu tables]. split; [done|].
  split; [by rewrite lookupTable_pruned, lookupTable_dropped, decide_True|].
  split.
  { intros f n Hk. by rewrite lookupTable_pruned, lookupTable_dropped, decide_False. }
  destruct (listedIn conn log name fam) eqn:Hlisted.
  - left. split; [by apply listedIn_iff|]. by rewrite <- app_assoc.
  - right. split; [|by rewrite app_nil_r].
    rewrite <- listedIn_iff, Hlisted. discriminate.
Qed.


Lemma create_absent_tables tbls name fam :
  lookupTable tbls fam name = None →
  (create newChains name fam tbls).2
  = <[fam := <[name := (create newChains name fam tbls).1]> (default ∅ (tbls !! fam))]> tbls.
Proof.
  unfold lookupTable, create. intros Hl.
  destruct (tbls !! fam) as [bucket|] eqn:Hb.
  - cbn in Hl. rewrite Hl. unfold allocTable. cbn [fst snd]. by rewrite Hb.
  - unfold allocTable. cbn [fst snd]. rewrite lookup_insert_eq. cbn [default from_option].
    by rewrite insert_insert_eq.
Qed.

Lemma create_drop_prune tbls name fam :
  lookupTable tbls fam name = None →
  noEmptyBucket tbls →
  pruned fam (dropped name fam (create newChains name fam tbls).2) = tbls.
Proof.
  intros Hl Hinv.
  pose proof (lookupTable_create _ newChains tbls name fam fam name) as Hc.
  rewrite decide_True in Hc by done.
  unfold dropped. rewrite Hc. rewrite create_absent_tables by done.
  rewrite alter_insert_eq.
  assert (default ∅ (tbls !! fam) !! name = None) as Hfresh.
  { unfold lookupTable in Hl. destruct (tbls !! fam); [done | apply lookup_empty]. }
  rewrite delete_insert_id by done.
  unfold pruned. rewrite lookup_insert_eq. cbn [default from_option].
  destruct (tbls !! fam) as [b|] eqn:Hb; cbn [default from_option].
  - rewrite bool_decide_eq_false_2; [by apply insert_id|].
    apply map_size_non_empty_iff. by eapply Hinv.
  - rewrite bool_decide_eq_true_2 by (by apply map_size_empty_iff).
    by apply delete_insert_id.
Qed.

Lemma plain_Create_run name fam nft log :
  mu nft = false →
  plain conn (fun _ => Create newChains name fam) (nft, log) =
  Done (None, (mknfTables false (create newChains name fam (tables nft)).2,
               log ++ [Plain (CallAddTable (table (create newChains name fam (tables nft)).1))])).
Proof.
  intros Hmu. unfold plain. cbn [fst snd]. by rewrite Create_run.
Qed.

(** X22. From a registry that holds no record for [(familyType, name)]
    and has no empty bucket, [Create] followed by [Delete] of the same
    table gives the store back as it was: the record is dropped and a
    family that was added for it is removed again. *)
Theorem Create_Delete_roundtrip name fam nft log :
  mu nft = false →
  lookupTable (tables nft) fam name = None →
  noEmptyBucket (tables nft) →
  ∃ log1 log2,
    plain conn (fun _ => Create newChains name fam) (nft, log) =
    Done (None, (mknfTables false (create newChains name fam (tables nft)).2, log1)) ∧
    Delete conn name fam (mknfTables false (create newChains name fam (tables nft)).2, log1)
    = Done (None, (nft, log2)).
Proof.
  intros Hmu Hl Hinv. rewrite plain_Create_run by done.
  eexists _, _. split; [reflexivity|].
  rewrite Delete_run by done. cbn [tables].
  rewrite create_drop_prune by done.
  destruct nft as [m tbls]. cbn in Hmu. subst m. reflexivity.
Qed.

(** X23. [Exist] right after [Delete] of the same table leaves the
    store as [Delete] left it and answers from the kernel alone: [true]
    exactly when the kernel's listing succeeds and still lists the
    table, [false] when no such table remains there. *)
Theorem Delete_then_Exist name fam nft log r nft' log' :
  Delete conn name fam (nft, log) = Done (r, (nft', log')) →
  ∃ b,
    plain conn (fun c => Exist c name fam) (nft', log')
    = Done (b, (nft', log' ++ [Plain CallListTables])) ∧
    (b = true ↔ kernelLists conn log' name fam).
Proof.
  intros Hrun.
  destruct (mu nft) eqn:Hmu; [by rewrite Delete_locked in Hrun|].
  rewrite Delete_run in Hrun by done. injection Hrun as <- <- <-.
  rewrite plain_Exist_run. cbn [tables].
  rewrite lookupTable_pruned, lookupTable_dropped, decide_True by done.
  eexists. split; [reflexivity|]. apply listedIn_iff.
Qed.

(** X24. On a store whose mutex is free, [DeleteImm] does what
    [Delete] does and then flushes: it returns the answer of the flush,
    and the local record is gone whether the flush succeeds or not. *)
Theorem DeleteImm_outcome name fam nft log :
  mu nft = false →
  ∃ nft' log',
    Delete conn name fam (nft, log) = Done (None, (nft', log')) ∧
    DeleteImm conn name fam (nft, log)
    = Done (WFlush conn log', (nft', log' ++ [Plain CallFlush])) ∧
    lookupTable (tables nft') fam name = None.
Proof.
  intros Hmu. unfold DeleteImm, wbind. rewrite Delete_run by done.
  eexists _, _. split; [reflexivity|]. split; [reflexivity|].
  cbn [tables]. by rewrite lookupTable_pruned, lookupTable_dropped, decide_True.
Qed.
End TableStoreWideFacts.

Lemma Delete_outcome_witness :
  ∃ nft' log',
    Delete wideConn "kernel-only" TableFamilyIPv4 (localOnly, []) = Done (None, (nft', log')) ∧
    mu nft' = false ∧
    lookupTable (tables nft') TableFamilyIPv4 "kernel-only" = None ∧
    (∀ f n, ¬ (f = TableFamilyIPv4 ∧ n = "kernel-only") →
            lookupTable (tables nft') f n = lookupTable (tables localOnly) f n) ∧
    ((kernelLists wideConn [] "kernel-only" TableFamilyIPv4 ∧
      log' = [] ++ [Plain CallListTables;
                    CallDelTable (mkTable TableFamilyIPv4 "kernel-only")]) ∨
     (¬ kernelLists wideConn [] "kernel-only" TableFamilyIPv4 ∧
      log' = [] ++ [Plain CallListTables])).
Proof.
  apply (Delete_outcome wideConn unit "kernel-only" TableFamilyIPv4 localOnly []).
  reflexivity.
Defined.

Lemma localOnly_noEmptyBucket : noEmptyBucket (tables localOnly).
Proof.
  apply create_noEmptyBucket. intros f b. by rewrite lookup_empty.
Qed.


Lemma Create_Delete_roundtrip_witness :
  ∃ log1 log2,
    plain wideConn (fun _ => Create noChains "filter-v4" TableFamilyIPv6) (localOnly, []) =
    Done (None, (mknfTables false
                   (create noChains "filter-v4" TableFamilyIPv6 (tables localOnly)).2, log1)) ∧
    Delete wideConn "filter-v4" TableFamilyIPv6
      (mknfTables false (create noChains "filter-v4" TableFamilyIPv6 (tables localOnly)).2, log1)
    = Done (None, (localOnly, log2)).
Proof.
  apply (Create_Delete_roundtrip wideConn unit noChains "filter-v4" TableFamilyIPv6 localOnly []).
  - reflexivity.
  - vm_compute. reflexivity.
  - apply localOnly_noEmptyBucket.
Defined.

Lemma Delete_then_Exist_witness :
  ∃ b,
    plain wideConn (fun c => Exist c "local-only" TableFamilyIPv4)
      (mknfTables false
         (pruned TableFamilyIPv4 (dropped "local-only" TableFamilyIPv4 (tables localOnly))),
       [Plain CallListTables])
    = Done (b, (mknfTables false
         (pruned TableFamilyIPv4 (dropped "local-only" TableFamilyIPv4 (tables localOnly))),
       [Plain CallListTables] ++ [Plain CallListTables])) ∧
    (b = true ↔ kernelLists wideConn [Plain CallListTables] "local-only" TableFamilyIPv4).
Proof.
  apply (Delete_then_Exist wideConn unit "local-only" TableFamilyIPv4 localOnly [] None).
  rewrite Delete_run by reflexivity. reflexivity.
Defined.

Lemma DeleteImm_outcome_witness :
  ∃ nft' log',
    Delete wideConn "local-only" TableFamilyIPv4 (localOnly, []) = Done (None, (nft', log')) ∧
    DeleteImm wideConn "local-only" TableFamilyIPv4 (localOnly, [])
    = Done (WFlush wideConn log', (nft', log' ++ [Plain CallFlush])) ∧
    lookupTable (tables nft') TableFamilyIPv4 "local-only" = None.
Proof.
  apply (DeleteImm_outcome wideConn unit "local-only" TableFamilyIPv4 localOnly []).
  reflexivity.
Defined.

(** ** The L3 compiler: what it builds and in which order *)

Section CompilerMoreFacts.
Variable expr : Type.
Variable getExprForListIPV2 : TableFamily → NftSet → Z → bool → result (list expr).
Variable getExprForRangeIP :
  TableFamily → Z → option L3.IPAddr * option L3.IPAddr → bool → result (list expr).
Variable getExprForIPVersion : Z → bool → result (list expr).
Variable getExprForProtocol : TableFamily → Z → bool → result (list expr).

Lemma setKeys_zeros conv (addrs : list L3.IPAddr) :
  L3.setKeys conv addrs (repeat SetElement_zero (length addrs))
  = (fun a => mkSetElement (conv (L3.IP a)) None false None) <$> addrs.
Proof.
  unfold L3.setKeys. induction addrs as [|a addrs IH]; [reflexivity|].
  cbn [length repeat zip_with fmap list_fmap]. by rewrite IH.
Qed.

Lemma processAddrList_elements family (addrs : list L3.IPAddr) :
  (let se := repeat SetElement_zero (length addrs) in
   let se := if decide (family = TableFamilyIPv4) then L3.setKeys To4 addrs se else se in
   if decide (family = TableFamilyIPv6) then L3.setKeys To16 addrs se else se)
  = listElements family addrs.
Proof.
  cbn zeta. unfold listElements, addrKey.
  destruct (decide (family = TableFamilyIPv4)) as [->|H4].
  - rewrite decide_False by done. apply setKeys_zeros.
  - destruct (decide (family = TableFamilyIPv6)) as [->|H6].
    + apply setKeys_zeros.
    + induction addrs as [|a addrs IH]; [reflexivity|].
      cbn [length repeat fmap list_fmap]. by rewrite IH.
Qed.

Lemma processAddrList_run family offset addrs excl f :
  L3.processAddrList getExprForListIPV2 family offset addrs excl f =
  if (length addrs =? 0)%nat
  then Err ("unknown nftables.TableFamily " +:+ fmtHexByte family)
  else
    match getExprForListIPV2 family (listSet f SetDatatype_zero) offset excl with
    | Err e => Err e
    | Ok re =>
        Ok (re, Some (L3.mknfSet (listSet f SetDatatype_zero) (listElements family addrs)))
    end.
Proof.
  rewrite processAddrList_guard.
  destruct (length addrs =? 0)%nat; [reflexivity|].
  destruct (getExprForListIPV2 _ _ _ _); [|reflexivity].
  by rewrite processAddrList_elements.
Qed.

(** X25. Compiling a list of addresses fails only when the list is
    empty or the expression builder fails: the addresses are not looked
    at, and the builder is called before any key is known to it. *)
Theorem processAddrList_succeeds_iff family offset addrs excl f :
  (∃ r, L3.processAddrList getExprForListIPV2 family offset addrs excl f = Ok r) ↔
  addrs ≠ [] ∧
  ∃ re, getExprForListIPV2 family (listSet f SetDatatype_zero) offset excl = Ok re.
Proof.
  rewrite processAddrList_run.
  destruct addrs as [|a addrs]; cbn [length Nat.eqb].
  - split; [by intros [r [=]] | by intros [[] _]].
  - destruct (getExprForListIPV2 _ _ _ _) as [re|e].
    + split; [eauto | eauto].
    + split; [by intros [r [=]] | by intros [_ [re [=]]]].
Qed.

(** X26. What [processIPAddr] returns on success, for every family: the
    expressions of the list followed by those of the range; for a list
    one set, constant and not anonymous, under the name handed out, typed
    with the address datatype of the family, holding one element per
    address in the order of the list, keyed by the 4-byte or 16-byte form
    of the address; for a range no set. *)
Theorem processIPAddr_parts family addrs src excl f re sets :
  L3.processIPAddr getExprForListIPV2 getExprForRangeIP family addrs src excl f
  = Ok (re, sets) →
  ∃ rl rr,
    re = rl ++ rr ∧
    match L3.List addrs with
    | Some l =>
        l ≠ [] ∧
        getExprForListIPV2 family (listSet f SetDatatype_zero) (addrOffsetOf family src) excl
        = Ok rl ∧
        sets = [L3.mknfSet (listSet f (keyTypeOf family)) (listElements family l)]
    | None => rl = [] ∧ sets = []
    end ∧
    match L3.Range addrs with
    | (Some lo, Some hi) =>
        getExprForRangeIP family (addrOffsetOf family src) (L3.Range addrs) excl = Ok rr
    | _ => rr = []
    end.
Proof.
  unfold L3.processIPAddr. cbn zeta. fold (addrOffsetOf family src). fold (keyTypeOf family).
  destruct (L3.List addrs) as [l|].
  - rewrite processAddrList_run.
    destruct l as [|a l]; [discriminate|]. cbn [length Nat.eqb].
    destruct (getExprForListIPV2 _ _ _ _) as [rl|e]; [|discriminate].
    cbn [andThen fst snd app L3.collect L3.set L3.elements].
    destruct (L3.Range addrs) as [[lo|] [hi|]];
      try (intros [= <- <-]; exists rl, []; by rewrite app_nil_r).
    unfold L3.processAddrRange.
    destruct (getExprForRangeIP _ _ _ _) as [rr|e]; [|discriminate].
    cbn [andThen fst snd L3.collect]. intros [= <- <-]. by exists rl, rr.
  - cbn [andThen fst snd].
    destruct (L3.Range addrs) as [[lo|] [hi|]];
      try (intros [= <- <-]; by exists [], []).
    unfold L3.processAddrRange.
    destruct (getExprForRangeIP _ _ _ _) as [rr|e]; [|discriminate].
    cbn [andThen fst snd L3.collect]. intros [= <- <-]. by exists [], rr.
Qed.

(** X27. What [createL3] returns on success: the expressions of the IP
    version, of the protocol, of the source and of the destination, in
    that order, each for a field that is populated, and the sets of the
    source followed by those of the destination; every builder got the
    exclusion flag of the rule. *)
Theorem createL3_order family rule fsrc fdst re sets :
  L3.createL3 getExprForListIPV2 getExprForRangeIP getExprForIPVersion getExprForProtocol
    family rule fsrc fdst = Done (Ok (re, sets)) →
  ∃ l3 rv rp rs ss rd sd,
    L3.L3 rule = Some l3 ∧
    re = rv ++ rp ++ rs ++ rd ∧ sets = ss ++ sd ∧
    match L3.Version l3 with
    | Some v => getExprForIPVersion v (L3.Exclude rule) = Ok rv
    | None => rv = []
    end ∧
    match L3.Protocol l3 with
    | Some p => getExprForProtocol family p (L3.Exclude rule) = Ok rp
    | None => rp = []
    end ∧
    match L3.Src l3 with
    | Some a =>
        L3.processIPAddr getExprForListIPV2 getExprForRangeIP family a true
          (L3.Exclude rule) fsrc = Ok (rs, ss)
    | None => rs = [] ∧ ss = []
    end ∧
    match L3.Dst l3 with
    | Some a =>
        L3.processIPAddr getExprForListIPV2 getExprForRangeIP family a false
          (L3.Exclude rule) fdst = Ok (rd, sd)
    | None => rd = [] ∧ sd = []
    end.
Proof.
  unfold L3.createL3, L3.processVersion, L3.processProtocol.
  destruct (L3.L3 rule) as [l3|]; [|discriminate].
  intros [= Hrun]. exists l3. revert Hrun.
  destruct (L3.Version l3) as [v|];
    [destruct (getExprForIPVersion v _) as [rv|]; [|discriminate]|];
    (destruct (L3.Protocol l3) as [p|];
       [destruct (getExprForProtocol family p _) as [rp|]; [|discriminate]|]);
    (destruct (L3.Src l3) as [a|];
       [destruct (L3.processIPAddr _ _ family a true _ fsrc) as [[rs ss]|];
          [|discriminate]|]);
    (destruct (L3.Dst l3) as [d|];
       [destruct (L3.processIPAddr _ _ family d false _ fdst) as [[rd sd]|];
          [|discriminate]|]);
    cbn [andThen fst snd app]; intros [= <- <-];
    eexists _, _, _, _, _, _;
    (split; [reflexivity|]);
    (split; [|split]); cycle 2;
    try (repeat split; reflexivity);
    rewrite ?app_nil_r, <- ?app_assoc; reflexivity.
Qed.

(** *** The header offsets of the address matches *)

Lemma processIPAddr_Ok_iff family addrs src excl f re sets :
  L3.processIPAddr getExprForListIPV2 getExprForRangeIP family addrs src excl f
  = Ok (re, sets) ↔
  ∃ rl rr,
    listCompiledAt getExprForListIPV2 family (addrOffsetOf family src) excl f (Some addrs) rl ∧
    rangeCompiledAt getExprForRangeIP family (addrOffsetOf family src) excl (Some addrs) rr ∧
    re = rl ++ rr ∧ sets = listSets family f (Some addrs).
Proof.
  unfold L3.processIPAddr, listCompiledAt, rangeCompiledAt, listSets. cbn zeta.
  fold (addrOffsetOf family src). fold (keyTypeOf family).
  cbn [mbind option_bind].
  destruct (L3.List addrs) as [l|].
  - rewrite processAddrList_run.
    destruct l as [|a l]; cbn [length Nat.eqb].
    { split; [discriminate|]. by intros (rl & rr & [Hne _] & _). }
    destruct (getExprForListIPV2 _ _ _ _) as [rl|e];
      [|split; [discriminate | by intros (rl & rr & [_ [=]] & _)]].
    cbn [andThen fst snd app L3.collect L3.set L3.elements].
    unfold L3.processAddrRange.
    destruct (L3.Range addrs) as [[lo|] [hi|]];
      [destruct (getExprForRangeIP _ _ _ _) as [rr|e]| | |];
      cbn [andThen fst snd L3.collect];
      (split;
       [ try discriminate; intros [= <- <-]; eexists _, _;
         (split; [split; [done | reflexivity]|]);
         (split; [reflexivity|]); by rewrite ?app_nil_r
       | intros (rl' & rr' & [_ [= <-]] & Hr & -> & ->);
         try discriminate; subst; try injection Hr as <-;
         by rewrite ?app_nil_r ]).
  - cbn [andThen fst snd].
    unfold L3.processAddrRange.
    destruct (L3.Range addrs) as [[lo|] [hi|]];
      [destruct (getExprForRangeIP _ _ _ _) as [rr|e]| | |];
      cbn [andThen fst snd L3.collect];
      (split;
       [ try discriminate; intros [= <- <-]; by eexists _, _
       | intros (rl' & rr' & -> & Hr & -> & ->);
         try discriminate; subst; try injection Hr as <-; done ]).
Qed.

Lemma createL3_Ok_iff family rule fsrc fdst re sets :
  L3.createL3 getExprForListIPV2 getExprForRangeIP getExprForIPVersion getExprForProtocol
    family rule fsrc fdst = Done (Ok (re, sets)) ↔
  ∃ l3 rv rp rs ss rd sd,
    L3.L3 rule = Some l3 ∧
    re = rv ++ rp ++ rs ++ rd ∧ sets = ss ++ sd ∧
    match L3.Version l3 with
    | Some v => getExprForIPVersion v (L3.Exclude rule) = Ok rv
    | None => rv = []
    end ∧
    match L3.Protocol l3 with
    | Some p => getExprForProtocol family p (L3.Exclude rule) = Ok rp
    | None => rp = []
    end ∧
    match L3.Src l3 with
    | Some a =>
        L3.processIPAddr getExprForListIPV2 getExprForRangeIP family a true
          (L3.Exclude rule) fsrc = Ok (rs, ss)
    | None => rs = [] ∧ ss = []
    end ∧
    match L3.Dst l3 with
    | Some a =>
        L3.processIPAddr getExprForListIPV2 getExprForRangeIP family a false
          (L3.Exclude rule) fdst = Ok (rd, sd)
    | None => rd = [] ∧ sd = []
    end.
Proof.
  split.
  - unfold L3.createL3, L3.processVersion, L3.processProtocol.
    destruct (L3.L3 rule) as [l3|]; [|discriminate].
    intros [= Hrun]. exists l3. revert Hrun.
    destruct (L3.Version l3) as [v|];
      [destruct (getExprForIPVersion v _) as [rv|]; [|discriminate]|];
      (destruct (L3.Protocol l3) as [p|];
         [destruct (getExprForProtocol family p _) as [rp|]; [|discriminate]|]);
      (destruct (L3.Src l3) as [a|];
         [destruct (L3.processIPAddr _ _ family a true _ fsrc) as [[rs ss]|];
            [|discriminate]|]);
      (destruct (L3.Dst l3) as [d|];
         [destruct (L3.processIPAddr _ _ family d false _ fdst) as [[rd sd]|];
            [|discriminate]|]);
      cbn [andThen fst snd app]; intros [= <- <-];
      eexists _, _, _, _, _, _;
      (split; [reflexivity|]);
      (split; [|split]); cycle 2;
      try (repeat split; reflexivity);
      rewrite ?app_nil_r, <- ?app_assoc; reflexivity.
  - intros (l3 & rv & rp & rs & ss & rd & sd & Hl3 & -> & -> & Hv & Hp & Hs & Hd).
    unfold L3.createL3, L3.processVersion, L3.processProtocol. rewrite Hl3.
    destruct (L3.Version l3) as [v|]; [rewrite Hv | subst rv];
      (destruct (L3.Protocol l3) as [p|]; [rewrite Hp | subst rp]);
      (destruct (L3.Src l3) as [a|]; [rewrite Hs | destruct Hs as [-> ->]]);
      (destruct (L3.Dst l3) as [d|]; [rewrite Hd | destruct Hd as [-> ->]]);
      cbn [andThen fst snd app];
      by rewrite ?app_nil_r, <- ?app_assoc.
Qed.

(** C6. On an IPv4 or IPv6 table, [createL3] compiles a rule exactly
    when every populated field compiles, and then the match on the
    source address is what the builders return for header offset 12 on
    IPv4 and 8 on IPv6, and the match on the destination address what
    they return for offset 16 on IPv4 and 24 on IPv6: for the list of
    the specification and for its range alike, whether or not the IP
    version, the protocol or the other address are populated. The
    matches come after those of version and protocol, source before
    destination. *)
Theorem processIPAddr_offsets family rule fsrc fdst re sets :
  family = TableFamilyIPv4 ∨ family = TableFamilyIPv6 →
  let srcOffset := if decide (family = TableFamilyIPv4) then 12 else 8 in
  let dstOffset := if decide (family = TableFamilyIPv4) then 16 else 24 in
  let excl := L3.Exclude rule in
  L3.createL3 getExprForListIPV2 getExprForRangeIP getExprForIPVersion getExprForProtocol
    family rule fsrc fdst = Done (Ok (re, sets)) ↔
  ∃ l3 rv rp rsl rsr rdl rdr,
    L3.L3 rule = Some l3 ∧
    match L3.Version l3 with
    | Some v => getExprForIPVersion v excl = Ok rv
    | None => rv = []
    end ∧
    match L3.Protocol l3 with
    | Some p => getExprForProtocol family p excl = Ok rp
    | None => rp = []
    end ∧
    listCompiledAt getExprForListIPV2 family srcOffset excl fsrc (L3.Src l3) rsl ∧
    rangeCompiledAt getExprForRangeIP family srcOffset excl (L3.Src l3) rsr ∧
    listCompiledAt getExprForListIPV2 family dstOffset excl fdst (L3.Dst l3) rdl ∧
    rangeCompiledAt getExprForRangeIP family dstOffset excl (L3.Dst l3) rdr ∧
    re = rv ++ rp ++ (rsl ++ rsr) ++ (rdl ++ rdr) ∧
    sets = listSets family fsrc (L3.Src l3) ++ listSets family fdst (L3.Dst l3).
Proof.
  intros Hfam. cbn zeta.
  assert (addrOffsetOf family true = (if decide (family = TableFamilyIPv4) then 12 else 8) ∧
          addrOffsetOf family false = (if decide (family = TableFamilyIPv4) then 16 else 24))
    as [Hsrc Hdst].
  { unfold addrOffsetOf. by destruct Hfam as [-> | ->]. }
  rewrite <- Hsrc, <- Hdst. clear Hsrc Hdst.
  rewrite createL3_Ok_iff. split.
  - intros (l3 & rv & rp & rs & ss & rd & sd & Hl3 & -> & -> & Hv & Hp & Hs & Hd).
    assert (∃ rsl rsr,
              listCompiledAt getExprForListIPV2 family (addrOffsetOf family true)
                (L3.Exclude rule) fsrc (L3.Src l3) rsl ∧
              rangeCompiledAt getExprForRangeIP family (addrOffsetOf family true)
                (L3.Exclude rule) (L3.Src l3) rsr ∧
              rs = rsl ++ rsr ∧ ss = listSets family fsrc (L3.Src l3))
      as (rsl & rsr & Hsl & Hsr & -> & ->).
    { destruct (L3.Src l3) as [a|].
      - by apply processIPAddr_Ok_iff.
      - destruct Hs as [-> ->]. by exists [], []. }
    assert (∃ rdl rdr,
              listCompiledAt getExprForListIPV2 family (addrOffsetOf family false)
                (L3.Exclude rule) fdst (L3.Dst l3) rdl ∧
              rangeCompiledAt getExprForRangeIP family (addrOffsetOf family false)
                (L3.Exclude rule) (L3.Dst l3) rdr ∧
              rd = rdl ++ rdr ∧ sd = listSets family fdst (L3.Dst l3))
      as (rdl & rdr & Hdl & Hdr & -> & ->).
    { destruct (L3.Dst l3) as [a|].
      - by apply processIPAddr_Ok_iff.
      - destruct Hd as [-> ->]. by exists [], []. }
    by exists l3, rv, rp, rsl, rsr, rdl, rdr.
  - intros (l3 & rv & rp & rsl & rsr & rdl & rdr & Hl3 & Hv & Hp & Hsl & Hsr & Hdl & Hdr
            & -> & ->).
    exists l3, rv, rp, (rsl ++ rsr), (listSets family fsrc (L3.Src l3)),
           (rdl ++ rdr), (listSets family fdst (L3.Dst l3)).
    repeat (split; [done|]). split.
    + destruct (L3.Src l3) as [a|].
      * apply processIPAddr_Ok_iff. by exists rsl, rsr.
      * cbn in Hsl, Hsr. by subst.
    + destruct (L3.Dst l3) as [a|].
      * apply processIPAddr_Ok_iff. by exists rdl, rdr.
      * cbn in Hdl, Hdr. by subst.
Qed.
End CompilerMoreFacts.


Lemma processAddrList_succeeds_iff_witness :
  ∃ r, L3.processAddrList L3.recListIP TableFamilyIPv4 12
         [L3.mkIPAddr [192; 0; 2; 0]] false fresh1 = Ok r.
Proof.
  apply (processAddrList_succeeds_iff L3.Call L3.recListIP TableFamilyIPv4 12
           [L3.mkIPAddr [192; 0; 2; 0]] false fresh1).
  split; [done|]. by eexists.
Defined.

Lemma processIPAddr_parts_witness :
  ∃ re sets,
    L3.processIPAddr L3.recListIP L3.recRangeIP TableFamilyIPv4 mixedNets true false fresh1
    = Ok (re, sets) ∧
    ∃ rl rr,
      re = rl ++ rr ∧
      match L3.List mixedNets with
      | Some l =>
          l ≠ [] ∧
          L3.recListIP TableFamilyIPv4 (listSet fresh1 SetDatatype_zero)
            (addrOffsetOf TableFamilyIPv4 true) false = Ok rl ∧
          sets = [L3.mknfSet (listSet fresh1 (keyTypeOf TableFamilyIPv4))
                    (listElements TableFamilyIPv4 l)]
      | None => rl = [] ∧ sets = []
      end ∧
      match L3.Range mixedNets with
      | (Some lo, Some hi) =>
          L3.recRangeIP TableFamilyIPv4 (addrOffsetOf TableFamilyIPv4 true)
            (L3.Range mixedNets) false = Ok rr
      | _ => rr = []
      end.
Proof.
  eexists _, _. split; [reflexivity|].
  apply (processIPAddr_parts L3.Call L3.recListIP L3.recRangeIP TableFamilyIPv4 mixedNets
           true false fresh1).
  reflexivity.
Defined.

(** An IPv6 address in a list compiled for an IPv4 table is kept, with a
    nil key. *)
Example listElements_wrong_family :
  listElements TableFamilyIPv4 [L3.mkIPAddr [192; 0; 2; 0]; L3.mkIPAddr (repeat 1 16)]
  = [mkSetElement (Some [192; 0; 2; 0]) None false None;
     mkSetElement None None false None].
Proof. reflexivity. Qed.

Lemma createL3_order_witness :
  ∃ re sets,
    L3.createL3 L3.recListIP L3.recRangeIP L3.recIPVersion L3.recProto
      TableFamilyIPv4 fullRule fresh1 fresh2 = Done (Ok (re, sets)) ∧
    ∃ l3 rv rp rs ss rd sd,
      L3.L3 fullRule = Some l3 ∧
      re = rv ++ rp ++ rs ++ rd ∧ sets = ss ++ sd ∧
      match L3.Version l3 with
      | Some v => L3.recIPVersion v (L3.Exclude fullRule) = Ok rv
      | None => rv = []
      end ∧
      match L3.Protocol l3 with
      | Some p => L3.recProto TableFamilyIPv4 p (L3.Exclude fullRule) = Ok rp
      | None => rp = []
      end ∧
      match L3.Src l3 with
      | Some a =>
          L3.processIPAddr L3.recListIP L3.recRangeIP TableFamilyIPv4 a true
            (L3.Exclude fullRule) fresh1 = Ok (rs, ss)
      | None => rs = [] ∧ ss = []
      end ∧
      match L3.Dst l3 with
      | Some a =>
          L3.processIPAddr L3.recListIP L3.recRangeIP TableFamilyIPv4 a false
            (L3.Exclude fullRule) fresh2 = Ok (rd, sd)
      | None => rd = [] ∧ sd = []
      end.
Proof.
  eexists _, _. split; [reflexivity|].
  apply (createL3_order L3.Call L3.recListIP L3.recRangeIP L3.recIPVersion L3.recProto
           TableFamilyIPv4 fullRule fresh1 fresh2).
  reflexivity.
Defined.

Lemma processIPAddr_offsets_witness :
  ∃ re sets,
    L3.createL3 L3.recListIP L3.recRangeIP L3.recIPVersion L3.recProto
      TableFamilyIPv4 fullRule fresh1 fresh2 = Done (Ok (re, sets)) ∧
    ∃ l3 rv rp rsl rsr rdl rdr,
      L3.L3 fullRule = Some l3 ∧
      match L3.Version l3 with
      | Some v => L3.recIPVersion v (L3.Exclude fullRule) = Ok rv
      | None => rv = []
      end ∧
      match L3.Protocol l3 with
      | Some p => L3.recProto TableFamilyIPv4 p (L3.Exclude fullRule) = Ok rp
      | None => rp = []
      end ∧
      listCompiledAt L3.recListIP TableFamilyIPv4 12 (L3.Exclude fullRule) fresh1
        (L3.Src l3) rsl ∧
      rangeCompiledAt L3.recRangeIP TableFamilyIPv4 12 (L3.Exclude fullRule) (L3.Src l3) rsr ∧
      listCompiledAt L3.recListIP TableFamilyIPv4 16 (L3.Exclude fullRule) fresh2
        (L3.Dst l3) rdl ∧
      rangeCompiledAt L3.recRangeIP TableFamilyIPv4 16 (L3.Exclude fullRule) (L3.Dst l3) rdr ∧
      re = rv ++ rp ++ (rsl ++ rsr) ++ (rdl ++ rdr) ∧
      sets = listSets TableFamilyIPv4 fresh1 (L3.Src l3)
             ++ listSets TableFamilyIPv4 fresh2 (L3.Dst l3).
Proof.
  eexists _, _. split; [reflexivity|].
  apply (processIPAddr_offsets L3.Call L3.recListIP L3.recRangeIP L3.recIPVersion L3.recProto
           TableFamilyIPv4 fullRule fresh1 fresh2).
  - by left.
  - reflexivity.
Defined.

(** On an IPv6 table the same rule is compiled with 8 and 24. *)
Example createL3_v6_matches :
  L3.createL3 L3.recListIP L3.recRangeIP L3.recIPVersion L3.recProto
    TableFamilyIPv6 fullRule fresh1 fresh2
  = Done (Ok ([ L3.IPVersion 4 false; L3.Proto TableFamilyIPv6 6 false;
                L3.ListIP TableFamilyIPv6 (listSet fresh1 SetDatatype_zero) 8 false;
                L3.RangeIP TableFamilyIPv6 24 (L3.Range dstRange) false ],
              listSets TableFamilyIPv6 fresh1 (Some srcNets))).
Proof. reflexivity. Qed.
